(** * MaixPy_Vision_Tracking: the gimbal controller's serial protocol and servo loop

    A shallow embedding of [K230_UART.c] (frame synchroniser, self-check
    handshake, command/response exchange) and [servo.c] (PID controller,
    angle-to-PWM mapper, safety clamp) of the MSPM0 gimbal firmware.

    - [uint8_t] and [uint16_t] values are integers of [Z]; every wrap-around
      the C code performs is written out with [mod].
    - [float] is IEEE-754 binary32, computed with the Standard Library's
      executable specification [SpecFloat] at precision 24 and [emax] 128,
      round-to-nearest-even, one rounding per C operator.
      No operation is contracted or evaluated in a wider format, as on the
      Cortex-M0+ of the MSPM0, which has no floating-point unit.
    - Global variables are fields of a state record threaded through each
      function; the UART is a queue of pending received bytes and a log of
      transmitted ones.  The receive interrupt and the main loop are not
      interleaved: each function runs to its end. *)

From Stdlib Require Import Strings.String Strings.Ascii.
From Stdlib Require Import ZArith Lia Bool List.
From Stdlib Require Import Floats.SpecFloat.
From Stdlib Require Import Reals Lra.
From stdpp Require Import base list.
Import ListNotations.

Local Open Scope Z_scope.

(** ** K230_UART.c *)

Module K230_UART.

(** K230_UART.h *)
Definition SELF_CHECK_CMD : Z := 0x1A.
Definition STOP_CMD : Z := 0x1C.
Definition TIME_OUT : Z := 0xFF.
Definition END1 : Z := 0x01.
Definition END2 : Z := 0xFE.
Definition END3 : Z := 0xFF.

Definition is_byte (b : Z) : Prop := 0 <= b < 256.

(** The globals of the receive path.  [committed] is a ghost field: it logs
    every execution of the two assignments to [target_x] and [target_y],
    newest first, so that a commit of an unchanged value is still visible. *)
Record rx_state : Type := mk_rx_state {
  rx_data : Z;            (* volatile uint8_t rx_data *)
  rx_order : list Z;      (* volatile uint8_t rx_order[9] *)
  last_data : Z;          (* volatile uint8_t last_data *)
  pt : Z;                 (* volatile uint8_t pt *)
  target_x : Z;           (* uint16_t target_x *)
  target_y : Z;           (* uint16_t target_y *)
  committed : list (Z * Z)
}.

(** Static initialisation: the nine zero bytes of [rx_order], [last_data] and
    [pt] zero, and the zero-initialised tentative definitions of the targets. *)
Definition rx_init : rx_state :=
  {| rx_data := 0; rx_order := replicate 9 0; last_data := 0; pt := 0;
     target_x := 0; target_y := 0; committed := [] |}.

(** [rx_order[i]] as an rvalue. *)
Definition byte_at (buf : list Z) (i : nat) : Z := default 0 (buf !! i).

(** [UART_0_rx_DataFrame], with the byte [DL_UART_receiveData] returns as
    argument.  The checksum test adds the four bytes after integer promotion,
    so the sum is an [int] and is compared unreduced with [rx_order[6]]. *)
Definition UART_0_rx_DataFrame (received : Z) (s : rx_state) : rx_state :=
  let s := {| rx_data := received; rx_order := rx_order s;
              last_data := last_data s; pt := pt s;
              target_x := target_x s; target_y := target_y s;
              committed := committed s |} in
  let s :=
    if (last_data s =? rx_data s) && (rx_data s =? 0xAA) then
      {| rx_data := rx_data s;
         rx_order := <[1%nat := 0xAA]> (<[0%nat := 0xAA]> (rx_order s));
         last_data := last_data s; pt := 2;
         target_x := target_x s; target_y := target_y s;
         committed := committed s |}
    else if (last_data s =? rx_data s) && (rx_data s =? 0xFF) then
      if byte_at (rx_order s) 2 + byte_at (rx_order s) 3
         + byte_at (rx_order s) 4 + byte_at (rx_order s) 5
         =? byte_at (rx_order s) 6
      then
        let x := Z.lor (Z.shiftl (byte_at (rx_order s) 2) 8)
                       (byte_at (rx_order s) 3) mod 65536 in
        let y := Z.lor (Z.shiftl (byte_at (rx_order s) 4) 8)
                       (byte_at (rx_order s) 5) mod 65536 in
        {| rx_data := rx_data s; rx_order := rx_order s;
           last_data := last_data s; pt := pt s;
           target_x := x; target_y := y;
           committed := (x, y) :: committed s |}
      else s
    else
      {| rx_data := rx_data s;
         rx_order := <[Z.to_nat (pt s) := rx_data s]> (rx_order s);
         last_data := last_data s;
         pt := ((pt s + 1) mod 256) mod 9;
         target_x := target_x s; target_y := target_y s;
         committed := committed s |} in
  {| rx_data := rx_data s; rx_order := rx_order s;
     last_data := rx_data s; pt := pt s;
     target_x := target_x s; target_y := target_y s;
     committed := committed s |}.

(** The receive interrupt fired once per byte of a stream, oldest byte first. *)
Definition rx_stream (s : rx_state) (bytes : list Z) : rx_state :=
  fold_left (fun s b => UART_0_rx_DataFrame b s) bytes s.

(** The coordinate frame on the wire. *)
Definition frame (xh xl yh yl chk : Z) : list Z :=
  [0xAA; 0xAA; xh; xl; yh; yl; chk; 0xFF; 0xFF].

(** [b] arriving after [a] is taken for a sync or terminator marker instead
    of being stored. *)
Definition marker_pair (a b : Z) : bool :=
  (a =? b) && ((b =? 0xAA) || (b =? 0xFF)).

(** No payload byte of the frame completes a marker pair with the byte sent
    just before it (the protocol has no byte stuffing). *)
Definition transparent (xh xl yh yl chk : Z) : bool :=
  negb (marker_pair 0xAA xh) && negb (marker_pair xh xl)
  && negb (marker_pair xl yh) && negb (marker_pair yh yl)
  && negb (marker_pair yl chk).

(** The state right after a sync pair: header written, index at 2. *)
Definition synced (a2 a3 a4 a5 a6 a7 a8 tx ty : Z) (log : list (Z * Z)) :=
  {| rx_data := 0xAA; rx_order := [0xAA; 0xAA; a2; a3; a4; a5; a6; a7; a8];
     last_data := 0xAA; pt := 2; target_x := tx; target_y := ty;
     committed := log |}.

(** The state once the five payload bytes are in positions 2 to 6. *)
Definition loaded (xh xl yh yl chk a7 a8 tx ty : Z) (log : list (Z * Z)) :=
  {| rx_data := chk; rx_order := [0xAA; 0xAA; xh; xl; yh; yl; chk; a7; a8];
     last_data := chk; pt := 7; target_x := tx; target_y := ty;
     committed := log |}.

(** The buffer has its nine bytes and the write index is inside it. *)
Definition rx_wf (s : rx_state) : Prop :=
  length (rx_order s) = 9%nat /\ 0 <= pt s < 9.

(** *** The blocking side of the UART

    The receiver is the queue of bytes the peer has sent and the firmware has
    not read yet; the transmitter is the log of bytes written, oldest first.
    [DL_UART_isBusy] polling and [mspm0_delay_ms] only pass time and are left
    out. *)
Record uart : Type := mk_uart {
  rx_queue : list Z;
  tx_log : list Z
}.

Definition DL_UART_Main_transmitData (b : Z) (u : uart) : uart :=
  {| rx_queue := rx_queue u; tx_log := tx_log u ++ [b] |}.

(** How a blocking routine ends: it returns, it waits for a byte that the
    queue does not hold, it writes past the end of a local array (undefined
    behaviour), or the model ran out of loop fuel. *)
Inductive outcome (A : Type) : Type :=
| Done (a : A) (u : uart)
| Blocked (u : uart)
| Overrun (u : uart)
| OutOfFuel.
Arguments Done {A} a u.
Arguments Blocked {A} u.
Arguments Overrun {A} u.
Arguments OutOfFuel {A}.

(** The loop of [K230_Init]: [data] and [time] are its two [uint8_t] locals,
    [rx] the receive queue.  [Some (r, rx')] is a return of [r] with [rx']
    left unread; [None] is a wait on the empty queue. *)
Fixpoint K230_Init_wait (rx : list Z) (data time : Z) : option (Z * list Z) :=
  if negb (data =? 0x1B) then
    if TIME_OUT <=? time then Some (0, rx)         (* time++ >= TIME_OUT *)
    else
      match rx with
      | [] => None
      | b :: rx' => K230_Init_wait rx' b ((time + 1) mod 256)
      end
  else Some (1, rx).

Definition K230_Init (u : uart) : outcome Z :=
  let u := DL_UART_Main_transmitData SELF_CHECK_CMD u in
  match K230_Init_wait (rx_queue u) 0 0 with
  | Some (r, rx') => Done r {| rx_queue := rx'; tx_log := tx_log u |}
  | None => Blocked {| rx_queue := []; tx_log := tx_log u |}
  end.

(** A received byte other than the acknowledgment. *)
Definition not_ack (b : Z) : Prop := b <> 0x1B.

(** The inner loop of [K230_cmd], entered with the first byte of the segment
    in [temp].  [i] is a [uint8_t]; a store at [data[i]] with [i >= 128] is
    outside the 128-byte array. *)
Inductive segment : Type :=
| SegDone (data rx : list Z)
| SegBlocked
| SegOverrun.

Fixpoint K230_cmd_read (rx : list Z) (temp last_temp last_last_temp i : Z)
    (data : list Z) : segment :=
  if negb ((temp =? END3) && (last_temp =? END2) && (last_last_temp =? END1))
  then
    if 128 <=? i then SegOverrun
    else
      match rx with
      | [] => SegBlocked
      | b :: rx' =>
          K230_cmd_read rx' b temp last_temp ((i + 1) mod 256)
                        (<[Z.to_nat i := temp]> data)
      end
  else SegDone data rx.

(** What a handler [uint8_t func(uint8_t *data)] may do: read and change the
    buffer, use the UART, change globals of its own (the environment [H]),
    and return its continuation flag. *)
Record handled (H : Type) : Type := mk_handled {
  flag : Z;
  buffer : list Z;
  io : uart;
  env : H
}.
Arguments flag {H} _.
Arguments buffer {H} _.
Arguments io {H} _.
Arguments env {H} _.

Definition handler (H : Type) : Type := list Z -> uart -> H -> handled H.

(** The outer loop of [K230_cmd]; [fuel] bounds the number of segments. *)
Fixpoint K230_cmd_loop {H : Type} (fuel : nat) (func : handler H)
    (data : list Z) (u : uart) (h : H) : outcome H :=
  match fuel with
  | O => OutOfFuel
  | S fuel' =>
      match rx_queue u with
      | [] => Blocked u
      | _ :: rx1 =>                                  (* the discarded byte *)
          match rx1 with
          | [] => Blocked {| rx_queue := []; tx_log := tx_log u |}
          | temp :: rx2 =>
              match K230_cmd_read rx2 temp 0 0 0 data with
              | SegBlocked => Blocked {| rx_queue := []; tx_log := tx_log u |}
              | SegOverrun => Overrun u
              | SegDone data' rx3 =>
                  let r := func data' {| rx_queue := rx3; tx_log := tx_log u |} h in
                  if negb (flag r =? 0)
                  then K230_cmd_loop fuel' func (buffer r) (io r) (env r)
                  else Done (env r) (io r)
              end
          end
      end
  end.

(** The statements of [K230_cmd] after its loop, reached when the loop
    ends. *)
Definition K230_cmd_stop {H : Type} (o : outcome H) : outcome H :=
  match o with
  | Done h u => Done h (DL_UART_Main_transmitData STOP_CMD u)
  | Blocked u => Blocked u
  | Overrun u => Overrun u
  | OutOfFuel => OutOfFuel
  end.

(** [K230_cmd]; [data] is the indeterminate initial content of the local
    array [uint8_t data[128]]. *)
Definition K230_cmd {H : Type} (fuel : nat) (cmd : Z) (func : handler H)
    (data : list Z) (u : uart) (h : H) : outcome H :=
  K230_cmd_stop
    (K230_cmd_loop fuel func data (DL_UART_Main_transmitData cmd u) h).

(** *** Vocabulary for response segments *)

(** The sliding window [last_last_temp], [last_temp], [temp] holds the
    terminator. *)
Definition is_end (ll l t : Z) : bool :=
  (t =? END3) && (l =? END2) && (ll =? END1).

(** No byte of [w], read with [ll] and [l] before it, completes the
    terminator. *)
Fixpoint no_end (ll l : Z) (w : list Z) : bool :=
  match w with
  | [] => true
  | t :: w' => negb (is_end ll l t) && no_end l t w'
  end.

(** The window after the bytes of [w] have passed through it. *)
Fixpoint window (ll l : Z) (w : list Z) : Z * Z :=
  match w with
  | [] => (ll, l)
  | t :: w' => window l t w'
  end.

(** The stores [data[i++] = b] for the bytes of [w] in turn. *)
Fixpoint fill (i : nat) (w : list Z) (data : list Z) : list Z :=
  match w with
  | [] => data
  | b :: w' => fill (S i) w' (<[i := b]> data)
  end.

(** A response segment on the wire: the byte [K230_cmd] discards, the
    payload and the terminator. *)
Definition wire_segment (seg : Z * list Z) : list Z :=
  fst seg :: snd seg ++ [END1; END2; END3].

(** The buffer once a segment with this payload has been stored from index
    0: the payload, the first two terminator bytes, and what [data] held
    beyond them. *)
Definition stored (payload data : list Z) : list Z :=
  payload ++ [END1; END2] ++ drop (length payload + 2) data.

(** The payload brings no terminator of its own and fits the buffer. *)
Definition segment_ok (seg : Z * list Z) : Prop :=
  no_end 0 0 (snd seg ++ [END1; END2]) = true
  /\ (length (snd seg) + 2 <= 128)%nat.

(** A handler that leaves the receive queue and the size of the buffer
    alone. *)
Definition polite {H : Type} (func : handler H) : Prop :=
  forall data u h,
    rx_queue (io (func data u h)) = rx_queue u
    /\ length (buffer (func data u h)) = length data.

(** The exchange seen segment by segment: the handler is called on each
    stored segment in turn until it returns 0; [None] when the segments run
    out before that. *)
Fixpoint serve {H : Type} (func : handler H) (segs : list (Z * list Z))
    (rest data log : list Z) (h : H) : option (handled H) :=
  match segs with
  | [] => None
  | seg :: segs' =>
      let r := func (stored (snd seg) data)
                    {| rx_queue := concat (map wire_segment segs') ++ rest;
                       tx_log := log |} h in
      if flag r =? 0 then Some r
      else serve func segs' rest (buffer r) (tx_log (io r)) (env r)
  end.

(** A sample handler: it asks for as many further segments as its
    environment counts, and touches neither the buffer nor the UART. *)
Definition countdown : handler nat :=
  fun data u n =>
    {| flag := Z.of_nat n mod 256; buffer := data; io := u; env := pred n |}.


(** *** Sending text *)

(** The code of a character constant and those of a string literal. *)
Definition char (c : ascii) : Z := Z.of_N (N_of_ascii c).
Definition chars (s : string) : list Z := map char (list_ascii_of_string s).

(** A run of calls of [DL_UART_Main_transmitData], one for each byte. *)
Definition transmit (bytes : list Z) (u : uart) : uart :=
  fold_left (fun u b => DL_UART_Main_transmitData b u) bytes u.

(** [UART_0_Send_Char]: the blocking transmit, which waits for room in the
    transmitter and then queues the byte. *)
Definition UART_0_Send_Char (data : Z) (u : uart) : uart :=
  DL_UART_Main_transmitData data u.

(** [UART_0_Send_String]; [data] is the array from the pointer on.  The
    loop reads [*data] before it tests the pointer against zero; a read past
    the end of the array is [Overrun]. *)
Fixpoint UART_0_Send_String (data : list Z) (u : uart) : outcome unit :=
  match data with
  | [] => Overrun u
  | c :: data' =>
      if negb (c =? 0) then UART_0_Send_String data' (UART_0_Send_Char c u)
      else Done tt u
  end.

(** *** The field parsers

    [data] is the array behind the first pointer, [index] the [uint8_t]
    behind the second.  The subscript [*index + k] is an [int] and does not
    wrap; a read outside the array is [None].  The update of [*index] wraps
    at 256. *)
Definition K230_parse_byte (data : list Z) (index : Z) : option (Z * Z) :=
  val ← data !! Z.to_nat index;
  Some (val, (index + 1) mod 256).

(** The four bytes from [index] on, assembled low byte first. *)
Definition word32 (data : list Z) (index : Z) : option Z :=
  b0 ← data !! Z.to_nat index;
  b1 ← data !! Z.to_nat (index + 1);
  b2 ← data !! Z.to_nat (index + 2);
  b3 ← data !! Z.to_nat (index + 3);
  Some (Z.lor (Z.lor (Z.lor b0 (Z.shiftl b1 8)) (Z.shiftl b2 16))
              (Z.shiftl b3 24)).

(** A 32-bit pattern as [int32_t], in two's complement.  In
    [K230_parse_int] the shift by 24 of a byte above 0x7F leaves the range of
    [int32_t]; the pattern kept is what the compilers for the target
    produce. *)
Definition int32 (w : Z) : Z := if w <? 2 ^ 31 then w else w - 2 ^ 32.

Definition K230_parse_int (data : list Z) (index : Z) : option (Z * Z) :=
  w ← word32 data index;
  Some (int32 w, (index + 4) mod 256).

(** A 32-bit pattern read as a [float] through the union: the sign, eight
    exponent bits, 23 fraction bits. *)
Definition float_of_bits (w : Z) : spec_float :=
  let sign := Z.testbit w 31 in
  let e := Z.land (Z.shiftr w 23) 255 in
  let m := Z.land w 8388607 in
  if e =? 0 then
    match m with
    | Zpos p => S754_finite sign p (-149)
    | _ => S754_zero sign
    end
  else if e =? 255 then
    if m =? 0 then S754_infinity sign else S754_nan
  else
    match m + 8388608 with
    | Zpos p => S754_finite sign p (e - 150)
    | _ => S754_nan
    end.

Definition K230_parse_float (data : list Z) (index : Z)
    : option (spec_float * Z) :=
  w ← word32 data index;
  Some (float_of_bits w, (index + 4) mod 256).

(** How the scan for a terminating zero ends: it finds one, it reads
    outside the array, or it goes on for ever (the model's fuel runs out). *)
Inductive scan (A : Type) : Type :=
| Found (a : A)
| Outside
| Spinning.
Arguments Found {A} a.
Arguments Outside {A}.
Arguments Spinning {A}.

(** The loop of [K230_parse_string]; [length] is a [uint8_t] and wraps at
    256. *)
Fixpoint K230_parse_string_scan (fuel : nat) (data : list Z)
    (index length : Z) : scan Z :=
  match fuel with
  | O => Spinning
  | S fuel' =>
      match data !! Z.to_nat (index + length) with
      | None => Outside
      | Some c =>
          if negb (c =? 0)
          then K230_parse_string_scan fuel' data index ((length + 1) mod 256)
          else Found length
      end
  end.

(** [K230_parse_string]: the pointer [data + *index] it returns is given as
    the characters it points to, up to the zero the scan found. *)
Definition K230_parse_string (fuel : nat) (data : list Z) (index : Z)
    : scan (list Z * Z) :=
  match K230_parse_string_scan fuel data index 0 with
  | Found length =>
      Found (take (Z.to_nat length) (drop (Z.to_nat index) data),
             (index + (length + 1)) mod 256)
  | Outside => Outside
  | Spinning => Spinning
  end.

(** *** The sample handlers *)

(** [nod]: one blocking read; an ['E'] is answered with an ['A']. *)
Definition nod (data : list Z) (u : uart) : outcome Z :=
  match rx_queue u with
  | [] => Blocked u
  | b :: rx =>
      let u := {| rx_queue := rx; tx_log := tx_log u |} in
      Done 0 (if b =? char "E" then DL_UART_Main_transmitData (char "A") u
              else u)
  end.

(** The loop [for (i = 0; i < 10; i++) received_data[i] = KMB (data, ptr)],
    for [n] turns from [ptr] on. *)
Fixpoint receive (n : nat) (data : list Z) (ptr : Z) : option (list Z) :=
  match n with
  | O => Some []
  | S n' =>
      r ← K230_parse_byte data ptr;
      rest ← receive n' data (snd r);
      Some (fst r :: rest)
  end.

(** The three branches that send an angle in decimal. *)
Definition send_decimal (angle : Z) (u : uart) : uart :=
  if 100 <=? angle then
    let u := DL_UART_Main_transmitData ((char "0" + angle / 100) mod 256) u in
    let u := DL_UART_Main_transmitData
               ((char "0" + (angle mod 100) / 10) mod 256) u in
    DL_UART_Main_transmitData ((char "0" + angle mod 10) mod 256) u
  else if 10 <=? angle then
    let u := DL_UART_Main_transmitData ((char "0" + angle / 10) mod 256) u in
    DL_UART_Main_transmitData ((char "0" + angle mod 10) mod 256) u
  else
    DL_UART_Main_transmitData ((char "0" + angle) mod 256) u.

(** [K230_GetServoParams].  [Overrun] is a read outside [data], which the
    function does not guard against. *)
Definition K230_GetServoParams (data : list Z) (u : uart) : outcome Z :=
  match receive 10 data 0 with
  | None => Overrun u
  | Some received_data =>
      let u := DL_UART_Main_transmitData (char "A") u in
      if negb (byte_at received_data 0 =? 0xFF)
         || negb (byte_at received_data 1 =? 0xFE)
      then Done 0 (transmit (chars "Error: Invalid Header" ++ [10]) u)
      else
        let u := DL_UART_Main_transmitData (char "B") u in
        let checksum :=
          fold_left (fun c i => Z.lxor c (byte_at received_data i))
                    (seq 3 6) (byte_at received_data 2) in
        let u := DL_UART_Main_transmitData (char "C") u in
        if negb (checksum =? byte_at received_data 9)
        then Done 0 (transmit (chars "Error: Checksum Error" ++ [10]) u)
        else
          let u := DL_UART_Main_transmitData (char "D") u in
          let base_servo_angle := byte_at received_data 2 in
          let arm_servo_angle := byte_at received_data 3 in
          if (base_servo_angle >? 171) || (arm_servo_angle >? 171)
          then Done 0 (transmit (chars "Error: Angle Out of Range" ++ [10]) u)
          else
            let u := DL_UART_Main_transmitData (char "E") u in
            let u := transmit (chars "Base: ") u in
            let u := DL_UART_Main_transmitData (char "F") u in
            let u := send_decimal base_servo_angle u in
            let u := transmit (chars " deg" ++ [10]) u in
            let u := transmit (chars "Arm: ") u in
            let u := send_decimal arm_servo_angle u in
            let u := transmit (chars " deg" ++ [10]) u in
            Done 0 u
  end.

(** *** Vocabulary for the parsers and handlers *)

(** The four bytes of a 32-bit pattern, low byte first. *)
Definition le32 (w : Z) : list Z :=
  [w mod 256; (w / 256) mod 256; (w / 65536) mod 256; (w / 16777216) mod 256].

(** The pattern of an [int32_t] and that of a [float]; every NaN is given
    the pattern 0x7FC00000. *)
Definition bits_of_int (z : Z) : Z := z mod 2 ^ 32.

Definition bits_of_float (x : spec_float) : Z :=
  match x with
  | S754_zero s => if s then 2 ^ 31 else 0
  | S754_infinity s => (if s then 2 ^ 31 else 0) + 255 * 2 ^ 23
  | S754_nan => 0x7FC00000
  | S754_finite s m e =>
      (if s then 2 ^ 31 else 0)
      + (if Zpos m <? 2 ^ 23 then Zpos m
         else (e + 150) * 2 ^ 23 + (Zpos m - 2 ^ 23))
  end.

(** A handler, which the model takes to return always, does what the
    function [f] does wherever [f] returns, and leaves the buffer alone. *)
Definition implements {H : Type} (func : handler H)
    (f : list Z -> uart -> outcome Z) : Prop :=
  forall data u h r u',
    f data u = Done r u' ->
    func data u h = {| flag := r; buffer := data; io := u'; env := h |}.

(** One such handler: where [f] does not return it does nothing. *)
Definition returning {H : Type} (f : list Z -> uart -> outcome Z)
    : handler H :=
  fun data u h =>
    match f data u with
    | Done r u' => {| flag := r; buffer := data; io := u'; env := h |}
    | _ => {| flag := 0; buffer := data; io := u; env := h |}
    end.

(** The exclusive-or of the seven bytes the checksum of a servo frame
    covers, and the decimal value of a run of digit characters. *)
Definition bcc (frame : list Z) : Z :=
  fold_left Z.lxor (take 7 (drop 2 frame)) 0.

Definition decimal_value (digits : list Z) : Z :=
  fold_left (fun v d => 10 * v + (d - char "0")) digits 0.

End K230_UART.

(** ** binary32 arithmetic *)

Module Float32.

Definition prec : Z := 24.
Definition emax : Z := 128.

Definition float : Type := spec_float.

Definition add : float -> float -> float := SFadd prec emax.
Definition sub : float -> float -> float := SFsub prec emax.
Definition mul : float -> float -> float := SFmul prec emax.
Definition div : float -> float -> float := SFdiv prec emax.
Definition ltb : float -> float -> bool := SFltb.
Definition leb : float -> float -> bool := SFleb.

(** The value [m * 2^e], rounded if it needs more than 24 bits. *)
Definition make (m e : Z) : float := binary_normalize prec emax m e false.

(** Conversion of an integer constant or variable to [float]. *)
Definition of_Z (z : Z) : float := make z 0.

Definition nan : float := S754_nan.
Definition infinity : float := S754_infinity false.
Definition zero : float := S754_zero false.

Definition is_nan (x : float) : bool :=
  match x with S754_nan => true | _ => false end.

Definition is_finite (x : float) : bool :=
  match x with S754_zero _ | S754_finite _ _ _ => true | _ => false end.

(** A value of the format: a finite one has its canonical mantissa and
    exponent. *)
Definition valid (x : float) : bool := valid_binary prec emax x.

(** [lo <= x <= hi]; false as soon as one of the three is a NaN. *)
Definition within (lo hi x : float) : bool := leb lo x && leb x hi.

(** The integral part, for a number. *)
Definition trunc (x : float) : option Z :=
  match x with
  | S754_zero _ => Some 0
  | S754_finite s m e => Some (cond_Zopp s (Z.shiftl (Zpos m) e))
  | _ => None
  end.

(** The conversion [(uint16_t)x].  C defines it when the integral part of
    [x] fits the type; otherwise the behaviour is undefined and the result is
    whatever the run-time conversion helper of the target leaves in the
    register, here [wild x], cut to sixteen bits. *)
Definition to_uint16 (wild : float -> Z) (x : float) : Z :=
  match trunc x with
  | Some z => if (0 <=? z) && (z <? 65536) then z else wild x mod 65536
  | None => wild x mod 65536
  end.


Definition c72 : float := S754_finite false 9437184 (-17).

(** The largest finite binary32 number. *)
Definition FLT_MAX : float := Eval vm_compute in SFmax_float prec emax.

(** *** Vocabulary for rounding

    The smallest exponent of the format and the exponent a value with a
    given number of leading digits gets. *)
Definition emin : Z := SpecFloat.emin prec emax.
Definition fexp (e : Z) : Z := SpecFloat.fexp prec emax e.

(** The last step of [binary_round_aux], once the mantissa is rounded: the
    zero, the overflow to infinity, or the finite number. *)
Definition finish (s : bool) (m e : Z) : spec_float :=
  match m with
  | Z0 => S754_zero s
  | Zpos p => if e <=? emax - prec then S754_finite s p e else S754_infinity s
  | Zneg _ => S754_nan
  end.

(** Powers of two and the value of a mantissa with an exponent, as real
    numbers. *)
Definition pow2 (e : Z) : R := powerRZ 2 e.
Definition val (m : Z) (e : Z) : R := (IZR m * pow2 e)%R.

(** A mantissa with its two remainder bits locates the real number [v] at
    exponent [e]: [v] lies less than one unit above the mantissa, and the
    bits are clear exactly when [v] is the mantissa's value. *)
Definition located (v : R) (mrs : shr_record) (e : Z) : Prop :=
  (val (shr_m mrs) e <= v < val (shr_m mrs + 1) e)%R
  /\ (loc_of_shr_record mrs = loc_Exact <-> v = val (shr_m mrs) e).

(** The mantissas and exponents rounding produces: 24 bits at an exponent
    of the format, or fewer at the smallest exponent. *)
Definition grid (q e : Z) : Prop :=
  (2 ^ 23 <= q < 2 ^ 24 /\ -149 <= e) \/ (0 <= q < 2 ^ 23 /\ e = -149).

(** A non-negative real number the format holds. *)
Definition rep (x : R) : Prop :=
  exists M E, (0 <= M < 2 ^ 24 /\ -149 <= E <= 104) /\ x = val M E.

(** [x] is +0 or a positive finite number, of a value between [a] and
    [b]. *)
Definition between (a b : R) (x : float) : Prop :=
  exists m e, x = finish false m e /\ 0 <= m /\ e <= 104
              /\ (a <= val m e <= b)%R.


(** The real number a finite [float] stands for; 0 for the others. *)
Definition real (x : float) : R :=
  match x with
  | S754_finite s m e => if s then (- val (Zpos m) e)%R else val (Zpos m) e
  | _ => 0%R
  end.

Declare Scope f32_scope.
Delimit Scope f32_scope with f32.
Bind Scope f32_scope with float.
Infix "+" := add : f32_scope.
Infix "-" := sub : f32_scope.
Infix "*" := mul : f32_scope.
Infix "/" := div : f32_scope.
Infix "<?" := ltb : f32_scope.
Notation "x >? y" := (ltb y x) : f32_scope.

End Float32.

(** ** servo.c *)

Module Servo.
Import Float32.

(** servo.h *)
Definition SERVO1_MIN_ANGLE : float := Eval vm_compute in of_Z 9.
Definition SERVO1_MAX_ANGLE : float := Eval vm_compute in of_Z 171.
Definition SERVO2_MIN_ANGLE : float := Eval vm_compute in make 27 (-1).    (* 13.5f *)
Definition SERVO2_MAX_ANGLE : float := Eval vm_compute in make 513 (-1).   (* 256.5f *)
Definition SERVO_PWM_MIN : Z := 24.
Definition SERVO_PWM_MAX : Z := 96.
Definition SERVO_X_MIN_ANGLE : float :=
  Eval vm_compute in div (of_Z (-504)) (of_Z 10).                           (* -50.4f *)
Definition SERVO_X_MAX_ANGLE : float :=
  Eval vm_compute in div (of_Z 504) (of_Z 10).                              (* 50.4f *)
Definition SERVO_Y_MIN_ANGLE : float := Eval vm_compute in make (-33) (-1). (* -16.5f *)
Definition SERVO_Y_MAX_ANGLE : float := Eval vm_compute in make 33 (-1).    (* 16.5f *)
Definition SCREEN_CENTER_X : Z := 320.
Definition SCREEN_CENTER_Y : Z := 240.

(** The constant [0.5f]. *)
Definition half : float := Eval vm_compute in make 1 (-1).

Record PID_Controller : Type := mk_PID {
  Kp : float;
  Ki : float;
  Kd : float;
  error : float;
  error_last : float;
  integral : float;
  output : float;
  output_max : float;
  output_min : float
}.

Definition set_error (pid : PID_Controller) (v : float) : PID_Controller :=
  {| Kp := Kp pid; Ki := Ki pid; Kd := Kd pid; error := v;
     error_last := error_last pid; integral := integral pid;
     output := output pid; output_max := output_max pid;
     output_min := output_min pid |}.

Definition set_error_last (pid : PID_Controller) (v : float) : PID_Controller :=
  {| Kp := Kp pid; Ki := Ki pid; Kd := Kd pid; error := error pid;
     error_last := v; integral := integral pid;
     output := output pid; output_max := output_max pid;
     output_min := output_min pid |}.

Definition set_integral (pid : PID_Controller) (v : float) : PID_Controller :=
  {| Kp := Kp pid; Ki := Ki pid; Kd := Kd pid; error := error pid;
     error_last := error_last pid; integral := v;
     output := output pid; output_max := output_max pid;
     output_min := output_min pid |}.

Definition set_output (pid : PID_Controller) (v : float) : PID_Controller :=
  {| Kp := Kp pid; Ki := Ki pid; Kd := Kd pid; error := error pid;
     error_last := error_last pid; integral := integral pid;
     output := v; output_max := output_max pid;
     output_min := output_min pid |}.

(** The globals of servo.c and the two compare registers of timer TIMA1 that
    drive the servos.  [timer_writes] logs the calls of
    [DL_Timer_setCaptureCompareValue], oldest first, as (channel, value). *)
Record servo_state : Type := mk_servo_state {
  Servo_Target1 : Z;        (* uint16_t *)
  Servo_Target2 : Z;        (* uint16_t *)
  TIMA1_CC_0 : Z;
  TIMA1_CC_1 : Z;
  timer_writes : list (Z * Z)
}.

Definition set_Servo_Target1 (s : servo_state) (v : Z) : servo_state :=
  {| Servo_Target1 := v; Servo_Target2 := Servo_Target2 s;
     TIMA1_CC_0 := TIMA1_CC_0 s; TIMA1_CC_1 := TIMA1_CC_1 s;
     timer_writes := timer_writes s |}.

Definition set_Servo_Target2 (s : servo_state) (v : Z) : servo_state :=
  {| Servo_Target1 := Servo_Target1 s; Servo_Target2 := v;
     TIMA1_CC_0 := TIMA1_CC_0 s; TIMA1_CC_1 := TIMA1_CC_1 s;
     timer_writes := timer_writes s |}.

(** [DL_Timer_setCaptureCompareValue (TIMA1, value, index)] for the two
    channels in use. *)
Definition DL_Timer_setCaptureCompareValue (value index : Z) (s : servo_state)
    : servo_state :=
  {| Servo_Target1 := Servo_Target1 s; Servo_Target2 := Servo_Target2 s;
     TIMA1_CC_0 := if index =? 0 then value else TIMA1_CC_0 s;
     TIMA1_CC_1 := if index =? 1 then value else TIMA1_CC_1 s;
     timer_writes := timer_writes s ++ [(index, value)] |}.

(** Reset: both targets zero, nothing written to the timer yet. *)
Definition servo_reset : servo_state :=
  {| Servo_Target1 := 0; Servo_Target2 := 0; TIMA1_CC_0 := 0; TIMA1_CC_1 := 0;
     timer_writes := [] |}.

Definition Servo_Init (s : servo_state) : servo_state :=
  DL_Timer_setCaptureCompareValue 60 1
    (DL_Timer_setCaptureCompareValue 60 0 s).

Local Open Scope f32_scope.

Definition Clamp_Angle (angle min_angle max_angle : float) : float :=
  if angle <? min_angle then min_angle
  else if angle >? max_angle then max_angle
  else angle.

(** The [float pwm] of [Angle_To_PWM], its argument already clamped. *)
Definition pwm_of_angle (angle min_angle max_angle : float) : float :=
  of_Z SERVO_PWM_MIN
  + (angle - min_angle) * of_Z (SERVO_PWM_MAX - SERVO_PWM_MIN)%Z
    / (max_angle - min_angle).

Section Conversion.
(** What the target's float-to-unsigned helper returns where C leaves the
    conversion undefined. *)
Variable wild : float -> Z.

Definition Angle_To_PWM (angle min_angle max_angle : float) : Z :=
  let angle := Clamp_Angle angle min_angle max_angle in
  let pwm := pwm_of_angle angle min_angle max_angle in
  to_uint16 wild (pwm + half).

Definition Servo_Limitation (s : servo_state) : servo_state :=
  let Amplitude_H := 96%Z in
  let Amplitude_L := 24%Z in
  let s := if (Servo_Target1 s <? Amplitude_L)%Z
           then set_Servo_Target1 s Amplitude_L else s in
  let s := if (Servo_Target1 s >? Amplitude_H)%Z
           then set_Servo_Target1 s Amplitude_H else s in
  let s := if (Servo_Target2 s <? Amplitude_L)%Z
           then set_Servo_Target2 s Amplitude_L else s in
  let s := if (Servo_Target2 s >? Amplitude_H)%Z
           then set_Servo_Target2 s Amplitude_H else s in
  s.

(** The body of [Set_Servo_Angle] before its closing call of
    [Servo_Limitation]. *)
Definition Set_Servo_Angle_write (servo_num : Z) (angle : float)
    (s : servo_state) : servo_state :=
  if (servo_num =? 1)%Z then
    let PWM_value := Angle_To_PWM angle SERVO1_MIN_ANGLE SERVO1_MAX_ANGLE in
    let s := set_Servo_Target1 s PWM_value in
    DL_Timer_setCaptureCompareValue PWM_value 0 s
  else if (servo_num =? 2)%Z then
    let PWM_value := Angle_To_PWM angle SERVO2_MIN_ANGLE SERVO2_MAX_ANGLE in
    let s := set_Servo_Target2 s PWM_value in
    DL_Timer_setCaptureCompareValue PWM_value 1 s
  else s.

Definition Set_Servo_Angle (servo_num : Z) (angle : float) (s : servo_state)
    : servo_state :=
  Servo_Limitation (Set_Servo_Angle_write servo_num angle s).

End Conversion.

Definition PID_Init (kp ki kd min max : float) : PID_Controller :=
  {| Kp := kp; Ki := ki; Kd := kd; error := zero; error_last := zero;
     integral := zero; output := zero; output_max := max; output_min := min |}.

Definition PID_Calculate (pid : PID_Controller) (target current : float)
    : PID_Controller * float :=
  let pid := set_error pid (target - current) in
  let pid := set_integral pid (integral pid + error pid) in
  let pid := if integral pid >? output_max pid
             then set_integral pid (output_max pid) else pid in
  let pid := if integral pid <? output_min pid
             then set_integral pid (output_min pid) else pid in
  let derivative := error pid - error_last pid in
  let pid := set_output pid (Kp pid * error pid + Ki pid * integral pid
                             + Kd pid * derivative) in
  let pid := if output pid >? output_max pid
             then set_output pid (output_max pid) else pid in
  let pid := if output pid <? output_min pid
             then set_output pid (output_min pid) else pid in
  let pid := set_error_last pid (error pid) in
  (pid, output pid).

(** [n] control ticks with the same target and measurement. *)
Fixpoint PID_ticks (n : nat) (pid : PID_Controller) (target current : float)
    : PID_Controller :=
  match n with
  | O => pid
  | S n' => PID_ticks n' (fst (PID_Calculate pid target current)) target current
  end.

(** *** The controller in the spec's words

    [clamp x lo hi] is [max (lo, min (x, hi))], each bound applied by one
    comparison. *)
Definition clamp (x lo hi : float) : float :=
  let y := if x >? hi then hi else x in
  if y <? lo then lo else y.

Definition PID_step (pid : PID_Controller) (target current : float)
    : PID_Controller * float :=
  let e := target - current in
  let i' := clamp (integral pid + e) (output_min pid) (output_max pid) in
  let derivative := e - error_last pid in
  let out := clamp (Kp pid * e + Ki pid * i' + Kd pid * derivative)
                   (output_min pid) (output_max pid) in
  ({| Kp := Kp pid; Ki := Ki pid; Kd := Kd pid; error := e; error_last := e;
      integral := i'; output := out; output_max := output_max pid;
      output_min := output_min pid |}, out).

(** Gains as in [main_simple.c], bounds of ten either way, and one tick with
    the target at the screen centre and the measurement at 200. *)
Definition tuned : PID_Controller :=
  PID_Init (div (of_Z 1) (of_Z 10)) (div (of_Z 1) (of_Z 100))
           (div (of_Z 5) (of_Z 100)) (of_Z (-10)) (of_Z 10).

(** A state one tick has reached and that the next tick, with error 1,
    reproduces: the integral is 2^24 and 2^24 + 1 rounds back to 2^24. *)
Definition stalled : PID_Controller :=
  Eval vm_compute in
    fst (PID_Calculate
           {| Kp := div (of_Z 1) (of_Z 10); Ki := div (of_Z 1) (of_Z 100);
              Kd := div (of_Z 5) (of_Z 100); error := of_Z 1;
              error_last := of_Z 1; integral := of_Z 16777216;
              output := zero; output_max := of_Z 33554432;
              output_min := of_Z (-33554432) |}
           (of_Z 1) (of_Z 0)).

(** A duty the servos tolerate. *)
Definition duty_safe (v : Z) : Prop := (24 <= v <= 96)%Z.

(** The two comparisons [Servo_Limitation] applies to one target. *)
Definition limited (v : Z) : Z :=
  let v := if (v <? 24)%Z then 24%Z else v in
  if (v >? 96)%Z then 96%Z else v.

(** The conversion helper of libgcc for the ARM EABI, [__aeabi_f2uiz], at a
    NaN: it returns 0. *)
Definition f2uiz_nan_zero : float -> Z := fun _ => 0.

(** *** Tracking *)

(** [Map_Coordinate_To_Angle]: the affine map, then the two comparisons. *)
Definition Map_Coordinate_To_Angle
    (coordinate min_coord max_coord min_angle max_angle : float) : float :=
  let angle := min_angle
               + (coordinate - min_coord) * (max_angle - min_angle)
                 / (max_coord - min_coord) in
  let angle := if angle <? min_angle then min_angle else angle in
  let angle := if angle >? max_angle then max_angle else angle in
  angle.

(** The globals [Update_Servo_Position] works on: the two controllers and
    the state of the servo outputs. *)
Record tracker : Type := mk_tracker {
  pid_x : PID_Controller;
  pid_y : PID_Controller;
  servos : servo_state
}.

Definition Update_Servo_Position (wild : float -> Z) (target_x target_y : float)
    (t : tracker) : tracker :=
  let current_angle_x :=
    Map_Coordinate_To_Angle target_x (of_Z 0) (of_Z 640)
                            SERVO_X_MIN_ANGLE SERVO_X_MAX_ANGLE in
  let rx := PID_Calculate (pid_x t) (of_Z SCREEN_CENTER_X) target_x in
  let pid_output_x := snd rx in
  let new_angle_x := current_angle_x + pid_output_x in
  let current_angle_y :=
    Map_Coordinate_To_Angle target_y (of_Z 0) (of_Z 480)
                            SERVO_Y_MIN_ANGLE SERVO_Y_MAX_ANGLE in
  let ry := PID_Calculate (pid_y t) (of_Z SCREEN_CENTER_Y) target_y in
  let pid_output_y := snd ry in
  let new_angle_y := current_angle_y + pid_output_y in
  let s := Set_Servo_Angle wild 1 new_angle_x (servos t) in
  let s := Set_Servo_Angle wild 2 new_angle_y s in
  {| pid_x := fst rx; pid_y := fst ry; servos := s |}.

(** Control ticks on a series of target and measurement pairs. *)
Fixpoint PID_run (inputs : list (float * float)) (pid : PID_Controller)
    : PID_Controller :=
  match inputs with
  | [] => pid
  | (target, current) :: inputs' =>
      PID_run inputs' (fst (PID_Calculate pid target current))
  end.

(** Every field of a controller is a value of the format. *)
Definition PID_valid (pid : PID_Controller) : Prop :=
  valid (Kp pid) = true /\ valid (Ki pid) = true /\ valid (Kd pid) = true
  /\ valid (error pid) = true /\ valid (error_last pid) = true
  /\ valid (integral pid) = true /\ valid (output pid) = true
  /\ valid (output_max pid) = true /\ valid (output_min pid) = true.

(** A finite number whose exponent is at most [k]: for a number of the
    format, one of magnitude below 2^(k+24). *)
Definition small (k : Z) (x : float) : bool :=
  match x with
  | S754_zero _ => true
  | S754_finite _ _ e => (e <=? k)%Z
  | _ => false
  end.

(** What [Update_Servo_Position] relies on in a controller: fields of the
    format, ordered finite bounds, a finite integral and integral gain, and
    moderate proportional and derivative gains and last error. *)
Definition PID_sound (pid : PID_Controller) : Prop :=
  PID_valid pid
  /\ leb (output_min pid) (output_max pid) = true
  /\ is_finite (output_min pid) = true /\ is_finite (output_max pid) = true
  /\ is_finite (integral pid) = true /\ is_finite (Ki pid) = true
  /\ small 86 (Kp pid) = true /\ small 86 (Kd pid) = true
  /\ small (-7) (error_last pid) = true.

(** [Update_Servo_Position] on a series of coordinates. *)
Fixpoint Update_run (wild : float -> Z) (targets : list (float * float))
    (t : tracker) : tracker :=
  match targets with
  | [] => t
  | (target_x, target_y) :: targets' =>
      Update_run wild targets' (Update_Servo_Position wild target_x target_y t)
  end.

(** A coordinate [Update_Servo_Position] is made for: a number of the
    format of magnitude below 2^16, as every 16-bit pixel count is. *)
Definition pixel (x : float) : bool := valid x && small (-8) x.

End Servo.
(** * Properties *)

Import K230_UART.

(** ** The frame synchroniser *)

Module FrameSync.

(** *** The three branches of the interrupt handler *)

Section Branches.
Variable s : rx_state.

Lemma step_sync :
  last_data s = 0xAA ->
  UART_0_rx_DataFrame 0xAA s =
  {| rx_data := 0xAA;
     rx_order := <[1%nat := 0xAA]> (<[0%nat := 0xAA]> (rx_order s));
     last_data := 0xAA; pt := 2;
     target_x := target_x s; target_y := target_y s;
     committed := committed s |}.
Proof.
  intros Hl. unfold UART_0_rx_DataFrame; cbn [rx_data last_data].
  rewrite Hl. reflexivity.
Qed.

Lemma step_store (b : Z) :
  marker_pair (last_data s) b = false ->
  UART_0_rx_DataFrame b s =
  {| rx_data := b;
     rx_order := <[Z.to_nat (pt s) := b]> (rx_order s);
     last_data := b; pt := ((pt s + 1) mod 256) mod 9;
     target_x := target_x s; target_y := target_y s;
     committed := committed s |}.
Proof.
  unfold marker_pair, UART_0_rx_DataFrame; cbn [rx_data last_data].
  intros Hm.
  destruct (last_data s =? b); cbn in Hm |- *; [|reflexivity].
  apply orb_false_elim in Hm as [-> ->]. reflexivity.
Qed.

Lemma step_term_drop :
  last_data s = 0xFF ->
  byte_at (rx_order s) 2 + byte_at (rx_order s) 3
  + byte_at (rx_order s) 4 + byte_at (rx_order s) 5
  <> byte_at (rx_order s) 6 ->
  UART_0_rx_DataFrame 0xFF s =
  {| rx_data := 0xFF; rx_order := rx_order s; last_data := 0xFF;
     pt := pt s; target_x := target_x s; target_y := target_y s;
     committed := committed s |}.
Proof.
  intros Hl Hne. unfold UART_0_rx_DataFrame; cbn [rx_data last_data rx_order].
  rewrite Hl. apply Z.eqb_neq in Hne. cbn [Z.eqb Pos.eqb andb].
  rewrite Hne. reflexivity.
Qed.

Lemma step_term_commit :
  last_data s = 0xFF ->
  byte_at (rx_order s) 2 + byte_at (rx_order s) 3
  + byte_at (rx_order s) 4 + byte_at (rx_order s) 5
  = byte_at (rx_order s) 6 ->
  let x := Z.lor (Z.shiftl (byte_at (rx_order s) 2) 8)
                 (byte_at (rx_order s) 3) mod 65536 in
  let y := Z.lor (Z.shiftl (byte_at (rx_order s) 4) 8)
                 (byte_at (rx_order s) 5) mod 65536 in
  UART_0_rx_DataFrame 0xFF s =
  {| rx_data := 0xFF; rx_order := rx_order s; last_data := 0xFF;
     pt := pt s; target_x := x; target_y := y;
     committed := (x, y) :: committed s |}.
Proof.
  intros Hl He. unfold UART_0_rx_DataFrame; cbn [rx_data last_data rx_order].
  rewrite Hl. apply Z.eqb_eq in He. cbn [Z.eqb Pos.eqb andb].
  rewrite He. reflexivity.
Qed.
End Branches.


(** *** The write index stays inside the buffer *)

Lemma rx_init_wf : rx_wf rx_init.
Proof. split; [reflexivity | cbn; lia]. Qed.

Lemma step_wf (b : Z) (s : rx_state) :
  rx_wf s -> rx_wf (UART_0_rx_DataFrame b s).
Proof.
  intros [Hlen Hpt]. unfold rx_wf, UART_0_rx_DataFrame.
  cbn [rx_data last_data rx_order pt].
  repeat match goal with
         | |- context [if ?c then _ else _] => destruct c
         end;
    cbn [rx_order pt]; rewrite ?length_insert; split; try assumption; try lia.
  apply Z.mod_pos_bound; lia.
Qed.

Lemma stream_wf (bytes : list Z) :
  forall s, rx_wf s -> rx_wf (rx_stream s bytes).
Proof.
  induction bytes as [|b bytes IH]; intros s Hs; [exact Hs|].
  cbn. apply IH, step_wf, Hs.
Qed.

Lemma rx_stream_app (s : rx_state) (l1 l2 : list Z) :
  rx_stream s (l1 ++ l2) = rx_stream (rx_stream s l1) l2.
Proof. unfold rx_stream. apply fold_left_app. Qed.

Lemma rx_stream_cons (s : rx_state) (b : Z) (l : list Z) :
  rx_stream s (b :: l) = rx_stream (UART_0_rx_DataFrame b s) l.
Proof. reflexivity. Qed.

(** A well-formed buffer is nine named bytes. *)
Lemma nine_bytes (l : list Z) :
  length l = 9%nat ->
  exists a0 a1 a2 a3 a4 a5 a6 a7 a8, l = [a0; a1; a2; a3; a4; a5; a6; a7; a8].
Proof.
  intros H.
  do 9 (destruct l as [|? l]; [discriminate H|]).
  destruct l; [|discriminate H]. eauto 10.
Qed.

(** *** A frame, phase by phase *)

Lemma sync_phase (s : rx_state) :
  rx_wf s ->
  exists a2 a3 a4 a5 a6 a7 a8,
    rx_stream s [0xAA; 0xAA] =
    synced a2 a3 a4 a5 a6 a7 a8 (target_x s) (target_y s) (committed s).
Proof.
  intros Hs. cbn [rx_stream fold_left].
  assert (H1 : exists s1, UART_0_rx_DataFrame 0xAA s = s1 /\ rx_wf s1
            /\ last_data s1 = 0xAA /\ target_x s1 = target_x s
            /\ target_y s1 = target_y s /\ committed s1 = committed s).
  { eexists; split; [reflexivity|]. split; [apply step_wf, Hs|].
    destruct (Z.eq_dec (last_data s) 0xAA) as [He|Hne].
    - rewrite (step_sync s He). cbn. auto.
    - rewrite step_store; [cbn; auto|].
      unfold marker_pair. apply Z.eqb_neq in Hne. rewrite Hne. reflexivity. }
  destruct H1 as (s1 & -> & [Hlen _] & Hl & <- & <- & <-).
  rewrite (step_sync s1 Hl).
  destruct (nine_bytes _ Hlen) as (a0 & a1 & a2 & a3 & a4 & a5 & a6 & a7 & a8 & ->).
  exists a2, a3, a4, a5, a6, a7, a8. reflexivity.
Qed.

Lemma transparent_pairs (xh xl yh yl chk : Z) :
  transparent xh xl yh yl chk = true ->
  marker_pair 0xAA xh = false /\ marker_pair xh xl = false
  /\ marker_pair xl yh = false /\ marker_pair yh yl = false
  /\ marker_pair yl chk = false.
Proof.
  unfold transparent. rewrite !andb_true_iff, !negb_true_iff. tauto.
Qed.

Lemma payload_phase (xh xl yh yl chk a2 a3 a4 a5 a6 a7 a8 tx ty : Z) log :
  transparent xh xl yh yl chk = true ->
  rx_stream (synced a2 a3 a4 a5 a6 a7 a8 tx ty log) [xh; xl; yh; yl; chk] =
  loaded xh xl yh yl chk a7 a8 tx ty log.
Proof.
  intros (H1 & H2 & H3 & H4 & H5)%transparent_pairs.
  unfold synced.
  rewrite rx_stream_cons, step_store by exact H1. cbn -[rx_stream].
  rewrite rx_stream_cons, step_store by exact H2. cbn -[rx_stream].
  rewrite rx_stream_cons, step_store by exact H3. cbn -[rx_stream].
  rewrite rx_stream_cons, step_store by exact H4. cbn -[rx_stream].
  rewrite rx_stream_cons, step_store by exact H5. reflexivity.
Qed.

(** The terminator pair on a loaded buffer whose checksum test fails. *)
Lemma term_phase_drop (xh xl yh yl chk a7 a8 tx ty : Z) log :
  xh + xl + yh + yl <> chk ->
  let s := rx_stream (loaded xh xl yh yl chk a7 a8 tx ty log) [0xFF; 0xFF] in
  target_x s = tx /\ target_y s = ty /\ committed s = log.
Proof.
  intros Hne. unfold loaded.
  destruct (Z.eq_dec chk 0xFF) as [->|Hc].
  - rewrite rx_stream_cons, step_term_drop by (cbn; auto). cbn -[rx_stream].
    rewrite rx_stream_cons, step_term_drop by (cbn; auto). cbn. auto.
  - rewrite rx_stream_cons, step_store.
    + cbn -[rx_stream].
      rewrite rx_stream_cons, step_term_drop by (cbn; auto). cbn. auto.
    + unfold marker_pair; cbn. apply Z.eqb_neq in Hc. rewrite Hc. reflexivity.
Qed.

(** The terminator pair on a loaded buffer whose checksum test passes. *)
Lemma term_phase_commit (xh xl yh yl a7 a8 tx ty : Z) log :
  let chk := xh + xl + yh + yl in
  let x := Z.lor (Z.shiftl xh 8) xl mod 65536 in
  let y := Z.lor (Z.shiftl yh 8) yl mod 65536 in
  let s := rx_stream (loaded xh xl yh yl chk a7 a8 tx ty log) [0xFF; 0xFF] in
  target_x s = x /\ target_y s = y /\ hd_error (committed s) = Some (x, y).
Proof.
  intros chk x y. unfold loaded.
  destruct (Z.eq_dec chk 0xFF) as [Hc|Hc].
  - rewrite Hc.
    rewrite rx_stream_cons, step_term_commit by (cbn; auto). cbn -[rx_stream].
    rewrite rx_stream_cons, step_term_commit by (cbn; auto). cbn. auto.
  - rewrite rx_stream_cons, step_store.
    + cbn -[rx_stream].
      rewrite rx_stream_cons, step_term_commit by (cbn; auto). cbn. auto.
    + unfold marker_pair; cbn. apply Z.eqb_neq in Hc. rewrite Hc. reflexivity.
Qed.

(** Two bytes packed big-endian fit in sixteen bits. *)
Lemma pack16 (h l : Z) :
  is_byte h -> is_byte l ->
  Z.lor (Z.shiftl h 8) l mod 65536 = Z.lor (Z.shiftl h 8) l.
Proof.
  intros Hh Hl. apply Z.mod_small.
  assert (0 <= Z.shiftl h 8 < 2 ^ 16)
    by (rewrite Z.shiftl_mul_pow2 by lia; unfold is_byte in Hh; lia).
  split; [apply Z.lor_nonneg; unfold is_byte in Hl; lia|].
  change 65536 with (2 ^ 16).
  destruct (Z.eq_dec (Z.lor (Z.shiftl h 8) l) 0) as [->|Hz]; [lia|].
  apply Z.log2_lt_pow2; [unfold is_byte in Hl; pose proof (Z.lor_nonneg (Z.shiftl h 8) l); lia|].
  rewrite Z.log2_lor by (unfold is_byte in Hl; lia).
  apply Z.max_lub_lt.
  - destruct (Z.eq_dec (Z.shiftl h 8) 0) as [->|]; [cbn; lia|].
    apply Z.log2_lt_pow2; lia.
  - destruct (Z.eq_dec l 0) as [->|]; [cbn; lia|].
    apply Z.log2_lt_pow2; unfold is_byte in Hl; lia.
Qed.

(** Any frame, from any well-formed state: the buffer ends up loaded and the
    targets are those the terminator phase leaves. *)
Lemma frame_phases (s : rx_state) (xh xl yh yl chk : Z) :
  rx_wf s ->
  transparent xh xl yh yl chk = true ->
  exists a7 a8,
    rx_stream s (frame xh xl yh yl chk) =
    rx_stream (loaded xh xl yh yl chk a7 a8 (target_x s) (target_y s) (committed s))
              [0xFF; 0xFF].
Proof.
  intros Hs Ht.
  destruct (sync_phase s Hs) as (a2 & a3 & a4 & a5 & a6 & a7 & a8 & Hsync).
  exists a7, a8.
  change (frame xh xl yh yl chk)
    with ([0xAA; 0xAA] ++ [xh; xl; yh; yl; chk] ++ [0xFF; 0xFF]).
  rewrite !rx_stream_app, Hsync, payload_phase by exact Ht. reflexivity.
Qed.

(** C1 (amended).  For every byte stream that ends with the frame
    [AA AA xh xl yh yl chk FF FF], where [chk] is the checksum
    [(xh+xl+yh+yl) mod 256], the four coordinate bytes add up to less than
    256, and no payload byte completes a marker pair with the byte before it,
    processing the stream byte by byte from the initial state commits
    [(xh<<8 | xl, yh<<8 | yl)]: both targets hold it and it is the newest
    entry of the commit log. *)
Theorem frame_commits (preceding : list Z) (xh xl yh yl chk : Z) :
  is_byte xh -> is_byte xl -> is_byte yh -> is_byte yl ->
  chk = (xh + xl + yh + yl) mod 256 ->
  xh + xl + yh + yl < 256 ->
  transparent xh xl yh yl chk = true ->
  let s := rx_stream rx_init (preceding ++ frame xh xl yh yl chk) in
  let x := Z.lor (Z.shiftl xh 8) xl in
  let y := Z.lor (Z.shiftl yh 8) yl in
  target_x s = x /\ target_y s = y /\ hd_error (committed s) = Some (x, y).
Proof.
  intros Hxh Hxl Hyh Hyl Hchk Hsum Ht s x y. subst s.
  rewrite Z.mod_small in Hchk by (unfold is_byte in *; lia). subst chk.
  rewrite rx_stream_app.
  destruct (frame_phases (rx_stream rx_init preceding) xh xl yh yl _
              (stream_wf _ _ rx_init_wf) Ht) as (a7 & a8 & ->).
  pose proof (term_phase_commit xh xl yh yl a7 a8
                (target_x (rx_stream rx_init preceding))
                (target_y (rx_stream rx_init preceding))
                (committed (rx_stream rx_init preceding))) as H.
  cbv zeta in H. rewrite !pack16 in H by assumption. exact H.
Qed.

Lemma frame_commits_witness :
  let s := rx_stream rx_init ([0x07; 0xFF] ++ frame 0 100 0 50 150) in
  target_x s = 100 /\ target_y s = 50 /\ hd_error (committed s) = Some (100, 50).
Proof.
  apply (frame_commits [0x07; 0xFF] 0 100 0 50 150);
    unfold is_byte; try lia; reflexivity.
Defined.

(** C1, as stated, fails: a frame whose first coordinate byte is 0xAA carries
    the right checksum, yet the third 0xAA is taken for a repeated sync
    marker, the payload lands one position early, and nothing is committed. *)
Lemma frame_with_marker_payload_not_committed :
  let xh := 0xAA in let xl := 0 in let yh := 0 in let yl := 0 in
  let chk := 0xAA in
  let s := rx_stream rx_init (frame xh xl yh yl chk) in
  (is_byte xh /\ is_byte xl /\ is_byte yh /\ is_byte yl)
  /\ chk = (xh + xl + yh + yl) mod 256
  /\ target_x s <> Z.lor (Z.shiftl xh 8) xl
  /\ committed s = [].
Proof.
  cbv zeta. unfold is_byte. repeat split; try lia; try reflexivity.
  vm_compute. discriminate.
Qed.

(** The frame of the end-to-end scenario, x = 200 and y = 150 with checksum
    byte 0x5E: the four bytes add up to 350 as [int], which no byte equals,
    so the handler drops it. *)
Example scenario_frame_dropped :
  let s := rx_stream rx_init (frame 0x00 0xC8 0x00 0x96 0x5E) in
  0x5E = (0x00 + 0xC8 + 0x00 + 0x96) mod 256
  /\ transparent 0x00 0xC8 0x00 0x96 0x5E = true
  /\ target_x s = 0 /\ target_y s = 0 /\ committed s = [].
Proof. vm_compute. repeat split. Qed.

(** C4 (amended).  For every well-formed synchroniser state and every frame
    [AA AA xh xl yh yl chk FF FF] whose checksum byte differs from
    [(xh+xl+yh+yl) mod 256] and in which no payload byte completes a marker
    pair with the byte before it, processing the frame up to and including
    the terminator pair commits nothing: [target_x], [target_y] and the
    commit log are exactly what they were.  The handler returns nothing and
    the state has no error field, so no error is signalled. *)
Theorem corrupt_frame_dropped (s : rx_state) (xh xl yh yl chk : Z) :
  rx_wf s ->
  is_byte chk ->
  chk <> (xh + xl + yh + yl) mod 256 ->
  transparent xh xl yh yl chk = true ->
  let s' := rx_stream s (frame xh xl yh yl chk) in
  target_x s' = target_x s /\ target_y s' = target_y s
  /\ committed s' = committed s.
Proof.
  intros Hs Hchk Hne Ht s'. subst s'.
  destruct (frame_phases s xh xl yh yl chk Hs Ht) as (a7 & a8 & ->).
  apply term_phase_drop.
  intros Heq. apply Hne. rewrite Heq. symmetry. apply Z.mod_small. exact Hchk.
Qed.

Lemma corrupt_frame_dropped_witness :
  let s := rx_stream rx_init (frame 0 100 0 50 150) in
  let s' := rx_stream s (frame 1 2 3 4 99) in
  target_x s' = 100 /\ target_y s' = 50 /\ committed s' = [(100, 50)].
Proof.
  apply (corrupt_frame_dropped (rx_stream rx_init (frame 0 100 0 50 150)) 1 2 3 4 99).
  - apply stream_wf, rx_init_wf.
  - unfold is_byte; lia.
  - vm_compute; discriminate.
  - reflexivity.
Defined.

(** C4, as stated, fails: in the frame [AA AA FF FF 00 00 00 FF FF] the
    checksum byte 0x00 is not the checksum 0xFE of the coordinate bytes, but
    the second 0xFF of the payload is taken for a terminator and not stored,
    the rest lands one position early, and the terminator pair commits
    [(0xFF00, 0)]. *)
Lemma corrupt_frame_with_marker_payload_committed :
  let xh := 0xFF in let xl := 0xFF in let yh := 0 in let yl := 0 in
  let chk := 0 in
  let s' := rx_stream rx_init (frame xh xl yh yl chk) in
  rx_wf rx_init /\ is_byte chk /\ chk <> (xh + xl + yh + yl) mod 256
  /\ target_x s' <> target_x rx_init
  /\ committed s' = [(0xFF00, 0)].
Proof.
  cbv zeta. split; [apply rx_init_wf|]. unfold is_byte.
  repeat split; try lia; vm_compute; congruence.
Qed.

(** A frame whose four coordinate bytes add up to 256 or more is never
    committed, whatever its checksum byte: the handler compares the
    unreduced [int] sum with a byte.  This holds in particular when the
    checksum byte is the sum reduced modulo 256. *)
Theorem wide_checksum_dropped (s : rx_state) (xh xl yh yl chk : Z) :
  rx_wf s ->
  is_byte chk ->
  256 <= xh + xl + yh + yl ->
  transparent xh xl yh yl chk = true ->
  let s' := rx_stream s (frame xh xl yh yl chk) in
  target_x s' = target_x s /\ target_y s' = target_y s
  /\ committed s' = committed s.
Proof.
  intros Hs Hchk Hsum Ht s'. subst s'.
  destruct (frame_phases s xh xl yh yl chk Hs Ht) as (a7 & a8 & ->).
  apply term_phase_drop. unfold is_byte in Hchk. lia.
Qed.

(** The frame of the end-to-end scenario, x = 200 and y = 150 with checksum
    byte 0x5E = (0 + 200 + 0 + 150) mod 256, is such a frame. *)
Lemma wide_checksum_dropped_witness :
  let s' := rx_stream rx_init (frame 0x00 0xC8 0x00 0x96 0x5E) in
  target_x s' = 0 /\ target_y s' = 0 /\ committed s' = [].
Proof.
  apply (wide_checksum_dropped rx_init 0x00 0xC8 0x00 0x96 0x5E).
  - apply rx_init_wf.
  - unfold is_byte; lia.
  - lia.
  - reflexivity.
Defined.

(** C9.  From the initial state, after any sequence of received bytes, the
    write index [pt] is in [0, 9) and so addresses one of the nine bytes of
    [rx_order]; a store at index 8 wraps the index to 0. *)
Theorem pt_in_buffer (bytes : list Z) :
  let s := rx_stream rx_init bytes in
  (0 <= pt s < 9 /\ (Z.to_nat (pt s) < length (rx_order s))%nat)
  /\ forall b, pt s = 8 -> marker_pair (last_data s) b = false ->
       pt (UART_0_rx_DataFrame b s) = 0.
Proof.
  cbv zeta.
  destruct (stream_wf bytes rx_init rx_init_wf) as [Hlen Hpt].
  split; [split; [exact Hpt | rewrite Hlen; lia]|].
  intros b H8 Hm. rewrite step_store by exact Hm. cbn. rewrite H8. reflexivity.
Qed.

(** C10.  In the initial state two consecutive 0xFF bytes pass the checksum
    test on the all-zero buffer (0+0+0+0 = 0) and commit the coordinate
    (0, 0): the commit log, empty before, holds exactly that entry. *)
Theorem terminator_on_reset_commits_origin :
  let s := rx_stream rx_init [0xFF; 0xFF] in
  committed rx_init = [] /\ committed s = [(0, 0)]
  /\ target_x s = 0 /\ target_y s = 0.
Proof. cbv zeta. repeat split. Qed.
End FrameSync.

(** ** The self-check handshake *)

Module Handshake.

Lemma wait_unfold (rx : list Z) (data time : Z) :
  K230_Init_wait rx data time =
  if negb (data =? 0x1B) then
    if TIME_OUT <=? time then Some (0, rx)
    else match rx with
         | [] => None
         | b :: rx' => K230_Init_wait rx' b ((time + 1) mod 256)
         end
  else Some (1, rx).
Proof. destruct rx; reflexivity. Qed.

Section Wait.
Variable rest : list Z.

(** The acknowledgment arrives after fewer than [TIME_OUT - time] other
    bytes: the loop returns 1 and leaves what follows unread. *)
Lemma wait_ack (pre : list Z) :
  forall time d, not_ack d -> Forall not_ack pre ->
    0 <= time -> time + Z.of_nat (length pre) < TIME_OUT ->
    K230_Init_wait (pre ++ 0x1B :: rest) d time = Some (1, rest).
Proof.
  unfold TIME_OUT.
  induction pre as [|b pre IH]; intros time d Hnd Hpre H0 Hlt;
    rewrite wait_unfold; apply Z.eqb_neq in Hnd as ->; cbn [negb app];
    (destruct (TIME_OUT <=? time) eqn:Ht;
     [apply Z.leb_le in Ht; unfold TIME_OUT in Ht; cbn [length] in Hlt; lia|]).
  - rewrite wait_unfold. reflexivity.
  - inversion Hpre; subst. cbn [length] in Hlt.
    rewrite Z.mod_small by lia. apply IH; auto; lia.
Qed.

(** [TIME_OUT - time] bytes arrive and none is the acknowledgment: the loop
    returns 0 without reading any further byte. *)
Lemma wait_timeout (pre : list Z) :
  forall time d, not_ack d -> Forall not_ack pre ->
    0 <= time -> time + Z.of_nat (length pre) = TIME_OUT ->
    K230_Init_wait (pre ++ rest) d time = Some (0, rest).
Proof.
  unfold TIME_OUT.
  induction pre as [|b pre IH]; intros time d Hnd Hpre H0 Hlt;
    rewrite wait_unfold; apply Z.eqb_neq in Hnd as ->; cbn [negb app length] in *.
  - replace time with 255 by lia. reflexivity.
  - destruct (TIME_OUT <=? time) eqn:Ht;
      [apply Z.leb_le in Ht; unfold TIME_OUT in Ht; lia|].
    inversion Hpre; subst.
    rewrite Z.mod_small by lia. apply IH; auto; lia.
Qed.

(** Fewer bytes than that, none the acknowledgment: the loop waits. *)
Lemma wait_blocks (pre : list Z) :
  forall time d, not_ack d -> Forall not_ack pre ->
    0 <= time -> time + Z.of_nat (length pre) < TIME_OUT ->
    K230_Init_wait pre d time = None.
Proof.
  unfold TIME_OUT.
  induction pre as [|b pre IH]; intros time d Hnd Hpre H0 Hlt;
    rewrite wait_unfold; apply Z.eqb_neq in Hnd as ->; cbn [negb app length] in *;
    (destruct (TIME_OUT <=? time) eqn:Ht;
     [apply Z.leb_le in Ht; unfold TIME_OUT in Ht; lia|]).
  - reflexivity.
  - inversion Hpre; subst.
    rewrite Z.mod_small by lia. apply IH; auto; lia.
Qed.
End Wait.

(** Whatever the queue holds, a return consumes at most [TIME_OUT - time]
    bytes. *)
Lemma wait_consumes (rx : list Z) :
  forall data time r rx',
    0 <= time <= TIME_OUT ->
    K230_Init_wait rx data time = Some (r, rx') ->
    exists used, rx = used ++ rx' /\ Z.of_nat (length used) <= TIME_OUT - time.
Proof.
  unfold TIME_OUT.
  induction rx as [|b rx IH]; intros data time r rx' Ht; rewrite wait_unfold;
    destruct (data =? 0x1B); cbn [negb];
    try (intros [= <- <-]; exists []; cbn; split; [reflexivity|lia]);
    (destruct (TIME_OUT <=? time) eqn:Hle;
     [intros [= <- <-]; exists []; cbn; split; [reflexivity|lia]|]);
    [discriminate|].
  apply Z.leb_gt in Hle. unfold TIME_OUT in Hle.
  rewrite Z.mod_small by lia. intros H.
  apply IH in H as (used & -> & Hlen); [|lia].
  exists (b :: used). cbn [length]. split; [reflexivity|lia].
Qed.

(** C7.  With the pending bytes [pre] all different from the acknowledgment
    0x1B: if fewer than 255 of them precede a 0x1B, [K230_Init] returns 1
    having read up to and including that byte; if there are 255 of them, it
    returns 0 having read exactly those and nothing after; and in every case
    a return has consumed at most 255 received bytes.  The self-check command
    0x1A is transmitted first. *)
Theorem K230_Init_bounded (pre rest log : list Z) :
  Forall not_ack pre ->
  let sent := log ++ [SELF_CHECK_CMD] in
  ((length pre < 255)%nat ->
     K230_Init {| rx_queue := pre ++ 0x1B :: rest; tx_log := log |}
     = Done 1 {| rx_queue := rest; tx_log := sent |})
  /\ (length pre = 255%nat ->
     K230_Init {| rx_queue := pre ++ rest; tx_log := log |}
     = Done 0 {| rx_queue := rest; tx_log := sent |})
  /\ (forall u r u', K230_Init u = Done r u' ->
       exists used, rx_queue u = used ++ rx_queue u'
                    /\ (length used <= 255)%nat).
Proof.
  intros Hpre sent. unfold K230_Init, DL_UART_Main_transmitData.
  cbn [rx_queue tx_log]. repeat split.
  - intros Hlen.
    rewrite (wait_ack rest pre 0 0); unfold not_ack, TIME_OUT; auto; lia.
  - intros Hlen.
    rewrite (wait_timeout rest pre 0 0); unfold not_ack, TIME_OUT; auto; lia.
  - intros u r u'.
    destruct (K230_Init_wait (rx_queue u) 0 0) as [[r0 rx']|] eqn:Hw; [|discriminate].
    intros [= <- <-]. cbn [rx_queue].
    apply wait_consumes in Hw as (used & Hu & Hlen); [|unfold TIME_OUT; lia].
    exists used. unfold TIME_OUT in Hlen. split; [exact Hu|lia].
Qed.

Lemma K230_Init_bounded_witness :
  K230_Init {| rx_queue := [0x00; 0x41] ++ 0x1B :: [0x07]; tx_log := [] |}
  = Done 1 {| rx_queue := [0x07]; tx_log := [SELF_CHECK_CMD] |}.
Proof.
  refine (proj1 (K230_Init_bounded [0x00; 0x41] [0x07] [] _) _).
  - repeat constructor; unfold not_ack; lia.
  - cbn; lia.
Defined.

(** The retry bound is tight: 255 non-acknowledgment bytes followed by the
    acknowledgment still fail, the 256th byte is never read. *)
Example K230_Init_gives_up :
  K230_Init {| rx_queue := replicate 255 0 ++ [0x1B]; tx_log := [] |}
  = Done 0 {| rx_queue := [0x1B]; tx_log := [SELF_CHECK_CMD] |}.
Proof. vm_compute. reflexivity. Qed.

End Handshake.

(** ** The command/response exchange *)

Module Exchange.

Lemma read_unfold (rx : list Z) (temp l ll i : Z) (data : list Z) :
  K230_cmd_read rx temp l ll i data =
  if negb (is_end ll l temp) then
    if 128 <=? i then SegOverrun
    else match rx with
         | [] => SegBlocked
         | b :: rx' =>
             K230_cmd_read rx' b temp l ((i + 1) mod 256)
                           (<[Z.to_nat i := temp]> data)
         end
  else SegDone data rx.
Proof. destruct rx; reflexivity. Qed.

(** The loop stores a run of bytes that does not complete the terminator. *)
Lemma read_run (w : list Z) :
  forall temp l ll i data nxt rest,
    no_end ll l (temp :: w) = true ->
    0 <= i -> i + Z.of_nat (length (temp :: w)) <= 128 ->
    K230_cmd_read (w ++ nxt :: rest) temp l ll i data =
    K230_cmd_read rest nxt (snd (window ll l (temp :: w)))
                  (fst (window ll l (temp :: w)))
                  (i + Z.of_nat (length (temp :: w)))
                  (fill (Z.to_nat i) (temp :: w) data).
Proof.
  induction w as [|b w IH]; intros temp l ll i data nxt rest Hno Hi Hlen;
    cbn [no_end] in Hno; apply andb_true_iff in Hno as [Hne Hno];
    rewrite read_unfold, Hne; cbn [length] in Hlen;
    (destruct (128 <=? i) eqn:Hov; [apply Z.leb_le in Hov; lia|]);
    cbn [app]; rewrite Z.mod_small by lia.
  - cbn [window fst snd fill length]. f_equal.
  - rewrite IH by (cbn [length]; auto; lia).
    cbn [window fill length].
    replace (Z.to_nat (i + 1)) with (S (Z.to_nat i)) by lia.
    f_equal. lia.
Qed.

Lemma fill_spec (w : list Z) :
  forall i data, (i + length w <= length data)%nat ->
    fill i w data = take i data ++ w ++ drop (i + length w) data.
Proof.
  induction w as [|b w IH]; intros i data Hlen; cbn [fill length] in *.
  - rewrite Nat.add_0_r. cbn. symmetry. apply take_drop.
  - rewrite IH by (rewrite length_insert; lia).
    rewrite (take_S_r _ _ b) by (apply list_lookup_insert_eq; lia).
    rewrite take_insert_ge by lia. rewrite drop_insert_lt by lia.
    rewrite <- app_assoc. cbn.
    replace (i + S (length w))%nat with (S (i + length w)) by lia.
    reflexivity.
Qed.

Lemma window_end (ll l : Z) (w : list Z) :
  window ll l (w ++ [END1; END2]) = (END1, END2).
Proof.
  revert ll l. induction w as [|b w IH]; intros ll l; [reflexivity|].
  cbn [app window]. apply IH.
Qed.

(** One well-formed segment: the bytes up to the terminator's last byte are
    stored from index 0 and the bytes after the terminator stay queued. *)
Lemma read_segment (payload rest data : list Z) (temp : Z) (w : list Z) :
  payload ++ [END1; END2] = temp :: w ->
  no_end 0 0 (payload ++ [END1; END2]) = true ->
  (length payload + 2 <= 128)%nat ->
  length data = 128%nat ->
  K230_cmd_read (w ++ END3 :: rest) temp 0 0 0 data =
  SegDone (payload ++ [END1; END2] ++ drop (length payload + 2) data) rest.
Proof.
  intros Hw Hno Hlen Hdata.
  assert (Hl : length (temp :: w) = (length payload + 2)%nat)
    by (rewrite <- Hw, length_app; reflexivity).
  rewrite read_run; [|rewrite <- Hw; exact Hno|lia|lia].
  rewrite <- Hw at 1 2. rewrite window_end. cbn [fst snd].
  rewrite read_unfold. cbn [is_end END1 END2 END3 Z.eqb Pos.eqb andb negb].
  rewrite fill_spec by (cbn [Z.to_nat]; lia).
  rewrite <- Hw, length_app, <- app_assoc. reflexivity.
Qed.

Section Iteration.
Context {H : Type}.
Variable func : handler H.

(** One turn of the loop on a well-formed segment. *)
Lemma loop_iteration (fuel : nat) (seg : Z * list Z)
    (rest data log : list Z) (h : H) :
  segment_ok seg ->
  length data = 128%nat ->
  let r := func (stored (snd seg) data)
                {| rx_queue := rest; tx_log := log |} h in
  K230_cmd_loop (S fuel) func data
    {| rx_queue := wire_segment seg ++ rest; tx_log := log |} h
  = if flag r =? 0 then Done (env r) (io r)
    else K230_cmd_loop fuel func (buffer r) (io r) (env r).
Proof.
  destruct seg as [ack payload]. intros [Hno Hlen] Hdata r.
  cbn [fst snd] in *. unfold wire_segment. cbn [fst snd].
  cbn [K230_cmd_loop rx_queue tx_log app].
  destruct (payload ++ [END1; END2]) as [|temp w] eqn:Hw;
    [destruct payload; discriminate Hw|].
  replace ((payload ++ [END1; END2; END3]) ++ rest)
    with (temp :: w ++ END3 :: rest)
    by (change [END1; END2; END3] with ([END1; END2] ++ [END3]);
        rewrite (app_assoc payload), Hw, <- app_assoc; reflexivity).
  rewrite (read_segment payload rest data temp w Hw) by (rewrite ?Hw; assumption).
  fold (stored payload data). fold r. destruct (flag r =? 0); reflexivity.
Qed.

(** One turn of [K230_cmd] on a segment that fits the buffer.  [K230_cmd]
    transmits the command byte, discards one byte, and reads the response
    up to the first occurrence of the terminator 0x01 0xFE 0xFF, storing
    every byte before the final 0xFF from index 0 of its buffer; it calls
    the handler once on that buffer, with the bytes after the terminator
    still queued; if the handler's flag is zero it transmits the stop
    command 0x1C and returns, otherwise it goes on to read another segment
    in the same way.  The payload is 126 bytes long at most. *)
Theorem K230_cmd_iteration (fuel : nat) (cmd ack : Z)
    (payload rest data log : list Z) (h : H) :
  no_end 0 0 (payload ++ [END1; END2]) = true ->
  (length payload + 2 <= 128)%nat ->
  length data = 128%nat ->
  let u := {| rx_queue := ack :: payload ++ [END1; END2; END3] ++ rest;
              tx_log := log |} in
  let buf := payload ++ [END1; END2] ++ drop (length payload + 2) data in
  let r := func buf {| rx_queue := rest; tx_log := log ++ [cmd] |} h in
  K230_cmd (S fuel) cmd func data u h =
  if flag r =? 0
  then Done (env r) (DL_UART_Main_transmitData STOP_CMD (io r))
  else K230_cmd_stop (K230_cmd_loop fuel func (buffer r) (io r) (env r)).
Proof.
  intros Hno Hlen Hdata u buf r.
  unfold K230_cmd, u, DL_UART_Main_transmitData. cbn [rx_queue tx_log].
  rewrite (app_assoc payload).
  change (ack :: (payload ++ [END1; END2; END3]) ++ rest)
    with (wire_segment (ack, payload) ++ rest).
  rewrite loop_iteration by (try split; assumption).
  cbn [snd]. unfold stored. fold buf. fold r.
  destruct (flag r =? 0); reflexivity.
Qed.

(** With a polite handler, a response of well-formed segments on which the
    handler eventually returns 0 is served to the end: the handler has been
    called on each segment up to that one, the stop command is the last byte
    transmitted, and what follows the last segment served is still
    queued. *)
Lemma loop_serves (segs : list (Z * list Z)) :
  polite func ->
  Forall segment_ok segs ->
  forall rest data log h r fuel,
    length data = 128%nat ->
    serve func segs rest data log h = Some r ->
    (length segs <= fuel)%nat ->
    K230_cmd_loop fuel func data
      {| rx_queue := concat (map wire_segment segs) ++ rest; tx_log := log |} h
    = Done (env r) (io r).
Proof.
  intros Hpol Hok.
  induction Hok as [|seg segs Hseg Hsegs IH];
    intros rest data log h r fuel Hdata Hserve Hfuel; [discriminate Hserve|].
  destruct fuel as [|fuel]; [cbn in Hfuel; lia|].
  cbn [map concat]. rewrite <- app_assoc.
  rewrite loop_iteration by assumption.
  cbn [serve] in Hserve.
  set (r1 := func (stored (snd seg) data)
                  {| rx_queue := concat (map wire_segment segs) ++ rest;
                     tx_log := log |} h) in *.
  destruct (flag r1 =? 0).
  - injection Hserve as <-. reflexivity.
  - destruct (Hpol (stored (snd seg) data)
                   {| rx_queue := concat (map wire_segment segs) ++ rest;
                      tx_log := log |} h) as [Hrx Hbuf].
    fold r1 in Hrx, Hbuf. cbn [rx_queue] in Hrx.
    replace (io r1) with {| rx_queue := concat (map wire_segment segs) ++ rest;
                            tx_log := tx_log (io r1) |}
      by (destruct (io r1) as [q l]; cbn in Hrx |- *; rewrite Hrx; reflexivity).
    apply IH; [|exact Hserve|cbn in Hfuel; lia].
    rewrite Hbuf. unfold stored. destruct Hseg as [_ Hlen].
    rewrite !length_app, length_drop. cbn [length]. lia.
Qed.

Theorem K230_cmd_serves_segments (segs : list (Z * list Z)) (cmd : Z)
    (rest data log : list Z) (h : H) (r : handled H) (fuel : nat) :
  polite func ->
  Forall segment_ok segs ->
  length data = 128%nat ->
  serve func segs rest data (log ++ [cmd]) h = Some r ->
  (length segs <= fuel)%nat ->
  K230_cmd fuel cmd func data
    {| rx_queue := concat (map wire_segment segs) ++ rest; tx_log := log |} h
  = Done (env r) {| rx_queue := rx_queue (io r);
                    tx_log := tx_log (io r) ++ [STOP_CMD] |}.
Proof.
  intros Hpol Hok Hdata Hserve Hfuel. unfold K230_cmd, DL_UART_Main_transmitData.
  cbn [rx_queue tx_log].
  rewrite (loop_serves segs Hpol Hok rest data (log ++ [cmd]) h r fuel) by assumption.
  reflexivity.
Qed.
End Iteration.

Lemma K230_cmd_iteration_witness :
  K230_cmd 1 0x20 countdown (replicate 128 0)
    {| rx_queue := 0x06 :: [0x11; 0x22] ++ [END1; END2; END3] ++ [0x99];
       tx_log := [] |} 0%nat
  = Done 0%nat {| rx_queue := [0x99]; tx_log := [0x20; STOP_CMD] |}.
Proof.
  refine (eq_trans
            (K230_cmd_iteration countdown 0 0x20 0x06 [0x11; 0x22] [0x99]
               (replicate 128 0) [] 0%nat _ _ _) _).
  - reflexivity.
  - cbn; lia.
  - reflexivity.
  - reflexivity.
Defined.

Lemma countdown_polite : polite countdown.
Proof. intros data u n. split; reflexivity. Qed.

Lemma K230_cmd_serves_segments_witness :
  K230_cmd 2 0x20 countdown (replicate 128 0)
    {| rx_queue := concat (map wire_segment [(0x06, [0x11]); (0x06, [0x01])])
                   ++ [0x99];
       tx_log := [] |} 1%nat
  = Done 0%nat {| rx_queue := [0x99]; tx_log := [0x20; STOP_CMD] |}.
Proof.
  refine (K230_cmd_serves_segments countdown [(0x06, [0x11]); (0x06, [0x01])]
            0x20 [0x99] (replicate 128 0) [] 1%nat
            {| flag := 0; buffer := [0x01; 0x01; 0xFE] ++ replicate 125 0;
               io := {| rx_queue := [0x99]; tx_log := [0x20] |};
               env := 0%nat |} 2 countdown_polite _ _ _ _).
  - repeat constructor; cbn; lia.
  - reflexivity.
  - reflexivity.
  - cbn; lia.
Defined.

(** Two segments: the handler asks for one more after the first and stops
    after the second; the stop command is the last byte transmitted, and the
    byte queued after the second terminator is not read. *)
Example K230_cmd_two_segments :
  K230_cmd 5 0x20 countdown (replicate 128 0)
    {| rx_queue := [0x06; 0x11; 0x01; 0xFE; 0xFF;
                    0x06; 0x01; 0x01; 0xFE; 0xFF; 0x99];
       tx_log := [] |} 1%nat
  = Done 0%nat {| rx_queue := [0x99]; tx_log := [0x20; STOP_CMD] |}.
Proof. reflexivity. Qed.

(** A response that never brings the terminator makes the exchange wait for
    ever; one longer than the buffer overruns it. *)
Example K230_cmd_blocks :
  K230_cmd 5 0x20 countdown (replicate 128 0)
    {| rx_queue := [0x06; 0x11; 0x01; 0xFE]; tx_log := [] |} 0%nat
  = Blocked {| rx_queue := []; tx_log := [0x20] |}.
Proof. reflexivity. Qed.

Example K230_cmd_overruns :
  K230_cmd 5 0x20 countdown (replicate 128 0)
    {| rx_queue := 0x06 :: replicate 129 0x55; tx_log := [] |} 0%nat
  = Overrun {| rx_queue := 0x06 :: replicate 129 0x55; tx_log := [0x20] |}.
Proof. vm_compute. reflexivity. Qed.

(** A run without terminator, cut in two. *)
Lemma no_end_app (a b : list Z) :
  forall ll l,
    no_end ll l (a ++ b) = true ->
    no_end ll l a = true
    /\ no_end (fst (window ll l a)) (snd (window ll l a)) b = true.
Proof.
  induction a as [|t a IH]; intros ll l Hno; cbn [app no_end window fst snd] in *.
  - split; [reflexivity|exact Hno].
  - apply andb_true_iff in Hno as [Ht Hno].
    destruct (IH _ _ Hno) as [Ha Hb]. rewrite Ht, Ha. split; [reflexivity|exact Hb].
Qed.

Section LongSegment.
Context {H : Type}.
Variable func : handler H.

(** C8, the code at the failing inputs.  A response segment of 127 payload
    bytes or more, terminated as it should be: the loop stores bytes up to
    [data[127]], and the next store, at index 128, is outside
    [uint8_t data[128]]; [i] is never compared with the size of the
    buffer.  The handler is not called and the stop command is not sent:
    the only byte transmitted is the command. *)
Theorem K230_cmd_long_segment_overruns (fuel : nat) (cmd ack : Z)
    (payload rest data log : list Z) (h : H) :
  no_end 0 0 (payload ++ [END1; END2]) = true ->
  (127 <= length payload)%nat ->
  K230_cmd (S fuel) cmd func data
    {| rx_queue := ack :: payload ++ [END1; END2; END3] ++ rest;
       tx_log := log |} h
  = Overrun {| rx_queue := ack :: payload ++ [END1; END2; END3] ++ rest;
               tx_log := log ++ [cmd] |}.
Proof.
  intros Hno Hlen.
  unfold K230_cmd, DL_UART_Main_transmitData. cbn [rx_queue tx_log].
  cbn [K230_cmd_loop rx_queue tx_log].
  set (full := payload ++ [END1; END2]) in *.
  assert (Hfull : (129 <= length full)%nat)
    by (unfold full; rewrite length_app; cbn [length]; lia).
  assert (Hsplit : full = take 128 full ++ drop 128 full)
    by (symmetry; apply take_drop).
  assert (Htake : length (take 128 full) = 128%nat) by (rewrite length_take; lia).
  assert (Hdrop : (1 <= length (drop 128 full))%nat) by (rewrite length_drop; lia).
  destruct (take 128 full) as [|temp w] eqn:Et; [discriminate Htake|].
  destruct (drop 128 full) as [|nxt tail] eqn:Ed; [cbn in Hdrop; lia|].
  assert (Hq : payload ++ [END1; END2; END3] ++ rest
               = temp :: w ++ nxt :: (tail ++ END3 :: rest)).
  { change [END1; END2; END3] with ([END1; END2] ++ [END3]).
    rewrite <- (app_assoc [END1; END2]), (app_assoc payload). fold full.
    rewrite Hsplit. cbn [app]. rewrite <- !app_assoc. reflexivity. }
  rewrite Hq.
  rewrite Hsplit in Hno. destruct (no_end_app _ _ _ _ Hno) as [Ha Hb].
  rewrite read_run by (try exact Ha; rewrite ?Htake; lia).
  rewrite Htake. cbn [no_end] in Hb. apply andb_true_iff in Hb as [Hne _].
  rewrite read_unfold. rewrite Hne. reflexivity.
Qed.
End LongSegment.

Lemma K230_cmd_long_segment_overruns_witness :
  K230_cmd 1 0x20 countdown (replicate 128 0)
    {| rx_queue := 0x06 :: replicate 127 0x55 ++ [END1; END2; END3] ++ [0x99];
       tx_log := [] |} 0%nat
  = Overrun {| rx_queue := 0x06 :: replicate 127 0x55 ++ [END1; END2; END3] ++ [0x99];
               tx_log := [] ++ [0x20] |}.
Proof.
  apply (K230_cmd_long_segment_overruns countdown 0 0x20 0x06
           (replicate 127 0x55) [0x99] (replicate 128 0) [] 0%nat).
  - reflexivity.
  - cbn; lia.
Defined.

(** With one payload byte fewer the same response is served. *)
Example K230_cmd_longest_segment_served :
  K230_cmd 1 0x20 countdown (replicate 128 0)
    {| rx_queue := 0x06 :: replicate 126 0x55 ++ [END1; END2; END3] ++ [0x99];
       tx_log := [] |} 0%nat
  = Done 0%nat {| rx_queue := [0x99]; tx_log := [0x20; STOP_CMD] |}.
Proof. vm_compute. reflexivity. Qed.

End Exchange.

(** ** Order on binary32 *)

Module Float32Order.
Import Float32.

Lemma compare_antisym (x y : float) :
  SFcompare y x = option_map CompOpp (SFcompare x y).
Proof.
  destruct x as [sx|sx| |sx mx ex], y as [sy|sy| |sy my ey]; cbn;
    try reflexivity;
    try (destruct sx; reflexivity); try (destruct sy; reflexivity);
    try (destruct sx, sy; reflexivity).
  destruct sx, sy; cbn; try reflexivity;
    rewrite (Z.compare_antisym ex ey); destruct (ex ?= ey); cbn; try reflexivity;
    change (Pos.compare_cont Eq my mx) with (Pos.compare my mx);
    change (Pos.compare_cont Eq mx my) with (Pos.compare mx my);
    rewrite (Pos.compare_antisym mx my); destruct (mx ?= my)%positive; reflexivity.
Qed.

Lemma compare_refl (x : float) :
  is_nan x = false -> SFcompare x x = Some Eq.
Proof.
  destruct x as [s|s| |s m e]; cbn; intros H; try discriminate H;
    try (destruct s; reflexivity).
  rewrite Z.compare_refl.
  change (Pos.compare_cont Eq m m) with (Pos.compare m m).
  rewrite Pos.compare_refl. destruct s; reflexivity.
Qed.

Lemma leb_refl (x : float) : is_nan x = false -> leb x x = true.
Proof. intros H. unfold leb, SFleb. rewrite compare_refl by exact H. reflexivity. Qed.

Lemma leb_not_nan (x y : float) :
  leb x y = true -> is_nan x = false /\ is_nan y = false.
Proof. destruct x, y; cbn; intros H; try discriminate H; auto. Qed.


Lemma compare_numbers (x y : float) :
  is_nan x = false -> is_nan y = false -> exists c, SFcompare x y = Some c.
Proof.
  destruct x, y; cbn; intros Hx Hy; try discriminate; eauto.
Qed.

(** [x <= y] excludes [y < x]. *)
Lemma leb_ltb_false (x y : float) : leb x y = true -> ltb y x = false.
Proof.
  unfold leb, ltb, SFleb, SFltb. rewrite (compare_antisym x y).
  destruct (SFcompare x y) as [[]|]; cbn; congruence.
Qed.

(** For numbers, not [x < y] is [y <= x]. *)
Lemma ltb_false_leb (x y : float) :
  is_nan x = false -> is_nan y = false -> ltb x y = false -> leb y x = true.
Proof.
  intros Hx Hy. destruct (compare_numbers x y Hx Hy) as [c Hc].
  unfold leb, ltb, SFleb, SFltb. rewrite (compare_antisym x y), Hc.
  destruct c; cbn; congruence.
Qed.

Lemma ltb_leb (x y : float) : ltb x y = true -> leb x y = true.
Proof.
  unfold leb, ltb, SFleb, SFltb. destruct (SFcompare x y) as [[]|]; congruence.
Qed.

Lemma ltb_irrefl (x : float) : ltb x x = false.
Proof.
  destruct (is_nan x) eqn:Hn.
  - destruct x; try discriminate Hn. reflexivity.
  - unfold ltb, SFltb. rewrite compare_refl by exact Hn. reflexivity.
Qed.

(** The order is transitive. *)
Lemma ltb_trans (x y z : float) :
  ltb x y = true -> ltb y z = true -> ltb x z = true.
Proof.
  unfold ltb, SFltb.
  destruct x as [sx|sx| |sx mx ex], y as [sy|sy| |sy my ey],
           z as [sz|sz| |sz mz ez]; cbn;
    try discriminate; try reflexivity;
    try (destruct sx; discriminate || reflexivity);
    try (destruct sy; discriminate || reflexivity);
    try (destruct sz; discriminate || reflexivity);
    try (destruct sx, sy; discriminate || reflexivity);
    try (destruct sx, sz; discriminate || reflexivity);
    try (destruct sy, sz; discriminate || reflexivity);
    try (destruct sx, sy, sz; discriminate || reflexivity).
  change (Pos.compare_cont Eq mx my) with (Pos.compare mx my).
  change (Pos.compare_cont Eq my mz) with (Pos.compare my mz).
  change (Pos.compare_cont Eq mx mz) with (Pos.compare mx mz).
  destruct sx, sy, sz; try discriminate; try reflexivity;
    destruct (Z.compare_spec ex ey), (Z.compare_spec ey ez),
             (Z.compare_spec ex ez); try discriminate; try reflexivity;
      try lia;
    destruct (Pos.compare_spec mx my), (Pos.compare_spec my mz),
             (Pos.compare_spec mx mz); cbn; try discriminate; try reflexivity;
      try lia.
Qed.

End Float32Order.

(** ** Rounding in binary32

    What [binary_round_aux] does to a mantissa: the bits it shifts out, the
    unit it may add, and the value that results, as a real number. *)

Module Rounding.
Import Float32.

(** digits *)
Lemma digits2_pos_bounds (m : positive) :
  2 ^ (Zpos (digits2_pos m) - 1) <= Zpos m < 2 ^ Zpos (digits2_pos m).
Proof.
  induction m as [m IH|m IH|]; cbn [digits2_pos].
  - rewrite Pos2Z.inj_succ.
    replace (Z.succ (Zpos (digits2_pos m)) - 1) with (Zpos (digits2_pos m) - 1 + 1) by lia.
    rewrite Z.pow_add_r, Z.pow_succ_r by lia. lia.
  - rewrite Pos2Z.inj_succ.
    replace (Z.succ (Zpos (digits2_pos m)) - 1) with (Zpos (digits2_pos m) - 1 + 1) by lia.
    rewrite Z.pow_add_r, Z.pow_succ_r by lia. lia.
  - cbn. lia.
Qed.

(** digits are determined by the binade *)
Lemma digits2_pos_unique (m : positive) (d : Z) :
  2 ^ (d - 1) <= Zpos m < 2 ^ d -> Zpos (digits2_pos m) = d.
Proof.
  intros [Hlo Hhi]. pose proof (digits2_pos_bounds m) as [Hlo' Hhi'].
  assert (0 < d).
  { destruct (Z.lt_trichotomy d 0) as [Hn|[->|Hp]]; [|cbn in Hhi; lia|exact Hp].
    rewrite Z.pow_neg_r in Hhi by exact Hn. lia. }
  destruct (Z.lt_trichotomy (Zpos (digits2_pos m)) d) as [Hlt|[Heq|Hgt]]; [|exact Heq|].
  - assert (2 ^ Zpos (digits2_pos m) <= 2 ^ (d - 1)) by (apply Z.pow_le_mono_r; lia). lia.
  - assert (2 ^ d <= 2 ^ (Zpos (digits2_pos m) - 1)) by (apply Z.pow_le_mono_r; lia). lia.
Qed.

Lemma iter_pos_nat {A} (f : A -> A) (p : positive) :
  forall x, SpecFloat.iter_pos f p x = Nat.iter (Pos.to_nat p) f x.
Proof.
  induction p as [p IH|p IH|]; intros x; cbn [SpecFloat.iter_pos].
  - rewrite !IH, Pos2Nat.inj_xI.
    replace (S (2 * Pos.to_nat p))%nat with (Pos.to_nat p + (Pos.to_nat p + 1))%nat by lia.
    rewrite !Nat.iter_add. reflexivity.
  - rewrite !IH, Pos2Nat.inj_xO.
    replace (2 * Pos.to_nat p)%nat with (Pos.to_nat p + Pos.to_nat p)%nat by lia.
    rewrite Nat.iter_add. reflexivity.
  - reflexivity.
Qed.

(** shifting right *)
Lemma shr_1_m (mrs : shr_record) :
  0 <= shr_m mrs -> shr_m (shr_1 mrs) = shr_m mrs / 2.
Proof.
  destruct mrs as [m r s]. cbn [shr_m]. intros Hm.
  destruct m as [|p|p]; [reflexivity| |lia].
  destruct p as [p|p|]; cbn [shr_1 shr_m].
  - apply (Z.div_unique _ _ _ 1); lia.
  - apply (Z.div_unique _ _ _ 0); lia.
  - reflexivity.
Qed.

Lemma shr_iter_m (n : nat) :
  forall mrs, 0 <= shr_m mrs ->
    shr_m (Nat.iter n shr_1 mrs) = shr_m mrs / 2 ^ Z.of_nat n.
Proof.
  induction n as [|n IH]; intros mrs Hm.
  - cbn. rewrite Z.div_1_r. reflexivity.
  - rewrite Nat.iter_succ. rewrite shr_1_m.
    + rewrite IH by exact Hm. rewrite Nat2Z.inj_succ, Z.pow_succ_r by lia.
      rewrite Z.div_div by lia. f_equal. lia.
    + rewrite IH by exact Hm. apply Z.div_pos; lia.
Qed.




Lemma fexp_eq (e : Z) : fexp e = Z.max (e - 24) (-149).
Proof. reflexivity. Qed.

(** [shr] on a non-negative mantissa *)
Lemma shr_m_spec (m : Z) (r s : bool) (e n : Z) :
  0 <= m ->
  shr_m (fst (shr (Build_shr_record m r s) e n)) = m / 2 ^ Z.max n 0
  /\ snd (shr (Build_shr_record m r s) e n) = e + Z.max n 0.
Proof.
  intros Hm. unfold shr. destruct n as [|p|p]; cbn [fst snd shr_m Z.max].
  - rewrite Z.div_1_r. split; [reflexivity|lia].
  - rewrite iter_pos_nat, shr_iter_m by exact Hm. cbn [shr_m].
    rewrite positive_nat_Z. replace (Z.max (Z.pos p) 0) with (Z.pos p) by lia.
    split; reflexivity.
  - replace (Z.max (Z.neg p) 0) with 0 by lia. rewrite Z.div_1_r. split; [reflexivity|lia].
Qed.


Lemma round_nearest_even_cases (q : Z) (l : location) :
  round_nearest_even q l = q \/ round_nearest_even q l = q + 1.
Proof.
  destruct l as [|[]]; cbn; auto. destruct (Z.even q); auto.
Qed.

Lemma Zdigits2_pos (m : positive) : Zdigits2 (Zpos m) = Zpos (digits2_pos m).
Proof. reflexivity. Qed.





Lemma digits_of_24 (q : Z) :
  2 ^ 23 <= q < 2 ^ 24 -> Zdigits2 q = 24.
Proof.
  intros Hq. destruct q as [|p|p]; try (cbn in Hq; lia).
  rewrite Zdigits2_pos. apply digits2_pos_unique. exact Hq.
Qed.



(** shl_align *)
Lemma iter_xO_spec (m d : positive) :
  Zpos (Pos.iter xO m d) = Zpos m * 2 ^ Zpos d
  /\ Zpos (digits2_pos (Pos.iter xO m d)) = Zpos (digits2_pos m) + Zpos d.
Proof.
  induction d as [|d IH] using Pos.peano_ind.
  - cbn [Pos.iter digits2_pos]. rewrite Pos2Z.inj_succ. split; lia.
  - rewrite Pos.iter_succ. cbn [digits2_pos]. rewrite !Pos2Z.inj_succ.
    destruct IH as [IH1 IH2]. rewrite Z.pow_succ_r by lia. split; lia.
Qed.

Lemma shl_align_spec (m : positive) (e e' : Z) :
  let '(mz, ez) := shl_align m e e' in
  ez = Z.min e e' /\ Zpos mz = Zpos m * 2 ^ (e - ez)
  /\ Zpos (digits2_pos mz) + ez = Zpos (digits2_pos m) + e.
Proof.
  unfold shl_align. destruct (e' - e) as [|p|p] eqn:Hd.
  - replace (Z.min e e') with e by lia. rewrite Z.sub_diag. cbn. split; [reflexivity|]. split; lia.
  - replace (Z.min e e') with e by lia. rewrite Z.sub_diag. cbn. split; [reflexivity|]. split; lia.
  - destruct (iter_xO_spec m p) as [H1 H2].
    replace (Z.min e e') with e' by lia. replace (e - e') with (Zpos p) by lia.
    split; [reflexivity|]. split; [exact H1|]. lia.
Qed.



(** *** Values *)

Local Open Scope R_scope.


Lemma pow2_pos (e : Z) : 0 < pow2 e.
Proof. apply powerRZ_lt. lra. Qed.

Lemma pow2_add (a b : Z) : pow2 (a + b) = pow2 a * pow2 b.
Proof. apply powerRZ_add. lra. Qed.

Lemma pow2_IZR (n : Z) : (0 <= n)%Z -> pow2 n = IZR (2 ^ n).
Proof.
  intros Hn. unfold pow2. rewrite <- (Z2Nat.id n Hn).
  rewrite <- pow_powerRZ, <- pow_IZR. reflexivity.
Qed.

Lemma pow2_ge_1 (n : Z) : (0 <= n)%Z -> 1 <= pow2 n.
Proof.
  intros Hn. rewrite pow2_IZR by exact Hn. apply IZR_le.
  assert (0 < 2 ^ n)%Z by (apply Z.pow_pos_nonneg; lia). lia.
Qed.

Lemma pow2_le (a b : Z) : (a <= b)%Z -> pow2 a <= pow2 b.
Proof.
  intros Hab. replace b with (a + (b - a))%Z by lia. rewrite pow2_add.
  pose proof (pow2_pos a). pose proof (pow2_ge_1 (b - a) ltac:(lia)). nra.
Qed.

Lemma pow2_1 : pow2 1 = 2.
Proof. exact (powerRZ_1 2). Qed.

Lemma pow2_lt (a b : Z) : (a < b)%Z -> pow2 a < pow2 b.
Proof.
  intros Hab. replace b with (a + 1 + (b - a - 1))%Z by lia.
  rewrite !pow2_add. rewrite pow2_1.
  pose proof (pow2_pos a). pose proof (pow2_ge_1 (b - a - 1) ltac:(lia)). nra.
Qed.

Lemma pow2_lt_inv (a b : Z) : pow2 a < pow2 b -> (a < b)%Z.
Proof.
  intros H. destruct (Z.lt_ge_cases a b) as [|Hge]; [assumption|].
  apply pow2_le in Hge. lra.
Qed.

Lemma val_shift (m : Z) (e k : Z) :
  (0 <= k)%Z -> val (m * 2 ^ k) e = val m (e + k).
Proof.
  intros Hk. unfold val. rewrite mult_IZR, pow2_add, <- pow2_IZR by exact Hk. ring.
Qed.

(** The digits of a value locate it between two powers of two. *)
Lemma val_digits (m : positive) (e : Z) :
  pow2 (Zpos (digits2_pos m) + e - 1) <= val (Zpos m) e
  < pow2 (Zpos (digits2_pos m) + e).
Proof.
  pose proof (digits2_pos_bounds m) as [Hlo Hhi].
  apply IZR_le in Hlo. apply IZR_lt in Hhi.
  rewrite <- pow2_IZR in Hlo, Hhi by lia.
  unfold val.
  replace (Zpos (digits2_pos m) + e - 1)%Z with ((Zpos (digits2_pos m) - 1) + e)%Z by lia.
  rewrite !pow2_add. pose proof (pow2_pos e). split; nra.
Qed.


(** Values at one exponent are ordered as their mantissas. *)
Lemma val_le (a b e : Z) : (a <= b)%Z -> val a e <= val b e.
Proof.
  intros H. unfold val. apply Rmult_le_compat_r; [pose proof (pow2_pos e); lra|].
  apply IZR_le. exact H.
Qed.

Lemma val_lt_inv (a b e : Z) : val a e < val b e -> (a < b)%Z.
Proof.
  intros H. destruct (Z.lt_ge_cases a b) as [|Hge]; [assumption|].
  apply (val_le _ _ e) in Hge. lra.
Qed.

Lemma val_succ (m e : Z) : val (m + 1) e = val m e + pow2 e.
Proof. unfold val. rewrite plus_IZR. ring. Qed.

Lemma val_double (m e : Z) : val (2 * m) e = val m (e + 1).
Proof. unfold val. rewrite mult_IZR, pow2_add, pow2_1. ring. Qed.

Lemma val_0 (e : Z) : val 0 e = 0.
Proof. unfold val. lra. Qed.

Lemma val_add (a b e : Z) : val (a + b) e = val a e + val b e.
Proof. unfold val. rewrite plus_IZR. ring. Qed.

Lemma val_sub (a b e : Z) : val (a - b) e = val a e - val b e.
Proof. unfold val. rewrite minus_IZR. ring. Qed.

Lemma val_pos (m : positive) (e : Z) : 0 < val (Zpos m) e.
Proof.
  unfold val. pose proof (pow2_pos e).
  assert (0 < IZR (Zpos m)) by (apply IZR_lt; lia). nra.
Qed.




(** *** Faithful rounding

    [binary_round_aux] keeps the truncated mantissa or its successor, the
    successor only when digits were lost; so the result stays within every
    two numbers of the format that enclose the exact value. *)

(** One shift keeps the location. *)
Lemma shr_1_located (v : R) (mrs : shr_record) (e : Z) :
  (0 <= shr_m mrs)%Z -> located v mrs e -> located v (shr_1 mrs) (e + 1).
Proof.
  destruct mrs as [m r s]. unfold located. cbn [shr_m]. intros Hm [[Hlo Hhi] Hex].
  pose proof (pow2_pos e) as Hp.
  rewrite val_succ in Hhi.
  destruct m as [|[p|p|]|p]; [| | | |lia]; cbn [shr_1 shr_m loc_of_shr_record];
    rewrite val_succ, <- ?val_double.
  - (* zero *)
    change (2 * 0)%Z with 0%Z. rewrite pow2_add, pow2_1.
    split; [split; [exact Hlo|lra]|].
    rewrite <- Hex. destruct r, s; cbn; split; intros H; try discriminate H; reflexivity.
  - (* 2p+1 *)
    rewrite pow2_add, pow2_1.
    assert (Hv : val (Z.pos p~1) e = val (2 * Z.pos p) e + pow2 e).
    { rewrite <- val_succ. f_equal. }
    split; [split; lra|].
    split; [destruct (r || s); discriminate|]. intros Heq. lra.
  - (* 2p *)
    change (Z.pos p~0) with (2 * Z.pos p)%Z in *.
    rewrite pow2_add, pow2_1.
    split; [split; lra|].
    rewrite <- Hex. destruct r, s; cbn; split; intros H; try discriminate H; reflexivity.
  - (* one *)
    change (2 * 0)%Z with 0%Z. rewrite pow2_add, pow2_1.
    assert (Hv : val 1 e = val 0 e + pow2 e) by (rewrite <- val_succ; f_equal).
    split; [split; lra|].
    split; [destruct (r || s); discriminate|]. intros Heq. lra.
Qed.

Lemma shr_1_nonneg (mrs : shr_record) :
  (0 <= shr_m mrs)%Z -> (0 <= shr_m (shr_1 mrs))%Z.
Proof. intros H. rewrite shr_1_m by exact H. apply Z.div_pos; lia. Qed.

Lemma shr_iter_located (v : R) (n : nat) :
  forall mrs e, (0 <= shr_m mrs)%Z -> located v mrs e ->
    (0 <= shr_m (Nat.iter n shr_1 mrs))%Z
    /\ located v (Nat.iter n shr_1 mrs) (e + Z.of_nat n).
Proof.
  induction n as [|n IH]; intros mrs e Hm Hl.
  - cbn [Nat.iter]. rewrite Z.add_0_r. split; assumption.
  - rewrite Nat.iter_succ. destruct (IH mrs e Hm Hl) as [Hm' Hl'].
    split; [apply shr_1_nonneg; exact Hm'|].
    replace (e + Z.of_nat (S n))%Z with (e + Z.of_nat n + 1)%Z by lia.
    apply shr_1_located; assumption.
Qed.

(** [shr] keeps the location, at the exponent it returns. *)
Lemma shr_located (v : R) (mrs : shr_record) (e n : Z) :
  (0 <= shr_m mrs)%Z -> located v mrs e ->
  located v (fst (shr mrs e n)) (e + Z.max n 0)
  /\ snd (shr mrs e n) = (e + Z.max n 0)%Z
  /\ shr_m (fst (shr mrs e n)) = (shr_m mrs / 2 ^ Z.max n 0)%Z.
Proof.
  intros Hm Hl.
  assert (Hs : shr_m (fst (shr mrs e n)) = (shr_m mrs / 2 ^ Z.max n 0)%Z
               /\ snd (shr mrs e n) = (e + Z.max n 0)%Z).
  { destruct mrs as [m r s]. apply shr_m_spec. exact Hm. }
  destruct Hs as [Hs1 Hs2]. split; [|split; assumption].
  unfold shr. destruct n as [|p|p]; cbn [fst Z.max].
  - rewrite Z.add_0_r. exact Hl.
  - rewrite iter_pos_nat. replace (Z.max (Z.pos p) 0) with (Z.of_nat (Pos.to_nat p)) by lia.
    apply shr_iter_located; assumption.
  - replace (Z.max (Z.neg p) 0) with 0%Z by lia. rewrite Z.add_0_r. exact Hl.
Qed.

(** No number of the format lies strictly between two neighbours of the
    grid. *)
Lemma grid_gap (q e M E : Z) :
  grid q e -> (0 <= M < 2 ^ 24)%Z -> (-149 <= E)%Z ->
  (val q e < val M E -> val (q + 1) e <= val M E)
  /\ (val M E < val (q + 1) e -> val M E <= val q e).
Proof.
  intros Hg HM HE.
  destruct (Z.le_gt_cases e E) as [Hle|Hgt].
  - replace E with (e + (E - e))%Z by lia.
    rewrite <- val_shift by lia.
    split; intros H; apply val_lt_inv in H; apply val_le; lia.
  - assert (Hq : (2 ^ 23 <= q)%Z) by (destruct Hg as [[[? ?] ?]|[? ?]]; lia).
    assert (Hlt : val M E < val q e).
    { apply Rlt_le_trans with (val (2 ^ 24) E).
      - unfold val. apply Rmult_lt_compat_r; [apply pow2_pos|]. apply IZR_lt. lia.
      - apply Rle_trans with (val (2 ^ 23) e); [|apply val_le; exact Hq].
        unfold val. rewrite <- !pow2_IZR, <- !pow2_add by lia. apply pow2_le. lia. }
    split; intros H; [|lra].
    exfalso. lra.
Qed.

(** Rounding to nearest adds a unit only when the value is above the
    mantissa. *)
Lemma round_nearest_even_located (v : R) (mrs : shr_record) (e : Z) :
  located v mrs e ->
  let m1 := round_nearest_even (shr_m mrs) (loc_of_shr_record mrs) in
  m1 = shr_m mrs \/ (m1 = (shr_m mrs + 1)%Z /\ val (shr_m mrs) e < v).
Proof.
  intros [[Hlo Hhi] Hex] m1.
  destruct (round_nearest_even_cases (shr_m mrs) (loc_of_shr_record mrs)) as [H|H];
    [left; exact H|].
  destruct (loc_of_shr_record mrs) eqn:El.
  - left. reflexivity.
  - right. split; [exact H|].
    destruct (Req_dec v (val (shr_m mrs) e)) as [Heq|Hne]; [|lra].
    apply Hex in Heq. discriminate Heq.
Qed.

Lemma Zdigits2_le_24 (m : Z) : (0 <= m <= 2 ^ 23)%Z -> (Zdigits2 m <= 24)%Z.
Proof.
  intros Hm. destruct m as [|p|p]; [cbn; lia| |lia].
  rewrite Zdigits2_pos. pose proof (digits2_pos_bounds p) as [Hlo _].
  destruct (Z.le_gt_cases (Zpos (digits2_pos p)) 24) as [|Hgt]; [assumption|].
  assert (2 ^ 24 <= 2 ^ (Zpos (digits2_pos p) - 1))%Z by (apply Z.pow_le_mono_r; lia).
  lia.
Qed.

(** The mantissa [binary_round_aux] keeps, for a mantissa with enough
    digits: the truncated one or its successor on the grid, the successor
    only when digits were lost. *)
Lemma round_aux_faithful (s : bool) (mx ex : Z) (lx : location) (v : R) :
  (0 <= mx)%Z -> (ex <= fexp (Zdigits2 mx + ex))%Z ->
  located v (shr_record_of_loc mx lx) ex ->
  exists q e m' e',
    grid q e
    /\ val q e <= v < val (q + 1) e
    /\ binary_round_aux prec emax s mx ex lx = finish s m' e'
    /\ (val m' e' = val q e \/ (val m' e' = val (q + 1) e /\ val q e < v))
    /\ (0 <= m')%Z
    /\ ((2 ^ 23 <= m' < 2 ^ 24 /\ -149 <= e')%Z
        \/ (m' <= 2 ^ 23 /\ e' = -149)%Z).
Proof.
  intros Hmx Hn Hloc.
  unfold binary_round_aux, shr_fexp.
  fold (fexp (Zdigits2 mx + ex)).
  set (d := Zdigits2 mx) in *.
  set (n := (fexp (d + ex) - ex)%Z).
  assert (Hn0 : (0 <= n)%Z) by (unfold n; lia).
  assert (Hm0 : shr_m (shr_record_of_loc mx lx) = mx) by (destruct lx as [|[]]; reflexivity).
  destruct (shr_located v (shr_record_of_loc mx lx) ex n) as (Hl1 & He1 & Hq1);
    [rewrite Hm0; exact Hmx|exact Hloc|].
  rewrite Hm0 in Hq1.
  destruct (shr (shr_record_of_loc mx lx) ex n) as [mrs' e'] eqn:Eshr.
  cbn [fst snd] in Hl1, He1, Hq1.
  replace (Z.max n 0) with n in * by lia.
  set (q := (mx / 2 ^ n)%Z) in *.
  rewrite <- He1 in Hl1.
  assert (He' : e' = fexp (d + ex)) by (unfold n in He1; lia).
  assert (Hpn : (0 < 2 ^ n)%Z) by (apply Z.pow_pos_nonneg; lia).
  (* the grid *)
  assert (Hg : grid q e').
  { rewrite fexp_eq in He'. unfold grid.
    destruct mx as [|p|p]; [| |lia].
    - right. unfold q. rewrite Z.div_0_l by lia.
      unfold n in Hn0. rewrite fexp_eq in Hn0. change d with 0%Z in *. lia.
    - unfold d in *. rewrite Zdigits2_pos in *.
      pose proof (digits2_pos_bounds p) as [Hlo Hhi].
      set (dp := Zpos (digits2_pos p)) in *.
      assert (Hn' : n = (e' - ex)%Z) by lia.
      destruct (Z.le_gt_cases (-149) (dp + ex - 24)) as [Hnorm|Hsub].
      + left. assert (Hnd : n = (dp - 24)%Z) by lia.
        assert (H23 : (2 ^ 23 * 2 ^ n = 2 ^ (dp - 1))%Z)
          by (rewrite <- Z.pow_add_r by lia; f_equal; lia).
        assert (H24 : (2 ^ 24 * 2 ^ n = 2 ^ dp)%Z)
          by (rewrite <- Z.pow_add_r by lia; f_equal; lia).
        split; [|lia]. unfold q. split.
        * apply Z.div_le_lower_bound; lia.
        * apply Z.div_lt_upper_bound; lia.
      + right. split; [|lia]. unfold q. split; [apply Z.div_pos; lia|].
        assert (H23 : (2 ^ 23 * 2 ^ n = 2 ^ (n + 23))%Z)
          by (rewrite <- Z.pow_add_r by lia; f_equal; lia).
        assert (2 ^ dp <= 2 ^ (n + 23))%Z by (apply Z.pow_le_mono_r; lia).
        apply Z.div_lt_upper_bound; lia. }
  pose proof (round_nearest_even_located v mrs' e' Hl1) as Hr. cbv zeta in Hr.
  rewrite Hq1 in Hr |- *.
  destruct Hl1 as [Hb _]. rewrite Hq1 in Hb.
  set (m1 := round_nearest_even q (loc_of_shr_record mrs')) in *.
  exists q, e'.
  cbn [shr_record_of_loc].
  assert (Hfin : forall m'' e'',
            shr (Build_shr_record m1 false false) e' (fexp (Zdigits2 m1 + e') - e')
            = (Build_shr_record m'' false false, e'') ->
            (let '(mrs'', e''0) :=
               shr (Build_shr_record m1 false false) e' (SpecFloat.fexp prec emax (Zdigits2 m1 + e') - e') in
             match shr_m mrs'' with
             | 0%Z => S754_zero s
             | Z.pos m => if (e''0 <=? emax - prec)%Z then S754_finite s m e''0 else S754_infinity s
             | Z.neg _ => S754_nan
             end) = finish s m'' e'').
  { intros m'' e'' H. fold (fexp (Zdigits2 m1 + e')). rewrite H. reflexivity. }
  destruct Hg as [[Hqn Hen]|[Hqs Hes]].
  - (* normal *)
    assert (Hc : (m1 < 2 ^ 24)%Z \/ (m1 = 2 ^ 24 /\ q + 1 = 2 ^ 24)%Z) by lia.
    destruct Hc as [Hlt|[Hm1 Hq24]].
    + exists m1, e'. split; [left; split; assumption|]. split; [exact Hb|].
      split.
      * apply Hfin. rewrite (digits_of_24 m1) by lia. rewrite fexp_eq.
        replace (Z.max (24 + e' - 24) (-149) - e')%Z with 0%Z by lia. reflexivity.
      * split; [|split; [lia|left; lia]].
        destruct Hr as [->|[-> Hv]]; [left; reflexivity|right; split; [reflexivity|exact Hv]].
    + exists (2 ^ 23)%Z, (e' + 1)%Z. split; [left; split; assumption|]. split; [exact Hb|].
      split.
      * apply Hfin. rewrite Hm1. change (Zdigits2 (2 ^ 24)) with 25%Z. rewrite fexp_eq.
        replace (Z.max (25 + e' - 24) (-149) - e')%Z with 1%Z by lia. reflexivity.
      * split; [|split; [lia|left; lia]].
        right. destruct Hr as [Hr|[Hr Hv]]; [lia|].
        split; [|exact Hv]. rewrite Hq24.
        change (2 ^ 24)%Z with (2 * 2 ^ 23)%Z. apply eq_sym, val_double.
  - (* subnormal *)
    exists m1, e'. split; [right; split; assumption|]. split; [exact Hb|].
    split.
    + apply Hfin. pose proof (Zdigits2_le_24 m1 ltac:(lia)) as Hd. rewrite fexp_eq.
      replace (Z.max (Zdigits2 m1 + e' - 24) (-149) - e')%Z with 0%Z by lia. reflexivity.
    + split; [|split; [lia|right; split; [lia|exact Hes]]].
      destruct Hr as [->|[-> Hv]]; [left; reflexivity|right; split; [reflexivity|exact Hv]].
Qed.

(** Rounding stays within every two numbers of the format that enclose the
    exact value, and so does not overflow. *)
Lemma round_aux_between (mx ex : Z) (lx : location) (v a b : R) :
  (0 <= mx)%Z -> (ex <= fexp (Zdigits2 mx + ex))%Z ->
  located v (shr_record_of_loc mx lx) ex ->
  rep a -> rep b -> a <= v <= b ->
  between a b (binary_round_aux prec emax false mx ex lx).
Proof.
  intros Hmx Hn Hloc (ML & EL & HL & ->) (MU & EU & HU & ->) [Ha Hb].
  destruct (round_aux_faithful false mx ex lx v Hmx Hn Hloc)
    as (q & e & m' & e' & Hg & [Hq1 Hq2] & Hres & Hval & Hm' & Hcan).
  destruct (grid_gap q e ML EL Hg ltac:(lia) ltac:(lia)) as [_ HgL].
  destruct (grid_gap q e MU EU Hg ltac:(lia) ltac:(lia)) as [HgU _].
  assert (Hbounds : val ML EL <= val m' e' <= val MU EU).
  { destruct Hval as [Hv|[Hv Hlt]]; rewrite Hv; split.
    - apply HgL. lra.
    - lra.
    - lra.
    - apply HgU. lra. }
  exists m', e'. split; [exact Hres|]. split; [exact Hm'|]. split; [|exact Hbounds].
  destruct Hcan as [[[Hn' _] _]|[_ ->]]; [|lia].
  assert (H1 : pow2 (23 + e') <= val m' e').
  { rewrite pow2_add, (pow2_IZR 23) by lia. apply val_le. exact Hn'. }
  assert (H2 : val MU EU < pow2 (24 + 104)).
  { apply Rlt_le_trans with (val (2 ^ 24) EU).
    - unfold val. apply Rmult_lt_compat_r; [apply pow2_pos|]. apply IZR_lt. lia.
    - unfold val. rewrite <- pow2_IZR, <- pow2_add by lia. apply pow2_le. lia. }
  assert (H3 : pow2 (23 + e') < pow2 (24 + 104)) by lra.
  apply pow2_lt_inv in H3. lia.
Qed.

(** An integer mantissa locates its own value. *)
Lemma located_exact (m e : Z) :
  located (val m e) (shr_record_of_loc m loc_Exact) e.
Proof.
  unfold located. cbn [shr_record_of_loc shr_m loc_of_shr_record].
  rewrite val_succ. pose proof (pow2_pos e). split; [lra|]. split; reflexivity.
Qed.

(** The same for [binary_round], which first aligns the mantissa, and for
    [binary_normalize] on a non-negative integer. *)
Lemma binary_round_between (m : positive) (e : Z) (a b : R) :
  rep a -> rep b -> a <= val (Zpos m) e <= b ->
  between a b (binary_round prec emax false m e).
Proof.
  intros Ha Hb Hv. unfold binary_round.
  fold (fexp (Zpos (digits2_pos m) + e)).
  pose proof (shl_align_spec m e (fexp (Zpos (digits2_pos m) + e))) as Hs.
  destruct (shl_align m e (fexp (Zpos (digits2_pos m) + e))) as [mz ez].
  destruct Hs as (Hez & Hmz & Hdz).
  assert (Hval : val (Zpos mz) ez = val (Zpos m) e).
  { rewrite Hmz, val_shift by lia. f_equal. lia. }
  apply (round_aux_between _ _ _ (val (Zpos m) e)); try assumption; [lia| |].
  - rewrite Zdigits2_pos, Hdz. lia.
  - rewrite <- Hval. apply located_exact.
Qed.

Lemma rep_0 : rep 0.
Proof. exists 0%Z, 0%Z. split; [lia|]. unfold val. lra. Qed.

Lemma between_zero (a b : R) : a <= 0 <= b -> between a b zero.
Proof.
  intros H. exists 0%Z, 0%Z. split; [reflexivity|]. rewrite val_0.
  split; [lia|]. split; [lia|exact H].
Qed.

Lemma binary_normalize_between (m e : Z) (a b : R) :
  (0 <= m)%Z -> rep a -> rep b -> a <= val m e <= b ->
  between a b (binary_normalize prec emax m e false).
Proof.
  intros Hm Ha Hb Hv. destruct m as [|p|p]; [| |lia]; cbn [binary_normalize].
  - apply between_zero. rewrite val_0 in Hv. exact Hv.
  - apply binary_round_between; assumption.
Qed.

(** The location of a quotient is exact when the remainder is zero. *)
Lemma new_location_exact (n r : Z) :
  new_location n r = loc_Exact <-> r = 0%Z.
Proof.
  unfold new_location, new_location_even, new_location_odd.
  destruct (Z.even n); destruct (Z.eqb_spec r 0); split; intros H;
    try reflexivity; try assumption; try discriminate H; contradiction.
Qed.

Lemma loc_of_shr_record_of_loc (m : Z) (l : location) :
  loc_of_shr_record (shr_record_of_loc m l) = l.
Proof. destruct l as [|[]]; reflexivity. Qed.

Lemma shr_m_of_loc (m : Z) (l : location) : shr_m (shr_record_of_loc m l) = m.
Proof. destruct l as [|[]]; reflexivity. Qed.

Lemma Zdigits2_succ (q : Z) : (0 <= q)%Z -> (0 <= Zdigits2 q /\ q + 1 <= 2 ^ Zdigits2 q)%Z.
Proof.
  intros Hq. destruct q as [|p|p]; [cbn; lia| |lia].
  rewrite Zdigits2_pos. pose proof (digits2_pos_bounds p). lia.
Qed.

(** The integer quotient the division rounds, with its location: it has
    digits enough, the real quotient lies within one unit above it, and the
    location is exact when the division is. *)
Lemma div_core_located (m1 m2 : positive) (e1 e2 : Z) :
  exists q e l,
    SFdiv_core_binary prec emax (Zpos m1) e1 (Zpos m2) e2 = (q, e, l)
    /\ e = Z.min (fexp (Zpos (digits2_pos m1) + e1 - (Zpos (digits2_pos m2) + e2)))
                 (e1 - e2)
    /\ (0 <= q)%Z
    /\ (e <= fexp (Zdigits2 q + e))%Z
    /\ located (val (Zpos m1) e1 / val (Zpos m2) e2) (shr_record_of_loc q l) e.
Proof.
  unfold SFdiv_core_binary. rewrite !Zdigits2_pos.
  fold (fexp (Zpos (digits2_pos m1) + e1 - (Zpos (digits2_pos m2) + e2))).
  set (D := (Zpos (digits2_pos m1) + e1 - (Zpos (digits2_pos m2) + e2))%Z).
  set (e' := Z.min (fexp D) (e1 - e2)).
  set (s := (e1 - e2 - e')%Z).
  assert (Hs : (0 <= s)%Z) by (unfold s, e'; lia).
  set (m' := match s with
             | Zpos _ => Z.shiftl (Zpos m1) s
             | Z0 => Zpos m1
             | Zneg _ => 0%Z
             end).
  assert (Hm' : m' = (Zpos m1 * 2 ^ s)%Z).
  { unfold m'. destruct s as [|p|p]; try lia.
    rewrite Z.shiftl_mul_pow2 by lia. reflexivity. }
  pose proof (Z_div_mod m' (Zpos m2) ltac:(lia)) as Hdm.
  destruct (Z.div_eucl m' (Zpos m2)) as [q r]. destruct Hdm as [Hdm Hr].
  exists q, e', (new_location (Zpos m2) r). split; [reflexivity|].
  split; [reflexivity|].
  assert (Hq : (0 <= q)%Z).
  { assert (0 < 2 ^ s)%Z by (apply Z.pow_pos_nonneg; lia). nia. }
  split; [exact Hq|].
  pose proof (val_pos m2 e2) as Hv2.
  set (x := val (Zpos m1) e1 / val (Zpos m2) e2).
  assert (Hx : x = IZR m' / IZR (Zpos m2) * pow2 e').
  { unfold x. replace (val (Zpos m1) e1) with (val m' e' * pow2 e2).
    - unfold val in *. pose proof (pow2_pos e2).
      assert (0 < IZR (Zpos m2)) by (apply IZR_lt; lia). field. split; lra.
    - rewrite Hm', val_shift by exact Hs. unfold val.
      rewrite Rmult_assoc, <- pow2_add. do 2 f_equal. unfold s. lia. }
  assert (Hm2 : 0 < IZR (Zpos m2)) by (apply IZR_lt; lia).
  pose proof (pow2_pos e') as Hp'.
  assert (Hdec : IZR m' / IZR (Zpos m2) = IZR q + IZR r / IZR (Zpos m2)).
  { rewrite Hdm, plus_IZR, mult_IZR. field. lra. }
  assert (Hr0 : 0 <= IZR r / IZR (Zpos m2) < 1).
  { destruct Hr as [Hr0 Hr1]. apply IZR_le in Hr0. apply IZR_lt in Hr1.
    split.
    - apply Rmult_le_pos; [exact Hr0|]. apply Rlt_le, Rinv_0_lt_compat. exact Hm2.
    - apply (Rmult_lt_reg_r (IZR (Zpos m2))); [exact Hm2|].
      replace (IZR r / IZR (Zpos m2) * IZR (Zpos m2)) with (IZR r) by (field; lra).
      lra. }
  assert (Hb : val q e' <= x < val (q + 1) e').
  { rewrite val_succ. unfold val. rewrite Hx, Hdec. split; nra. }
  split.
  - (* digits enough *)
    destruct (Zdigits2_succ q Hq) as [Hd0 Hd1].
    assert (Hup : x < pow2 (Zdigits2 q + e')).
    { eapply Rlt_le_trans; [exact (proj2 Hb)|].
      rewrite pow2_add, (pow2_IZR (Zdigits2 q)) by exact Hd0.
      apply val_le. exact Hd1. }
    assert (Hlow : pow2 (D - 1) < x).
    { pose proof (val_digits m1 e1) as [H1 _]. pose proof (val_digits m2 e2) as [_ H2].
      replace (Zpos (digits2_pos m1) + e1 - 1)%Z
        with ((D - 1) + (Zpos (digits2_pos m2) + e2))%Z in H1 by (unfold D; lia).
      rewrite pow2_add in H1.
      pose proof (pow2_pos (D - 1)) as HpD.
      assert (Hxv : x * val (Zpos m2) e2 = val (Zpos m1) e1) by (unfold x; field; lra).
      assert (pow2 (D - 1) * val (Zpos m2) e2 < x * val (Zpos m2) e2) by nra.
      apply (Rmult_lt_reg_r (val (Zpos m2) e2)); assumption. }
    assert (Hlt : pow2 (D - 1) < pow2 (Zdigits2 q + e')) by lra.
    apply pow2_lt_inv in Hlt.
    assert (He' : (e' <= fexp D)%Z) by (unfold e'; lia).
    rewrite fexp_eq in *. lia.
  - (* location *)
    unfold located. rewrite shr_m_of_loc, loc_of_shr_record_of_loc.
    split; [exact Hb|]. rewrite new_location_exact.
    unfold val. rewrite Hx, Hdec. split.
    + intros ->. rewrite Rdiv_0_l. ring.
    + intros Heq.
      assert (Hz : IZR r / IZR (Zpos m2) = 0) by nra.
      assert (Hz' : IZR r = 0).
      { replace (IZR r) with (IZR r / IZR (Zpos m2) * IZR (Zpos m2)) by (field; lra).
        rewrite Hz. ring. }
      apply eq_IZR. exact Hz'.
Qed.



Lemma pow2_neg (n : Z) : (0 <= n)%Z -> pow2 (- n) = / IZR (2 ^ n).
Proof.
  intros Hn. unfold pow2. rewrite powerRZ_neg'. fold (pow2 n).
  rewrite pow2_IZR by exact Hn. reflexivity.
Qed.



End Rounding.

(** ** The PID controller *)

Module PID.
Import Float32 Float32Order Servo.
Local Open Scope f32_scope.

(** [PID_Calculate], statement by statement, is the closed form. *)
Lemma PID_Calculate_step (pid : PID_Controller) (target current : float) :
  PID_Calculate pid target current = PID_step pid target current.
Proof.
  destruct pid as [kp ki kd e el i o omax omin].
  unfold PID_Calculate, PID_step, clamp.
  cbn -[add sub mul ltb].
  destruct (i + (target - current) >? omax); cbn -[add sub mul ltb].
  - destruct (omax <? omin); cbn -[add sub mul ltb];
      match goal with
      | |- context [if ?c >? omax then _ else _] =>
          destruct (c >? omax); cbn -[add sub mul ltb]
      end;
      match goal with
      | |- context [if ?c <? omin then _ else _] =>
          destruct (c <? omin); cbn -[add sub mul ltb]
      end; reflexivity.
  - destruct (i + (target - current) <? omin); cbn -[add sub mul ltb];
      match goal with
      | |- context [if ?c >? omax then _ else _] =>
          destruct (c >? omax); cbn -[add sub mul ltb]
      end;
      match goal with
      | |- context [if ?c <? omin then _ else _] =>
          destruct (c <? omin); cbn -[add sub mul ltb]
      end; reflexivity.
Qed.

(** C5.  For every PID state and every target and current value, one call
    of [PID_Calculate] computes [error = target - current], the new integral
    [clamp (integral + error, output_min, output_max)], the derivative
    [error - error_last] and the output
    [clamp (Kp*error + Ki*integral' + Kd*derivative, output_min, output_max)];
    it stores the error in [error] and [error_last] and the two clamped
    values in [integral] and [output], leaves gains and bounds alone, and
    returns the output. *)
Theorem PID_Calculate_formula (pid : PID_Controller) (target current : float) :
  let e := target - current in
  let i' := clamp (integral pid + e) (output_min pid) (output_max pid) in
  let derivative := e - error_last pid in
  let out := clamp (Kp pid * e + Ki pid * i' + Kd pid * derivative)
                   (output_min pid) (output_max pid) in
  PID_Calculate pid target current =
  ({| Kp := Kp pid; Ki := Ki pid; Kd := Kd pid; error := e; error_last := e;
      integral := i'; output := out; output_max := output_max pid;
      output_min := output_min pid |}, out).
Proof. cbv zeta. rewrite PID_Calculate_step. reflexivity. Qed.

(** With ordered bounds the clamp is the usual three-way choice. *)
Lemma clamp_cases (x lo hi : float) :
  leb lo hi = true ->
  clamp x lo hi = if x >? hi then hi else if x <? lo then lo else x.
Proof.
  intros Hb. unfold clamp. destruct (x >? hi); [|reflexivity].
  rewrite (leb_ltb_false _ _ Hb). reflexivity.
Qed.

(** A clamped number is within the bounds. *)
Lemma clamp_within (x lo hi : float) :
  leb lo hi = true -> is_nan x = false ->
  within lo hi (clamp x lo hi) = true.
Proof.
  intros Hb Hx. destruct (leb_not_nan _ _ Hb) as [Hlo Hhi].
  rewrite clamp_cases by exact Hb. unfold within.
  destruct (x >? hi) eqn:Hgt.
  - rewrite Hb, leb_refl by exact Hhi. reflexivity.
  - destruct (x <? lo) eqn:Hlt.
    + rewrite Hb, leb_refl by exact Hlo. reflexivity.
    + rewrite (ltb_false_leb x lo), (ltb_false_leb hi x) by assumption.
      reflexivity.
Qed.

(** A sum above the upper bound is replaced by the bound. *)
Lemma clamp_saturates (x lo hi : float) :
  leb lo hi = true -> (x >? hi) = true -> clamp x lo hi = hi.
Proof.
  intros Hb Hgt. rewrite clamp_cases by exact Hb. rewrite Hgt. reflexivity.
Qed.

(** C3 (amended).  For every PID state with [output_min <= output_max] and
    every target and current value for which neither the sum
    [integral + error] nor the weighted sum
    [Kp*error + Ki*integral' + Kd*derivative] is a NaN, after
    [PID_Calculate] the integral and the output, which is the value
    returned, lie in [output_min, output_max]; so the integral never exceeds
    [output_max], and it is exactly [output_max] whenever the sum
    [integral + error] exceeds it. *)
Theorem PID_Calculate_bounded (pid : PID_Controller) (target current : float) :
  let e := target - current in
  let lo := output_min pid in
  let hi := output_max pid in
  let i' := clamp (integral pid + e) lo hi in
  leb lo hi = true ->
  is_nan (integral pid + e) = false ->
  is_nan (Kp pid * e + Ki pid * i' + Kd pid * (e - error_last pid)) = false ->
  let pid' := fst (PID_Calculate pid target current) in
  within lo hi (integral pid') = true
  /\ within lo hi (output pid') = true
  /\ snd (PID_Calculate pid target current) = output pid'
  /\ (integral pid' >? hi) = false
  /\ ((integral pid + e >? hi) = true -> integral pid' = hi).
Proof.
  intros e lo hi i' Hb Hsum Hraw pid'. subst pid'.
  rewrite PID_Calculate_step. unfold PID_step. cbn [fst snd integral output].
  fold e lo hi. fold i'.
  assert (Hi : within lo hi i' = true) by (apply clamp_within; assumption).
  repeat split.
  - exact Hi.
  - apply clamp_within; assumption.
  - apply leb_ltb_false. unfold within in Hi.
    apply andb_true_iff in Hi as [_ Hi]. exact Hi.
  - intros Hgt. apply clamp_saturates; assumption.
Qed.

Lemma PID_Calculate_bounded_witness :
  let pid' := fst (PID_Calculate tuned (of_Z 320) (of_Z 200)) in
  within (of_Z (-10)) (of_Z 10) (integral pid') = true
  /\ within (of_Z (-10)) (of_Z 10) (output pid') = true
  /\ snd (PID_Calculate tuned (of_Z 320) (of_Z 200)) = output pid'
  /\ (integral pid' >? of_Z 10) = false
  /\ ((integral tuned + (of_Z 320 - of_Z 200) >? of_Z 10) = true ->
      integral pid' = of_Z 10).
Proof.
  apply (PID_Calculate_bounded tuned (of_Z 320) (of_Z 200)); reflexivity.
Defined.

Lemma stalled_forever (n : nat) : PID_ticks n stalled (of_Z 1) (of_Z 0) = stalled.
Proof.
  induction n as [|n IH]; [reflexivity|].
  cbn [PID_ticks].
  replace (fst (PID_Calculate stalled (of_Z 1) (of_Z 0))) with stalled
    by (vm_compute; reflexivity).
  exact IH.
Qed.

(** C3, as stated, fails twice over.  With the gains of [main_simple.c] and
    bounds of ten either way, a tick with target [FLT_MAX] and measurement
    [-FLT_MAX] leaves integral and output within the bounds, and the next,
    identical tick returns a NaN output (the derivative is infinity minus
    infinity).  And in the state [stalled], which satisfies the claim's
    hypotheses, every tick has the strictly positive error 1 and the integral
    stays at 2^24 for ever, strictly below [output_max] = 2^25. *)
Lemma PID_invariant_breaks_in_binary32 :
  (let lo := of_Z (-10) in
   let hi := of_Z 10 in
   let pid1 := fst (PID_Calculate tuned FLT_MAX (SFopp FLT_MAX)) in
   let pid2 := fst (PID_Calculate pid1 FLT_MAX (SFopp FLT_MAX)) in
   (output_min pid1 = lo /\ output_max pid1 = hi /\ leb lo hi = true
    /\ within lo hi (integral pid1) = true
    /\ within lo hi (output pid1) = true)
   /\ output pid2 = nan /\ within lo hi (output pid2) = false)
  /\ (let lo := output_min stalled in
      let hi := output_max stalled in
      (leb lo hi = true /\ within lo hi (integral stalled) = true
       /\ within lo hi (output stalled) = true)
      /\ (zero <? of_Z 1 - of_Z 0) = true
      /\ forall n,
           integral (PID_ticks n stalled (of_Z 1) (of_Z 0)) = of_Z 16777216
           /\ (integral (PID_ticks n stalled (of_Z 1) (of_Z 0)) <? hi) = true).
Proof.
  split.
  - vm_compute. repeat split.
  - cbv zeta. split; [vm_compute; repeat split|].
    split; [reflexivity|]. intros n. rewrite stalled_forever.
    vm_compute. split; reflexivity.
Qed.

End PID.

(** ** The servo outputs *)

Module ServoSafety.
Import Float32 Float32Order Servo.


Lemma limited_safe (v : Z) : duty_safe (limited v).
Proof.
  unfold limited, duty_safe.
  destruct (Z.ltb_spec v 24); [rewrite Z.gtb_ltb; cbn; lia|].
  rewrite Z.gtb_ltb. destruct (Z.ltb_spec 96 v); lia.
Qed.

Lemma Servo_Limitation_fields (s : servo_state) :
  Servo_Limitation s =
  {| Servo_Target1 := limited (Servo_Target1 s);
     Servo_Target2 := limited (Servo_Target2 s);
     TIMA1_CC_0 := TIMA1_CC_0 s; TIMA1_CC_1 := TIMA1_CC_1 s;
     timer_writes := timer_writes s |}.
Proof.
  destruct s as [t1 t2 c0 c1 w]. unfold Servo_Limitation, limited.
  cbn [Servo_Target1 Servo_Target2 set_Servo_Target1 set_Servo_Target2].
  destruct (t1 <? 24);
    cbn [Servo_Target1 Servo_Target2 set_Servo_Target1 set_Servo_Target2
         TIMA1_CC_0 TIMA1_CC_1 timer_writes];
    [destruct (24 >? 96) | destruct (t1 >? 96)];
    cbn [Servo_Target1 Servo_Target2 set_Servo_Target1 set_Servo_Target2
         TIMA1_CC_0 TIMA1_CC_1 timer_writes];
    (destruct (t2 <? 24);
     cbn [Servo_Target1 Servo_Target2 set_Servo_Target1 set_Servo_Target2
          TIMA1_CC_0 TIMA1_CC_1 timer_writes];
     [destruct (24 >? 96) | destruct (t2 >? 96)]);
    reflexivity.
Qed.

(** [Servo_Limitation] brings both stored targets into [24, 96] and does
    not touch the timer. *)
Lemma Servo_Limitation_clamps (s : servo_state) :
  let s' := Servo_Limitation s in
  duty_safe (Servo_Target1 s') /\ duty_safe (Servo_Target2 s')
  /\ TIMA1_CC_0 s' = TIMA1_CC_0 s /\ TIMA1_CC_1 s' = TIMA1_CC_1 s
  /\ timer_writes s' = timer_writes s.
Proof.
  cbv zeta. rewrite Servo_Limitation_fields. cbn.
  repeat split; apply limited_safe.
Qed.

Section AnyHelper.
Variable wild : float -> Z.

(** What [Set_Servo_Angle] sends to the timer is the unclamped value of
    [Angle_To_PWM]: the write comes first, [Servo_Limitation] afterwards
    repairs only the stored copies. *)
Lemma Set_Servo_Angle_writes_unclamped (angle : float) (s : servo_state) :
  let raw1 := Angle_To_PWM wild angle SERVO1_MIN_ANGLE SERVO1_MAX_ANGLE in
  let raw2 := Angle_To_PWM wild angle SERVO2_MIN_ANGLE SERVO2_MAX_ANGLE in
  (TIMA1_CC_0 (Set_Servo_Angle wild 1 angle s) = raw1
   /\ timer_writes (Set_Servo_Angle wild 1 angle s) = timer_writes s ++ [(0, raw1)])
  /\ (TIMA1_CC_1 (Set_Servo_Angle wild 2 angle s) = raw2
      /\ timer_writes (Set_Servo_Angle wild 2 angle s) = timer_writes s ++ [(1, raw2)]).
Proof.
  cbv zeta. unfold Set_Servo_Angle.
  pose proof (Servo_Limitation_clamps (Set_Servo_Angle_write wild 1 angle s))
    as (_ & _ & H0 & _ & Hw0).
  pose proof (Servo_Limitation_clamps (Set_Servo_Angle_write wild 2 angle s))
    as (_ & _ & _ & H1 & Hw1).
  cbv zeta in *. rewrite H0, H1, Hw0, Hw1. repeat split.
Qed.

(** A NaN angle passes [Clamp_Angle], turns the [float pwm] into a NaN, and
    the conversion C leaves undefined yields the duty. *)
Lemma Angle_To_PWM_nan (min_angle max_angle : float) :
  Angle_To_PWM wild nan min_angle max_angle = wild nan mod 65536.
Proof.
  unfold Angle_To_PWM, Clamp_Angle, pwm_of_angle.
  assert (Hs : sub nan min_angle = nan) by (destruct min_angle; reflexivity).
  cbn [ltb SFltb SFcompare nan]. fold nan.
  replace (nan <? min_angle)%f32 with false by (destruct min_angle; reflexivity).
  replace (nan >? max_angle)%f32 with false by (destruct max_angle; reflexivity).
  rewrite Hs. cbn [mul SFmul nan div SFdiv].
  replace (div nan (sub max_angle min_angle)) with nan by reflexivity.
  replace (add (of_Z SERVO_PWM_MIN) nan) with nan by reflexivity.
  reflexivity.
Qed.
End AnyHelper.

(** C2, the code at the failing input.  After [Servo_Init], the call
    [Set_Servo_Angle (1, NAN)] writes to compare channel 0 the value the
    undefined conversion of a NaN yields, whatever it is, and clamps only the
    stored [Servo_Target1] afterwards; with a helper that returns 0 the
    timer holds the duty 0, outside [24, 96], while [Servo_Target1] reads
    24. *)
Theorem Set_Servo_Angle_nan_reaches_timer :
  (forall wild,
     let s := Set_Servo_Angle wild 1 nan (Servo_Init servo_reset) in
     TIMA1_CC_0 s = wild nan mod 65536
     /\ timer_writes s = [(0, 60); (1, 60); (0, wild nan mod 65536)]
     /\ duty_safe (Servo_Target1 s))
  /\ (let s := Set_Servo_Angle f2uiz_nan_zero 1 nan (Servo_Init servo_reset) in
      TIMA1_CC_0 s = 0 /\ ~ duty_safe (TIMA1_CC_0 s) /\ Servo_Target1 s = 24).
Proof.
  split.
  - intros wild s. subst s.
    destruct (Set_Servo_Angle_writes_unclamped wild nan (Servo_Init servo_reset))
      as [[H0 Hw] _].
    rewrite H0, Hw, Angle_To_PWM_nan. repeat split.
    + unfold Set_Servo_Angle.
      apply (Servo_Limitation_clamps (Set_Servo_Angle_write wild 1 nan _)).
    + unfold Set_Servo_Angle.
      apply (Servo_Limitation_clamps (Set_Servo_Angle_write wild 1 nan _)).
  - vm_compute. repeat split; try discriminate. intros [H _]. apply H. reflexivity.
Qed.

Lemma limited_fixed (v : Z) : duty_safe v -> limited v = v.
Proof.
  unfold limited, duty_safe. intros Hv.
  destruct (Z.ltb_spec v 24); [lia|].
  rewrite Z.gtb_ltb. destruct (Z.ltb_spec 96 v); [lia|reflexivity].
Qed.

(** [Servo_Limitation] is a repair of the stored targets only: whatever
    the state, both targets end within [24, 96], a target that was within
    the range is kept, the two compare registers and the list of timer
    writes are what they were, and a second call changes nothing. *)
Theorem Servo_Limitation_repairs_targets (s : servo_state) :
  let s' := Servo_Limitation s in
  duty_safe (Servo_Target1 s') /\ duty_safe (Servo_Target2 s')
  /\ (duty_safe (Servo_Target1 s) -> Servo_Target1 s' = Servo_Target1 s)
  /\ (duty_safe (Servo_Target2 s) -> Servo_Target2 s' = Servo_Target2 s)
  /\ TIMA1_CC_0 s' = TIMA1_CC_0 s /\ TIMA1_CC_1 s' = TIMA1_CC_1 s
  /\ timer_writes s' = timer_writes s
  /\ Servo_Limitation s' = s'.
Proof.
  cbv zeta. rewrite !Servo_Limitation_fields.
  cbn [Servo_Target1 Servo_Target2 TIMA1_CC_0 TIMA1_CC_1 timer_writes].
  split; [apply limited_safe|]. split; [apply limited_safe|].
  split; [apply limited_fixed|]. split; [apply limited_fixed|].
  split; [reflexivity|]. split; [reflexivity|]. split; [reflexivity|].
  rewrite !(limited_fixed (limited _)) by apply limited_safe. reflexivity.
Qed.

(** What [Set_Servo_Angle] sends to the timer is the value of
    [Angle_To_PWM] as it is: the write comes first, and the clamp of
    [Servo_Limitation] that follows reaches the stored target only, not the
    compare register.  A servo number other than 1 and 2 writes nothing. *)
Theorem Set_Servo_Angle_timer_unclamped (wild : float -> Z) (servo_num : Z)
    (angle : float) (s : servo_state) :
  let s' := Set_Servo_Angle wild servo_num angle s in
  let raw1 := Angle_To_PWM wild angle SERVO1_MIN_ANGLE SERVO1_MAX_ANGLE in
  let raw2 := Angle_To_PWM wild angle SERVO2_MIN_ANGLE SERVO2_MAX_ANGLE in
  (servo_num = 1 ->
   TIMA1_CC_0 s' = raw1 /\ timer_writes s' = timer_writes s ++ [(0, raw1)]
   /\ Servo_Target1 s' = limited raw1)
  /\ (servo_num = 2 ->
      TIMA1_CC_1 s' = raw2 /\ timer_writes s' = timer_writes s ++ [(1, raw2)]
      /\ Servo_Target2 s' = limited raw2)
  /\ (servo_num <> 1 -> servo_num <> 2 ->
      timer_writes s' = timer_writes s
      /\ TIMA1_CC_0 s' = TIMA1_CC_0 s /\ TIMA1_CC_1 s' = TIMA1_CC_1 s).
Proof.
  cbv zeta. unfold Set_Servo_Angle. rewrite Servo_Limitation_fields.
  cbn [Servo_Target1 Servo_Target2 TIMA1_CC_0 TIMA1_CC_1 timer_writes].
  unfold Set_Servo_Angle_write. split; [|split].
  - intros ->. cbn [Z.eqb Pos.eqb]. repeat split.
  - intros ->. cbn [Z.eqb Pos.eqb]. repeat split.
  - intros H1 H2.
    replace (servo_num =? 1) with false by (symmetry; apply Z.eqb_neq; exact H1).
    replace (servo_num =? 2) with false by (symmetry; apply Z.eqb_neq; exact H2).
    repeat split.
Qed.

End ServoSafety.

(** ** The angle-to-duty mapper *)

Module Mapper.
Import Float32 Float32Order Rounding Servo.

(** A number of the format has an exponent of the format. *)
Lemma valid_exponent (s : bool) (m : positive) (e : Z) :
  valid (S754_finite s m e) = true ->
  SpecFloat.fexp prec emax (Zpos (digits2_pos m) + e) = e /\ -149 <= e.
Proof.
  unfold valid, valid_binary, bounded, canonical_mantissa.
  intros [H _]%andb_true_iff. apply Z.eqb_eq in H. split; [exact H|].
  rewrite <- H. change (SpecFloat.fexp prec emax ?x) with (fexp x).
  rewrite fexp_eq. lia.
Qed.




Section Ends.
Variable wild : float -> Z.




Lemma Clamp_Angle_outside (angle lo hi : float) :
  ltb lo hi = true ->
  (ltb angle lo = true -> Clamp_Angle angle lo hi = lo)
  /\ (ltb hi angle = true -> Clamp_Angle angle lo hi = hi).
Proof.
  intros Hlt. unfold Clamp_Angle. split; intros H.
  - rewrite H. reflexivity.
  - rewrite H.
    destruct (ltb angle lo) eqn:Hl; [|reflexivity].
    pose proof (ltb_trans _ _ _ (ltb_trans _ _ _ H Hl) Hlt) as Habs.
    rewrite ltb_irrefl in Habs. discriminate Habs.
Qed.

End Ends.

(** The two calibrations of [Set_Servo_Angle]: an angle below the range,
    however far, negative infinity included, gives the duty 24, and one
    above it, up to positive infinity, the duty 96. *)
Theorem Angle_To_PWM_beyond_range (wild : float -> Z) (angle : float) :
  (ltb angle SERVO1_MIN_ANGLE = true ->
   Angle_To_PWM wild angle SERVO1_MIN_ANGLE SERVO1_MAX_ANGLE = 24)
  /\ (ltb SERVO1_MAX_ANGLE angle = true ->
      Angle_To_PWM wild angle SERVO1_MIN_ANGLE SERVO1_MAX_ANGLE = 96)
  /\ (ltb angle SERVO2_MIN_ANGLE = true ->
      Angle_To_PWM wild angle SERVO2_MIN_ANGLE SERVO2_MAX_ANGLE = 24)
  /\ (ltb SERVO2_MAX_ANGLE angle = true ->
      Angle_To_PWM wild angle SERVO2_MIN_ANGLE SERVO2_MAX_ANGLE = 96).
Proof.
  destruct (Clamp_Angle_outside angle SERVO1_MIN_ANGLE SERVO1_MAX_ANGLE eq_refl)
    as [H1 H2].
  destruct (Clamp_Angle_outside angle SERVO2_MIN_ANGLE SERVO2_MAX_ANGLE eq_refl)
    as [H3 H4].
  repeat split; intros H; unfold Angle_To_PWM;
    rewrite ?(H1 H), ?(H2 H), ?(H3 H), ?(H4 H); reflexivity.
Qed.

End Mapper.

(** ** The duty range

    The affine map of [Angle_To_PWM], operation by operation, for the two
    calibrations of [Set_Servo_Angle]: with the angle clamped each
    intermediate result stays between two numbers of the format, and the
    duty within [24, 96], unless the angle is a NaN. *)

Module DutyRange.
Import Float32 Float32Order Rounding Servo ServoSafety.
Local Open Scope R_scope.

(** What a number between two bounds is. *)
Lemma between_cases (a b : R) (x : float) :
  between a b x ->
  (x = zero /\ a <= 0 <= b)
  \/ exists m e, x = S754_finite false m e /\ a <= val (Zpos m) e <= b.
Proof.
  intros (m & e & -> & Hm & He & Hv). destruct m as [|p|p]; [| |lia].
  - left. rewrite val_0 in Hv. split; [reflexivity|exact Hv].
  - right. exists p, e. cbn [finish].
    replace (e <=? emax - prec)%Z with true
      by (symmetry; apply Z.leb_le; unfold emax, prec; lia).
    split; [reflexivity|exact Hv].
Qed.

(** The bounds may be replaced by equal ones. *)
Lemma between_eq (a b a' b' : R) (x : float) :
  a = a' -> b = b' -> between a b x -> between a' b' x.
Proof. intros -> ->. exact (fun H => H). Qed.

(** Alignment to a smaller exponent keeps the value. *)
Lemma aligned_val (m : positive) (e ez : Z) :
  (ez <= e)%Z -> val (Zpos (fst (shl_align m e ez))) ez = val (Zpos m) e.
Proof.
  intros Hle. pose proof (shl_align_spec m e ez) as Hs.
  destruct (shl_align m e ez) as [mz ez']. cbn [fst].
  destruct Hs as (Hez & Hmz & _).
  assert (ez' = ez) by lia. subst ez'.
  rewrite Hmz, val_shift by lia. f_equal. lia.
Qed.

(** Sum of two positive numbers. *)
Lemma add_between (mx my : positive) (ex ey : Z) (a b : R) :
  rep a -> rep b ->
  a <= val (Zpos mx) ex + val (Zpos my) ey <= b ->
  between a b (add (S754_finite false mx ex) (S754_finite false my ey)).
Proof.
  intros Ha Hb Hv. unfold add. cbn [SFadd cond_Zopp].
  apply binary_normalize_between; [lia|assumption|assumption|].
  rewrite val_add, !aligned_val by lia. exact Hv.
Qed.

(** Difference of two positive numbers, the larger first. *)
Lemma sub_between (mx my : positive) (ex ey : Z) (a b : R) :
  rep a -> rep b ->
  val (Zpos my) ey <= val (Zpos mx) ex ->
  a <= val (Zpos mx) ex - val (Zpos my) ey <= b ->
  between a b (sub (S754_finite false mx ex) (S754_finite false my ey)).
Proof.
  intros Ha Hb Hord Hv. unfold sub. cbn [SFsub cond_Zopp].
  assert (Hd : val (Zpos (fst (shl_align mx ex (Z.min ex ey)))
                    - Zpos (fst (shl_align my ey (Z.min ex ey)))) (Z.min ex ey)
               = val (Zpos mx) ex - val (Zpos my) ey)
    by (rewrite val_sub, !aligned_val by lia; reflexivity).
  apply binary_normalize_between; [|assumption|assumption|rewrite Hd; exact Hv].
  destruct (Z.le_gt_cases 0 (Zpos (fst (shl_align mx ex (Z.min ex ey)))
                    - Zpos (fst (shl_align my ey (Z.min ex ey))))) as [|Hneg];
    [assumption|].
  exfalso. set (z := (Zpos (fst (shl_align mx ex (Z.min ex ey)))
                    - Zpos (fst (shl_align my ey (Z.min ex ey))))%Z) in *.
  assert (Hz : val z (Z.min ex ey) <= val (-1) (Z.min ex ey)) by (apply val_le; lia).
  unfold val at 2 in Hz. pose proof (pow2_pos (Z.min ex ey)). lra.
Qed.

(** A positive constant plus a non-negative number. *)
Lemma add_const_between (a b : R) (x : float) (m : positive) (e : Z) :
  between a b x -> (e <= 104)%Z ->
  rep (val (Zpos m) e + a) -> rep (val (Zpos m) e + b) ->
  between (val (Zpos m) e + a) (val (Zpos m) e + b)
          (add (S754_finite false m e) x)
  /\ between (val (Zpos m) e + a) (val (Zpos m) e + b)
             (add x (S754_finite false m e)).
Proof.
  intros Hx He Ha Hb.
  destruct (between_cases _ _ _ Hx) as [[-> H0]|(mx & ex & -> & Hv)].
  - assert (H : between (val (Zpos m) e + a) (val (Zpos m) e + b) (S754_finite false m e)).
    { exists (Zpos m), e. cbn [finish].
      replace (e <=? emax - prec)%Z with true
        by (symmetry; apply Z.leb_le; unfold emax, prec; lia).
      split; [reflexivity|]. split; [lia|]. split; [exact He|lra]. }
    split; exact H.
  - split; apply add_between; try assumption; lra.
Qed.

(** Product with 72. *)
Lemma mul72_between (a b : R) (x : float) :
  between a b x -> rep (72 * a) -> rep (72 * b) ->
  between (72 * a) (72 * b) (mul x c72).
Proof.
  intros Hx Ha Hb.
  destruct (between_cases _ _ _ Hx) as [[-> H0]|(m & e & -> & Hv)].
  - apply between_zero. lra.
  - unfold mul, c72. cbn [SFmul xorb].
    set (M := (m * 9437184)%positive).
    assert (Hval : val (Zpos M) (e + -17) = 72 * val (Zpos m) e).
    { replace (Zpos M) with (Zpos m * 72 * 2 ^ 17)%Z by (unfold M; lia).
      rewrite val_shift by lia. replace (e + -17 + 17)%Z with e by lia.
      unfold val. rewrite mult_IZR. ring. }
    apply (round_aux_between _ _ _ (val (Zpos M) (e + -17))); try assumption; [lia| | |].
    + rewrite Zdigits2_pos, fexp_eq.
      pose proof (digits2_pos_bounds M) as [_ Hhi].
      destruct (Z.lt_ge_cases (Zpos (digits2_pos M)) 24) as [Hlt|]; [|lia].
      assert (2 ^ Zpos (digits2_pos M) <= 2 ^ 23)%Z by (apply Z.pow_le_mono_r; lia).
      unfold M in *. lia.
    + apply located_exact.
    + rewrite Hval. lra.
Qed.

(** Quotient of a non-negative number by a positive one. *)
Lemma div_between (a b : R) (x : float) (m : positive) (e : Z) :
  between a b x ->
  rep (a / val (Zpos m) e) -> rep (b / val (Zpos m) e) ->
  between (a / val (Zpos m) e) (b / val (Zpos m) e)
          (div x (S754_finite false m e)).
Proof.
  intros Hx Ha Hb. pose proof (val_pos m e) as Hd.
  assert (Hmono : forall u w, u <= w -> u / val (Zpos m) e <= w / val (Zpos m) e).
  { intros u w Huw. apply Rmult_le_compat_r; [|exact Huw].
    apply Rlt_le, Rinv_0_lt_compat. exact Hd. }
  destruct (between_cases _ _ _ Hx) as [[-> [H0 H1]]|(mx & ex & -> & [Hv0 Hv1])].
  - apply between_zero.
    replace 0 with (0 / val (Zpos m) e) by (unfold Rdiv; ring).
    split; apply Hmono; assumption.
  - unfold div. cbn [SFdiv xorb].
    destruct (div_core_located mx m ex e) as (q & e' & l & -> & _ & Hq & Hdig & Hloc).
    apply (round_aux_between _ _ _ (val (Zpos mx) ex / val (Zpos m) e));
      try assumption.
    split; apply Hmono; assumption.
Qed.

(** A number of the format is on the grid. *)
Lemma valid_grid (s : bool) (m : positive) (e : Z) :
  valid (S754_finite s m e) = true -> grid (Zpos m) e /\ (e <= 104)%Z.
Proof.
  unfold valid, valid_binary, bounded, canonical_mantissa.
  intros [Hc He]%andb_true_iff. apply Z.eqb_eq in Hc. apply Z.leb_le in He.
  change (SpecFloat.fexp prec emax ?x) with (fexp x) in Hc. rewrite fexp_eq in Hc.
  split; [|exact He].
  pose proof (digits2_pos_bounds m) as [Hlo Hhi]. unfold grid.
  destruct (Z.eq_dec (Zpos (digits2_pos m)) 24%Z) as [H24|Hn24].
  - left. rewrite H24 in Hlo, Hhi. lia.
  - right. assert (Hd : (Zpos (digits2_pos m) <= 23)%Z) by lia.
    assert (2 ^ Zpos (digits2_pos m) <= 2 ^ 23)%Z by (apply Z.pow_le_mono_r; lia).
    lia.
Qed.

(** The order of two positive numbers of the format is the order of their
    values. *)
Lemma leb_val (m1 m2 : positive) (e1 e2 : Z) :
  valid (S754_finite false m1 e1) = true ->
  valid (S754_finite false m2 e2) = true ->
  leb (S754_finite false m1 e1) (S754_finite false m2 e2) = true ->
  val (Zpos m1) e1 <= val (Zpos m2) e2.
Proof.
  intros [Hg1 _]%valid_grid [Hg2 _]%valid_grid.
  unfold leb, SFleb. cbn [SFcompare].
  destruct (Z.compare_spec e1 e2) as [->|Hlt|Hgt].
  - change (Pos.compare_cont Eq m1 m2) with (m1 ?= m2)%positive.
    destruct (Pos.compare_spec m1 m2) as [->|Hm|Hm]; intros H; try discriminate H.
    + lra.
    + apply val_le. lia.
  - intros _.
    assert (H1 : (Zpos m1 < 2 ^ 24 /\ -149 <= e1)%Z)
      by (destruct Hg1 as [[? ?]|[? ?]]; lia).
    assert (H2 : (2 ^ 23 <= Zpos m2)%Z) by (destruct Hg2 as [[? ?]|[? ?]]; lia).
    destruct (grid_gap (Zpos m2) e2 (Zpos m1) e1) as [_ H]; [left; destruct Hg2 as [[? ?]|[? ?]]; lia|lia|lia|].
    apply H. rewrite val_succ.
    apply Rlt_le_trans with (val (2 ^ 24) e1).
    + unfold val. apply Rmult_lt_compat_r; [apply pow2_pos|]. apply IZR_lt. lia.
    + apply Rle_trans with (val (2 ^ 23) e2).
      * unfold val. rewrite <- !pow2_IZR, <- !pow2_add by lia. apply pow2_le. lia.
      * pose proof (val_le _ _ e2 H2). pose proof (pow2_pos e2). lra.
  - intros H. discriminate H.
Qed.

(** The clamped angle, for a calibration of two positive numbers: a
    positive number of the format between the two. *)
Lemma Clamp_Angle_between (angle : float) (ml mh : positive) (el eh : Z) :
  let lo := S754_finite false ml el in
  let hi := S754_finite false mh eh in
  valid lo = true -> valid hi = true -> ltb lo hi = true ->
  valid angle = true -> is_nan angle = false ->
  exists mc ec,
    Clamp_Angle angle lo hi = S754_finite false mc ec
    /\ val (Zpos ml) el <= val (Zpos mc) ec <= val (Zpos mh) eh.
Proof.
  intros lo hi Hvlo Hvhi Hlt Hva Hnan.
  assert (Hlh : val (Zpos ml) el <= val (Zpos mh) eh)
    by (apply leb_val; [assumption|assumption|apply ltb_leb; exact Hlt]).
  unfold Clamp_Angle.
  destruct (ltb angle lo) eqn:H1; [exists ml, el; split; [reflexivity|lra]|].
  destruct (ltb hi angle) eqn:H2; [exists mh, eh; split; [reflexivity|lra]|].
  apply ltb_false_leb in H1; [|exact Hnan|reflexivity].
  apply ltb_false_leb in H2; [|reflexivity|exact Hnan].
  destruct angle as [sa|sa| |sa ma ea]; try discriminate Hnan.
  - destruct sa; discriminate H1.
  - destruct sa; [discriminate H1|discriminate H2].
  - destruct sa; [discriminate H1|].
    exists ma, ea. split; [reflexivity|].
    split; apply leb_val; assumption.
Qed.

(** The integral part of a number between two bounds. *)
Lemma trunc_between (a b : R) (x : float) (A B : Z) :
  between a b x -> IZR A <= a -> b < IZR B + 1 ->
  exists z, trunc x = Some z /\ (A <= z <= B)%Z.
Proof.
  intros Hx HA HB.
  assert (Hint : forall z : Z, IZR A < IZR z + 1 -> IZR z < IZR B + 1 -> (A <= z <= B)%Z).
  { intros z H1 H2. rewrite <- plus_IZR in H1, H2. apply lt_IZR in H1, H2. lia. }
  destruct (between_cases _ _ _ Hx) as [[-> [H0 H1]]|(m & e & -> & [Hv0 Hv1])].
  - exists 0%Z. split; [reflexivity|]. apply Hint; lra.
  - cbn [trunc cond_Zopp]. eexists. split; [reflexivity|].
    destruct (Z.le_gt_cases 0 e) as [He|He].
    + rewrite Z.shiftl_mul_pow2 by exact He.
      assert (Hv : val (Zpos m) e = IZR (Zpos m * 2 ^ e)).
      { unfold val. rewrite mult_IZR, pow2_IZR by exact He. reflexivity. }
      apply Hint; lra.
    + rewrite Z.shiftl_div_pow2 by lia.
      assert (Hp : (0 < 2 ^ (- e))%Z) by (apply Z.pow_pos_nonneg; lia).
      pose proof (Z.div_mod (Zpos m) (2 ^ (- e)) ltac:(lia)) as Hdm.
      pose proof (Z.mod_pos_bound (Zpos m) (2 ^ (- e)) Hp) as Hmod.
      set (z := (Zpos m / 2 ^ (- e))%Z) in *.
      assert (Hz : IZR z <= val (Zpos m) e < IZR z + 1).
      { assert (H1 : val (z * 2 ^ (- e)) e = IZR z).
        { rewrite val_shift by lia. replace (e + - e)%Z with 0%Z by lia.
          unfold val. change (pow2 0) with 1. ring. }
        assert (H2 : val ((z + 1) * 2 ^ (- e)) e = IZR z + 1).
        { rewrite val_shift by lia. replace (e + - e)%Z with 0%Z by lia.
          unfold val. change (pow2 0) with 1. rewrite plus_IZR. ring. }
        split.
        - rewrite <- H1. apply val_le. lia.
        - rewrite <- H2. unfold val.
          apply Rmult_lt_compat_r; [apply pow2_pos|]. apply IZR_lt. lia. }
      apply Hint; lra.
Qed.

Ltac pow2_constants :=
  repeat match goal with
         | |- context [pow2 (Zneg ?p)] =>
             let v := eval vm_compute in (2 ^ Zpos p)%Z in
             change (pow2 (Zneg p)) with (pow2 (- Zpos p));
             rewrite (pow2_neg (Zpos p)) by lia;
             change (2 ^ Zpos p)%Z with v
         | |- context [pow2 (Zpos ?p)] =>
             let v := eval vm_compute in (2 ^ Zpos p)%Z in
             rewrite (pow2_IZR (Zpos p)) by lia;
             change (2 ^ Zpos p)%Z with v
         | |- context [pow2 0] => change (pow2 0) with 1
         end.

Ltac rep_constant M E :=
  exists M, E; split; [lia|]; unfold val; pow2_constants; lra.

Lemma val_c24 : val 12582912 (-19) = 24.
Proof. unfold val. pow2_constants. lra. Qed.

Lemma val_half : val 8388608 (-24) = / 2.
Proof. unfold val. pow2_constants. lra. Qed.

Section Calibration.
Variable wild : float -> Z.
Variables ml mh md : positive.
Variables el eh ed : Z.
Variable span : Z.

Hypothesis lo_valid : valid (S754_finite false ml el) = true.
Hypothesis hi_valid : valid (S754_finite false mh eh) = true.
Hypothesis lo_below_hi : ltb (S754_finite false ml el) (S754_finite false mh eh) = true.
Hypothesis span_float :
  sub (S754_finite false mh eh) (S754_finite false ml el) = S754_finite false md ed.
Hypothesis span_exact :
  val (Zpos mh) eh - val (Zpos ml) el = IZR span /\ val (Zpos md) ed = IZR span.
Hypothesis span_small : (0 < span /\ 72 * span < 2 ^ 24)%Z.

(** For a calibration of two positive numbers whose difference is an
    integer [span] and representable like [72 * span], every angle that is
    not a NaN maps to a duty within [24, 96]. *)
Lemma Angle_To_PWM_within (angle : float) :
  valid angle = true -> is_nan angle = false ->
  duty_safe (Angle_To_PWM wild angle (S754_finite false ml el)
                          (S754_finite false mh eh)).
Proof.
  intros Hva Hnan. destruct span_exact as [Hs1 Hs2].
  assert (Hsp : 0 < IZR span) by (apply IZR_lt; lia).
  destruct (Clamp_Angle_between angle ml mh el eh lo_valid hi_valid lo_below_hi
              Hva Hnan) as (mc & ec & Hc & Hlo & Hhi).
  unfold Angle_To_PWM, pwm_of_angle. rewrite Hc, span_float.
  change (of_Z SERVO_PWM_MIN) with (S754_finite false 12582912 (-19)).
  change (of_Z (SERVO_PWM_MAX - SERVO_PWM_MIN)) with c72.
  change half with (S754_finite false 8388608 (-24)).
  (* angle - min_angle *)
  assert (H1 : between 0 (IZR span)
                 (sub (S754_finite false mc ec) (S754_finite false ml el))).
  { apply sub_between; [apply rep_0| |exact Hlo|lra].
    exists span, 0%Z. split; [lia|]. unfold val. change (pow2 0) with 1. ring. }
  (* ... * 72 *)
  apply mul72_between in H1.
  2:{ rewrite Rmult_0_r. apply rep_0. }
  2:{ exists (72 * span)%Z, 0%Z. split; [lia|]. unfold val. change (pow2 0) with 1.
      rewrite mult_IZR. ring. }
  (* ... / (max_angle - min_angle) *)
  apply (div_between _ _ _ md ed) in H1.
  2:{ rewrite Rmult_0_r. unfold Rdiv. rewrite Rmult_0_l. apply rep_0. }
  2:{ rewrite Hs2. replace (72 * IZR span / IZR span) with 72 by (field; lra).
      rep_constant 72%Z 0%Z. }
  apply (between_eq _ _ 0 72) in H1;
    [|unfold Rdiv; ring|rewrite Hs2; field; lra].
  (* 24 + ... *)
  apply (add_const_between _ _ _ 12582912 (-19)) in H1; [|lia| |].
  2:{ rewrite val_c24. rep_constant 24%Z 0%Z. }
  2:{ rewrite val_c24. rep_constant 96%Z 0%Z. }
  destruct H1 as [H1 _]. rewrite val_c24 in H1.
  (* ... + 0.5 *)
  apply (add_const_between _ _ _ 8388608 (-24)) in H1; [|lia| |].
  2:{ rewrite val_half. rep_constant 49%Z (-1)%Z. }
  2:{ rewrite val_half. rep_constant 193%Z (-1)%Z. }
  destruct H1 as [_ H1]. rewrite val_half in H1.
  (* the conversion *)
  destruct (trunc_between _ _ _ 24 96 H1) as (z & Hz & Hr); [lra|lra|].
  unfold to_uint16. rewrite Hz.
  replace ((0 <=? z) && (z <? 65536))%Z with true
    by (symmetry; apply andb_true_iff; split; [apply Z.leb_le|apply Z.ltb_lt]; lia).
  exact Hr.
Qed.
End Calibration.

(** The two calibrations of [Set_Servo_Angle] in [Angle_To_PWM_within]. *)
Lemma Angle_To_PWM_servo1 (wild : float -> Z) (angle : float) :
  valid angle = true -> is_nan angle = false ->
  duty_safe (Angle_To_PWM wild angle SERVO1_MIN_ANGLE SERVO1_MAX_ANGLE).
Proof.
  intros Hva Hnan.
  apply (Angle_To_PWM_within wild 9437184 11206656 10616832 (-20) (-16) (-16) 162);
    try reflexivity; try assumption; [|lia].
  split; unfold val; pow2_constants; lra.
Qed.

Lemma Angle_To_PWM_servo2 (wild : float -> Z) (angle : float) :
  valid angle = true -> is_nan angle = false ->
  duty_safe (Angle_To_PWM wild angle SERVO2_MIN_ANGLE SERVO2_MAX_ANGLE).
Proof.
  intros Hva Hnan.
  apply (Angle_To_PWM_within wild 14155776 8404992 15925248 (-20) (-15) (-16) 243);
    try reflexivity; try assumption; [|lia].
  split; unfold val; pow2_constants; lra.
Qed.

(** For both calibrations of [Set_Servo_Angle], every angle that is not a
    NaN, the infinities included, maps to a duty within [24, 96]. *)
Theorem Angle_To_PWM_duty_safe (wild : float -> Z) (angle : float) :
  valid angle = true -> is_nan angle = false ->
  duty_safe (Angle_To_PWM wild angle SERVO1_MIN_ANGLE SERVO1_MAX_ANGLE)
  /\ duty_safe (Angle_To_PWM wild angle SERVO2_MIN_ANGLE SERVO2_MAX_ANGLE).
Proof.
  intros Hva Hnan. split.
  - apply Angle_To_PWM_servo1; assumption.
  - apply Angle_To_PWM_servo2; assumption.
Qed.

(** [Set_Servo_Angle] with an angle that is not a NaN: what it appends to
    the timer's writes is within [24, 96], for every [servo_num], and it
    leaves compare registers and stored targets within [24, 96]. *)
Theorem Set_Servo_Angle_duty_safe (wild : float -> Z) (servo_num : Z)
    (angle : float) (s : servo_state) :
  valid angle = true -> is_nan angle = false ->
  let s' := Set_Servo_Angle wild servo_num angle s in
  (exists new, timer_writes s' = timer_writes s ++ new
               /\ Forall (fun w => duty_safe (snd w)) new)
  /\ (duty_safe (TIMA1_CC_0 s) -> duty_safe (TIMA1_CC_0 s'))
  /\ (duty_safe (TIMA1_CC_1 s) -> duty_safe (TIMA1_CC_1 s'))
  /\ duty_safe (Servo_Target1 s') /\ duty_safe (Servo_Target2 s').
Proof.
  intros Hva Hnan s'.
  pose proof (Angle_To_PWM_servo1 wild angle Hva Hnan) as H1.
  pose proof (Angle_To_PWM_servo2 wild angle Hva Hnan) as H2.
  destruct (Servo_Limitation_clamps (Set_Servo_Angle_write wild servo_num angle s))
    as (Ht1 & Ht2 & Hc0 & Hc1 & Hw).
  cbv zeta in Ht1, Ht2, Hc0, Hc1, Hw. fold (Set_Servo_Angle wild servo_num angle s) in *.
  fold s' in Ht1, Ht2, Hc0, Hc1, Hw.
  rewrite Hc0, Hc1, Hw. unfold Set_Servo_Angle_write.
  destruct (servo_num =? 1)%Z; [|destruct (servo_num =? 2)%Z];
    cbn [timer_writes TIMA1_CC_0 TIMA1_CC_1 DL_Timer_setCaptureCompareValue
         set_Servo_Target1 set_Servo_Target2 Z.eqb Pos.eqb];
    (split; [|auto]).
  - eexists. split; [reflexivity|]. constructor; [exact H1|constructor].
  - eexists. split; [reflexivity|]. constructor; [exact H2|constructor].
  - exists nil. split; [symmetry; apply app_nil_r|constructor].
Qed.

Lemma Angle_To_PWM_duty_safe_witness :
  duty_safe (Angle_To_PWM f2uiz_nan_zero infinity SERVO1_MIN_ANGLE SERVO1_MAX_ANGLE)
  /\ duty_safe (Angle_To_PWM f2uiz_nan_zero infinity SERVO2_MIN_ANGLE SERVO2_MAX_ANGLE).
Proof. apply (Angle_To_PWM_duty_safe f2uiz_nan_zero infinity); reflexivity. Defined.

Lemma Set_Servo_Angle_duty_safe_witness :
  let s := Servo_Init servo_reset in
  let s' := Set_Servo_Angle f2uiz_nan_zero 2 (of_Z 300) s in
  (exists new, timer_writes s' = timer_writes s ++ new
               /\ Forall (fun w => duty_safe (snd w)) new)
  /\ (duty_safe (TIMA1_CC_0 s) -> duty_safe (TIMA1_CC_0 s'))
  /\ (duty_safe (TIMA1_CC_1 s) -> duty_safe (TIMA1_CC_1 s'))
  /\ duty_safe (Servo_Target1 s') /\ duty_safe (Servo_Target2 s').
Proof.
  apply (Set_Servo_Angle_duty_safe f2uiz_nan_zero 2 (of_Z 300)
           (Servo_Init servo_reset)); reflexivity.
Defined.

End DutyRange.

(** ** The accuracy of the angle mapper

    The affine map of [Angle_To_PWM] against the exact one: each binary32
    operation moves the value by at most one unit of its last place, and the
    conversion of [pwm + 0.5f] rounds [pwm] to the nearest integer. *)

Module Accuracy.
Import Float32 Float32Order Rounding Servo ServoSafety DutyRange.
Local Open Scope R_scope.
















Section Calibrated.
Variable wild : float -> Z.
Variables ml mh md : positive.
Variables el eh ed : Z.
Variables span L kp : Z.

Hypothesis lo_valid : valid (S754_finite false ml el) = true.
Hypothesis hi_valid : valid (S754_finite false mh eh) = true.
Hypothesis lo_below_hi : ltb (S754_finite false ml el) (S754_finite false mh eh) = true.
Hypothesis span_float :
  sub (S754_finite false mh eh) (S754_finite false ml el) = S754_finite false md ed.
Hypothesis span_exact :
  val (Zpos mh) eh - val (Zpos ml) el = IZR span /\ val (Zpos md) ed = IZR span.
Hypothesis span_positive : (0 < span)%Z.
Hypothesis lo_round : val (Zpos ml) el = val L eh.
Hypothesis product_unit :
  (-149 <= kp <= 104)%Z /\ 72 * IZR span <= val (2 ^ 24 - 1) kp
  /\ pow2 kp <= IZR span * pow2 (-16).

End Calibrated.






(** At 90 degrees on the first servo the exact affine value is 60, and so
    is the duty. *)
Example Angle_To_PWM_at_90 (wild : float -> Z) :
  Angle_To_PWM wild (of_Z 90) SERVO1_MIN_ANGLE SERVO1_MAX_ANGLE = 60%Z
  /\ 24 + (real (Clamp_Angle (of_Z 90) SERVO1_MIN_ANGLE SERVO1_MAX_ANGLE)
           - real SERVO1_MIN_ANGLE) * 72
          / (real SERVO1_MAX_ANGLE - real SERVO1_MIN_ANGLE) = 60.
Proof.
  split; [reflexivity|].
  change (Clamp_Angle (of_Z 90) SERVO1_MIN_ANGLE SERVO1_MAX_ANGLE)
    with (S754_finite false 11796480 (-17)).
  change SERVO1_MIN_ANGLE with (S754_finite false 9437184 (-20)).
  change SERVO1_MAX_ANGLE with (S754_finite false 11206656 (-16)).
  cbn [real]. unfold val. pow2_constants. lra.
Qed.


End Accuracy.

(** ** Text and fields on the wire

    [UART_0_Send_String] and the four field parsers behind the macros
    [KMB], [KMI], [KMF] and [KMS]. *)

Module Parsers.

(** *** Sending text *)

Lemma transmit_log (bytes : list Z) (u : uart) :
  transmit bytes u = {| rx_queue := rx_queue u; tx_log := tx_log u ++ bytes |}.
Proof.
  revert u. induction bytes as [|b bytes IH]; intros [rx log]; cbn.
  - rewrite app_nil_r. reflexivity.
  - unfold transmit in IH. rewrite IH. cbn. rewrite <- app_assoc. reflexivity.
Qed.

(** [UART_0_Send_String] sends the bytes before the first zero, in order,
    and stops there; with no zero in the array it sends all of it and reads
    past its end. *)
Theorem UART_0_Send_String_sends_text (text rest : list Z) (u : uart) :
  Forall (fun c => c <> 0) text ->
  UART_0_Send_String (text ++ 0 :: rest) u
  = Done tt {| rx_queue := rx_queue u; tx_log := tx_log u ++ text |}
  /\ UART_0_Send_String text u
     = Overrun {| rx_queue := rx_queue u; tx_log := tx_log u ++ text |}.
Proof.
  intros Htext. revert u.
  induction Htext as [|c text Hc _ IH]; intros [rx log]; cbn [app UART_0_Send_String].
  - cbn. rewrite app_nil_r. split; reflexivity.
  - replace (c =? 0) with false by (symmetry; apply Z.eqb_neq; exact Hc).
    cbn [negb]. unfold UART_0_Send_Char, DL_UART_Main_transmitData.
    cbn [rx_queue tx_log].
    destruct (IH {| rx_queue := rx; tx_log := log ++ [c] |}) as [IH1 IH2].
    rewrite IH1, IH2. cbn [rx_queue tx_log]. rewrite <- app_assoc. split; reflexivity.
Qed.

Lemma UART_0_Send_String_sends_text_witness :
  UART_0_Send_String (chars "SAFE" ++ 0 :: chars "junk") {| rx_queue := [7]; tx_log := [1] |}
  = Done tt {| rx_queue := [7]; tx_log := [1] ++ chars "SAFE" |}
  /\ UART_0_Send_String (chars "SAFE") {| rx_queue := [7]; tx_log := [1] |}
     = Overrun {| rx_queue := [7]; tx_log := [1] ++ chars "SAFE" |}.
Proof.
  apply (UART_0_Send_String_sends_text (chars "SAFE") (chars "junk")
           {| rx_queue := [7]; tx_log := [1] |}).
  repeat constructor; discriminate.
Defined.

(** *** The field parsers *)

Lemma lookup_after (pre l : list Z) (k : Z) :
  0 <= k ->
  (pre ++ l) !! Z.to_nat (Z.of_nat (length pre) + k) = l !! Z.to_nat k.
Proof.
  intros Hk. rewrite Z2Nat.inj_add, Nat2Z.id by lia.
  rewrite lookup_app_r by lia. f_equal. lia.
Qed.

Lemma lor_shiftl (a b n : Z) :
  0 <= n -> 0 <= a < 2 ^ n -> Z.lor a (Z.shiftl b n) = a + b * 2 ^ n.
Proof.
  intros Hn Ha. rewrite <- Z.shiftl_mul_pow2 by exact Hn.
  symmetry. apply Z.add_nocarry_lor.
  apply Z.bits_inj'. intros k Hk. rewrite Z.land_spec, Z.bits_0.
  destruct (Z.lt_ge_cases k n) as [Hlt|Hge].
  - rewrite Z.shiftl_spec_low by exact Hlt. apply andb_false_r.
  - destruct (Z.eq_dec a 0) as [->|Hz]; [rewrite Z.bits_0; reflexivity|].
    rewrite (Z.bits_above_log2 a k); [reflexivity|lia|].
    apply Z.lt_le_trans with n; [|exact Hge].
    apply Z.log2_lt_pow2; lia.
Qed.

(** The word assembled from four bytes. *)
Lemma word32_bytes (pre rest : list Z) (b0 b1 b2 b3 : Z) :
  is_byte b0 -> is_byte b1 -> is_byte b2 -> is_byte b3 ->
  word32 (pre ++ [b0; b1; b2; b3] ++ rest) (Z.of_nat (length pre))
  = Some (b0 + b1 * 2 ^ 8 + b2 * 2 ^ 16 + b3 * 2 ^ 24).
Proof.
  unfold is_byte. intros H0 H1 H2 H3. unfold word32.
  rewrite <- (Z.add_0_r (Z.of_nat (length pre))) at 1.
  rewrite !lookup_after by lia.
  change (Z.to_nat 0) with 0%nat. change (Z.to_nat 1) with 1%nat.
  change (Z.to_nat 2) with 2%nat. change (Z.to_nat 3) with 3%nat.
  cbn [app lookup list_lookup mbind option_bind].
  rewrite (lor_shiftl b0 b1 8) by lia.
  rewrite (lor_shiftl _ b2 16) by lia.
  rewrite (lor_shiftl _ b3 24) by lia.
  reflexivity.
Qed.

Lemma le32_word (pre rest : list Z) (w : Z) :
  0 <= w < 2 ^ 32 ->
  word32 (pre ++ le32 w ++ rest) (Z.of_nat (length pre)) = Some w.
Proof.
  intros Hw. unfold le32. rewrite word32_bytes.
  - f_equal. Z.div_mod_to_equations. lia.
  - unfold is_byte. apply Z.mod_pos_bound. lia.
  - unfold is_byte. apply Z.mod_pos_bound. lia.
  - unfold is_byte. apply Z.mod_pos_bound. lia.
  - unfold is_byte. apply Z.mod_pos_bound. lia.
Qed.

Lemma word32_short (data : list Z) (index : Z) :
  0 <= index -> (length data < Z.to_nat index + 4)%nat ->
  word32 data index = None.
Proof.
  intros Hi Hlen. unfold word32.
  destruct (data !! Z.to_nat index) as [b0|] eqn:E0; [|reflexivity]. cbn.
  destruct (data !! Z.to_nat (index + 1)) as [b1|] eqn:E1; [|reflexivity]. cbn.
  destruct (data !! Z.to_nat (index + 2)) as [b2|] eqn:E2; [|reflexivity]. cbn.
  destruct (data !! Z.to_nat (index + 3)) as [b3|] eqn:E3; [|reflexivity]. cbn.
  apply lookup_lt_Some in E3. lia.
Qed.

(** [K230_parse_int] reads a 32-bit integer stored low byte first, in two's
    complement, wherever it lies in the array, and moves the index past it;
    with fewer than four bytes left it reads outside the array. *)
Theorem K230_parse_int_little_endian (pre rest : list Z) (z : Z) :
  (length pre <= 255)%nat -> - 2 ^ 31 <= z < 2 ^ 31 ->
  K230_parse_int (pre ++ le32 (bits_of_int z) ++ rest) (Z.of_nat (length pre))
  = Some (z, (Z.of_nat (length pre) + 4) mod 256)
  /\ (forall data index,
        0 <= index -> (length data < Z.to_nat index + 4)%nat ->
        K230_parse_int data index = None).
Proof.
  intros _ Hz. split.
  - unfold K230_parse_int, bits_of_int.
    rewrite le32_word by (apply Z.mod_pos_bound; lia). cbn.
    f_equal. f_equal. unfold int32.
    destruct (Z.ltb_spec (z mod 2 ^ 32) (2 ^ 31)); Z.div_mod_to_equations; lia.
  - intros data index Hi Hlen. unfold K230_parse_int.
    rewrite word32_short by assumption. reflexivity.
Qed.

Lemma K230_parse_int_little_endian_witness :
  K230_parse_int ([7; 7; 7] ++ le32 (bits_of_int (-2)) ++ [9]) (Z.of_nat (length [7; 7; 7]))
  = Some (-2, (Z.of_nat (length [7; 7; 7]) + 4) mod 256)
  /\ (forall data index,
        0 <= index -> (length data < Z.to_nat index + 4)%nat ->
        K230_parse_int data index = None).
Proof. apply (K230_parse_int_little_endian [7; 7; 7] [9] (-2)); cbn; lia. Defined.

(** The fields of a pattern given by sign, exponent and fraction. *)
Lemma float_of_bits_fields (S E M : Z) :
  0 <= S < 2 -> 0 <= E < 256 -> 0 <= M < 2 ^ 23 ->
  let w := S * 2 ^ 31 + E * 2 ^ 23 + M in
  Z.testbit w 31 = (S =? 1)
  /\ Z.land (Z.shiftr w 23) 255 = E
  /\ Z.land w 8388607 = M.
Proof.
  intros HS HE HM w.
  change 255 with (Z.ones 8). change 8388607 with (Z.ones 23).
  rewrite !Z.land_ones by lia. rewrite Z.testbit_odd, !Z.shiftr_div_pow2 by lia.
  assert (H31 : w / 2 ^ 31 = S) by (unfold w; Z.div_mod_to_equations; lia).
  assert (H23 : w / 2 ^ 23 = S * 2 ^ 8 + E) by (unfold w; Z.div_mod_to_equations; lia).
  rewrite H31, H23. split; [|split].
  - assert (S = 0 \/ S = 1) as [-> | ->] by lia; reflexivity.
  - Z.div_mod_to_equations. lia.
  - unfold w. Z.div_mod_to_equations. lia.
Qed.

Lemma word_fields (w : Z) :
  0 <= w < 2 ^ 32 ->
  exists S E M, (0 <= S < 2 /\ 0 <= E < 256 /\ 0 <= M < 2 ^ 23)
                /\ w = S * 2 ^ 31 + E * 2 ^ 23 + M.
Proof.
  intros Hw. exists (w / 2 ^ 31), ((w / 2 ^ 23) mod 256), (w mod 2 ^ 23).
  Z.div_mod_to_equations. lia.
Qed.

Lemma digits_below (p : positive) (n : Z) :
  0 <= n -> Zpos p < 2 ^ n -> Zpos (digits2_pos p) <= n.
Proof.
  intros Hn Hp. pose proof (Rounding.digits2_pos_bounds p) as [Hlo _].
  destruct (Z.le_gt_cases (Zpos (digits2_pos p)) n) as [|Hgt]; [assumption|].
  assert (2 ^ n <= 2 ^ (Zpos (digits2_pos p) - 1)) by (apply Z.pow_le_mono_r; lia).
  lia.
Qed.

(** Every pattern is a number of the format, an infinity or a NaN. *)
Lemma float_of_bits_valid (w : Z) :
  0 <= w < 2 ^ 32 -> Float32.valid (float_of_bits w) = true.
Proof.
  intros Hw. destruct (word_fields w Hw) as (S & E & M & (HS & HE & HM) & ->).
  destruct (float_of_bits_fields S E M HS HE HM) as (Hs & He & Hm).
  cbv zeta in Hs, He, Hm. unfold float_of_bits. rewrite Hs, He, Hm.
  unfold Float32.valid, valid_binary, bounded, canonical_mantissa.
  destruct (Z.eqb_spec E 0) as [->|HE0].
  - destruct M as [|p|p]; [reflexivity| |lia].
    apply andb_true_iff. split; [|reflexivity]. apply Z.eqb_eq.
    pose proof (digits_below p 23 ltac:(lia) ltac:(lia)).
    change (SpecFloat.fexp Float32.prec Float32.emax ?x) with (Float32.fexp x).
    rewrite Rounding.fexp_eq. lia.
  - destruct (Z.eqb_spec E 255) as [->|HE1]; [destruct (M =? 0); reflexivity|].
    destruct (M + 8388608) as [|p|p] eqn:Ep; try reflexivity.
    apply andb_true_iff. split.
    + apply Z.eqb_eq.
      rewrite (Rounding.digits2_pos_unique p 24) by (cbn; lia).
      change (SpecFloat.fexp Float32.prec Float32.emax ?x) with (Float32.fexp x).
      rewrite Rounding.fexp_eq. lia.
    + apply Z.leb_le. unfold Float32.emax, Float32.prec. lia.
Qed.

(** Decoding undoes encoding. *)
Lemma float_of_bits_of_float (x : spec_float) :
  Float32.valid x = true ->
  0 <= bits_of_float x < 2 ^ 32 /\ float_of_bits (bits_of_float x) = x.
Proof.
  intros Hv.
  assert (Hfields : forall (s : bool) (E M : Z),
            0 <= E < 256 -> 0 <= M < 2 ^ 23 ->
            let w := (if s then 2 ^ 31 else 0) + (E * 2 ^ 23 + M) in
            0 <= w < 2 ^ 32
            /\ Z.testbit w 31 = s
            /\ Z.land (Z.shiftr w 23) 255 = E
            /\ Z.land w 8388607 = M).
  { intros s E M HE HM w.
    pose proof (float_of_bits_fields (if s then 1 else 0) E M
                  ltac:(destruct s; lia) HE HM) as (H1 & H2 & H3).
    cbv zeta in H1, H2, H3.
    replace ((if s then 1 else 0) * 2 ^ 31 + E * 2 ^ 23 + M) with w in H1, H2, H3
      by (unfold w; destruct s; lia).
    split; [unfold w; destruct s; lia|].
    split; [rewrite H1; destruct s; reflexivity|]. split; assumption. }
  destruct x as [s|s| |s m e].
  - destruct (Hfields s 0 0 ltac:(lia) ltac:(lia)) as (Hr & Hs & He & Hm).
    cbv zeta in Hr, Hs, He, Hm. cbn [bits_of_float].
    replace (if s then 2 ^ 31 else 0) with ((if s then 2 ^ 31 else 0) + (0 * 2 ^ 23 + 0))
      by lia.
    split; [exact Hr|]. unfold float_of_bits. rewrite Hs, He, Hm. reflexivity.
  - destruct (Hfields s 255 0 ltac:(lia) ltac:(lia)) as (Hr & Hs & He & Hm).
    cbv zeta in Hr, Hs, He, Hm. cbn [bits_of_float].
    replace ((if s then 2 ^ 31 else 0) + 255 * 2 ^ 23)
      with ((if s then 2 ^ 31 else 0) + (255 * 2 ^ 23 + 0)) by lia.
    split; [exact Hr|]. unfold float_of_bits. rewrite Hs, He, Hm. reflexivity.
  - split; [cbn; lia|reflexivity].
  - destruct (Mapper.valid_exponent s m e Hv) as [Hc He].
    change (SpecFloat.fexp Float32.prec Float32.emax ?x) with (Float32.fexp x) in Hc.
    rewrite Rounding.fexp_eq in Hc.
    assert (He' : e <= 104).
    { unfold Float32.valid, valid_binary, bounded in Hv.
      apply andb_true_iff in Hv as [_ Hv]. apply Z.leb_le in Hv.
      unfold Float32.emax, Float32.prec in Hv. lia. }
    pose proof (Rounding.digits2_pos_bounds m) as [Hlo Hhi].
    assert (Hd : Zpos (digits2_pos m) <= 24) by lia.
    assert (Hm24 : Zpos m < 2 ^ 24).
    { assert (2 ^ Zpos (digits2_pos m) <= 2 ^ 24) by (apply Z.pow_le_mono_r; lia). lia. }
    cbn [bits_of_float].
    destruct (Z.ltb_spec (Zpos m) (2 ^ 23)) as [Hsub|Hnorm].
    + (* subnormal *)
      assert (He0 : e = -149).
      { destruct (Z.eq_dec (Zpos (digits2_pos m)) 24) as [H24|]; [|lia].
        rewrite H24 in Hlo. lia. }
      destruct (Hfields s 0 (Zpos m) ltac:(lia) ltac:(lia)) as (Hr & Hs & HE & Hm).
      cbv zeta in Hr, Hs, HE, Hm.
      replace ((if s then 2 ^ 31 else 0) + Zpos m)
        with ((if s then 2 ^ 31 else 0) + (0 * 2 ^ 23 + Zpos m)) by lia.
      split; [exact Hr|]. unfold float_of_bits. rewrite Hs, HE, Hm. subst e. reflexivity.
    + (* normal *)
      assert (H24 : Zpos (digits2_pos m) = 24).
      { apply Rounding.digits2_pos_unique. lia. }
      destruct (Hfields s (e + 150) (Zpos m - 2 ^ 23) ltac:(lia) ltac:(lia))
        as (Hr & Hs & HE & Hm).
      cbv zeta in Hr, Hs, HE, Hm.
      split; [exact Hr|]. unfold float_of_bits. rewrite Hs, HE, Hm.
      destruct (Z.eqb_spec (e + 150) 0); [lia|].
      destruct (Z.eqb_spec (e + 150) 255); [lia|].
      replace (Zpos m - 2 ^ 23 + 8388608) with (Zpos m) by lia.
      replace (e + 150 - 150) with e by lia. reflexivity.
Qed.

(** [K230_parse_float] reads a [float] stored low byte first in its
    IEEE-754 pattern, wherever it lies in the array, and moves the index
    past it; and whatever four bytes it reads, the result is a number of the
    format, an infinity or a NaN. *)
Theorem K230_parse_float_little_endian (pre rest : list Z) (x : spec_float) :
  (length pre <= 255)%nat -> Float32.valid x = true ->
  K230_parse_float (pre ++ le32 (bits_of_float x) ++ rest) (Z.of_nat (length pre))
  = Some (x, (Z.of_nat (length pre) + 4) mod 256)
  /\ (forall b0 b1 b2 b3,
        is_byte b0 -> is_byte b1 -> is_byte b2 -> is_byte b3 ->
        exists y,
          K230_parse_float (pre ++ [b0; b1; b2; b3] ++ rest) (Z.of_nat (length pre))
          = Some (y, (Z.of_nat (length pre) + 4) mod 256)
          /\ Float32.valid y = true).
Proof.
  intros _ Hv. destruct (float_of_bits_of_float x Hv) as [Hr Hx]. split.
  - unfold K230_parse_float. rewrite le32_word by exact Hr. cbn. rewrite Hx. reflexivity.
  - intros b0 b1 b2 b3 H0 H1 H2 H3. unfold K230_parse_float.
    rewrite word32_bytes by assumption. cbn [mbind option_bind].
    eexists. split; [reflexivity|].
    apply float_of_bits_valid. unfold is_byte in *. lia.
Qed.

Lemma K230_parse_float_little_endian_witness :
  K230_parse_float ([1] ++ le32 (bits_of_float Servo.SERVO2_MIN_ANGLE) ++ [])
                   (Z.of_nat (length [1]))
  = Some (Servo.SERVO2_MIN_ANGLE, (Z.of_nat (length [1]) + 4) mod 256)
  /\ (forall b0 b1 b2 b3,
        is_byte b0 -> is_byte b1 -> is_byte b2 -> is_byte b3 ->
        exists y,
          K230_parse_float ([1] ++ [b0; b1; b2; b3] ++ []) (Z.of_nat (length [1]))
          = Some (y, (Z.of_nat (length [1]) + 4) mod 256)
          /\ Float32.valid y = true).
Proof.
  apply (K230_parse_float_little_endian [1] [] Servo.SERVO2_MIN_ANGLE);
    [cbn; lia|reflexivity].
Defined.

(** The scan over characters that are not zero. *)
Lemma scan_run (data : list Z) (index : Z) (n : nat) :
  forall (fuel : nat) (k : Z),
    0 <= k -> k + Z.of_nat n <= 255 ->
    (forall j, k <= j < k + Z.of_nat n ->
               exists c, data !! Z.to_nat (index + j) = Some c /\ c <> 0) ->
    K230_parse_string_scan (n + fuel) data index k
    = K230_parse_string_scan fuel data index (k + Z.of_nat n).
Proof.
  induction n as [|n IH]; intros fuel k Hk Hlen Hs.
  - cbn. rewrite Z.add_0_r. reflexivity.
  - cbn [Nat.add K230_parse_string_scan].
    destruct (Hs k ltac:(lia)) as (c & -> & Hc).
    replace (c =? 0) with false by (symmetry; apply Z.eqb_neq; exact Hc). cbn [negb].
    rewrite Z.mod_small by lia. rewrite IH; [f_equal; lia|lia|lia|].
    intros j Hj. apply Hs. lia.
Qed.

Lemma lookup_text (pre s rest : list Z) (j : Z) :
  Forall (fun c => c <> 0) s -> 0 <= j < Z.of_nat (length s) ->
  exists c, (pre ++ s ++ rest) !! Z.to_nat (Z.of_nat (length pre) + j) = Some c
            /\ c <> 0.
Proof.
  intros Hs Hj. rewrite lookup_after by lia. rewrite lookup_app_l by lia.
  destruct (s !! Z.to_nat j) as [c|] eqn:Ec; [|apply lookup_ge_None in Ec; lia].
  exists c. split; [reflexivity|].
  exact (Forall_lookup_1 _ _ _ _ Hs Ec).
Qed.

(** [K230_parse_string] returns the characters before the first zero and
    moves the index past that zero; with no zero up to the end of the array
    it reads outside. *)
Theorem K230_parse_string_scans (pre s rest : list Z) (fuel : nat) :
  (length pre <= 255)%nat -> Forall (fun c => c <> 0) s -> (length s <= 255)%nat ->
  K230_parse_string (length s + S fuel) (pre ++ s ++ 0 :: rest) (Z.of_nat (length pre))
  = Found (s, (Z.of_nat (length pre) + (Z.of_nat (length s) + 1)) mod 256)
  /\ K230_parse_string (length s + S fuel) (pre ++ s) (Z.of_nat (length pre)) = Outside.
Proof.
  intros Hpre Hs Hlen. split.
  - unfold K230_parse_string.
    rewrite scan_run; [|lia|lia|intros j Hj; apply lookup_text; [exact Hs|lia]].
    rewrite Z.add_0_l. cbn [K230_parse_string_scan].
    rewrite lookup_after by lia. rewrite Nat2Z.id.
    rewrite lookup_app_r by lia. rewrite Nat.sub_diag. cbn [lookup list_lookup Z.eqb negb].
    rewrite !Nat2Z.id. rewrite drop_app_length, take_app_length. reflexivity.
  - unfold K230_parse_string.
    rewrite scan_run; [|lia|lia|].
    + rewrite Z.add_0_l. cbn [K230_parse_string_scan].
      rewrite lookup_ge_None_2; [reflexivity|]. rewrite length_app. lia.
    + intros j Hj. rewrite <- (app_nil_r s). apply lookup_text; [exact Hs|lia].
Qed.

Lemma K230_parse_string_scans_witness :
  K230_parse_string (length (chars "Arm") + 1) ([5] ++ chars "Arm" ++ 0 :: [9])
                    (Z.of_nat (length [5]))
  = Found (chars "Arm",
           (Z.of_nat (length [5]) + (Z.of_nat (length (chars "Arm")) + 1)) mod 256)
  /\ K230_parse_string (length (chars "Arm") + 1) ([5] ++ chars "Arm")
                       (Z.of_nat (length [5])) = Outside.
Proof.
  apply (K230_parse_string_scans [5] (chars "Arm") [9] 0);
    [cbn; lia|repeat constructor; discriminate|cbn; lia].
Defined.

(** [K230_parse_string] on 256 characters in a row that are not zero never
    returns: its 8-bit length starts over at the first of them, whatever
    follows in the array. *)
Theorem K230_parse_string_spins (pre s rest : list Z) (fuel : nat) :
  Forall (fun c => c <> 0) s -> length s = 256%nat ->
  K230_parse_string fuel (pre ++ s ++ rest) (Z.of_nat (length pre)) = Spinning.
Proof.
  intros Hs Hlen. unfold K230_parse_string.
  enough (H : forall fuel k, 0 <= k <= 255 ->
            K230_parse_string_scan fuel (pre ++ s ++ rest) (Z.of_nat (length pre)) k
            = Spinning) by (rewrite (H fuel 0) by lia; reflexivity).
  clear fuel. induction fuel as [|fuel IH]; intros k Hk; [reflexivity|].
  cbn [K230_parse_string_scan].
  destruct (lookup_text pre s rest k Hs ltac:(lia)) as (c & -> & Hc).
  replace (c =? 0) with false by (symmetry; apply Z.eqb_neq; exact Hc). cbn [negb].
  apply IH. pose proof (Z.mod_pos_bound (k + 1) 256 ltac:(lia)). lia.
Qed.

Lemma K230_parse_string_spins_witness :
  K230_parse_string 1000 ([5] ++ replicate 256 (char "x") ++ [0; 9])
                    (Z.of_nat (length [5])) = Spinning.
Proof.
  apply (K230_parse_string_spins [5] (replicate 256 (char "x")) [0; 9] 1000).
  - apply Forall_replicate. discriminate.
  - reflexivity.
Defined.

End Parsers.

(** ** The servo frame handler

    [K230_GetServoParams] on the buffer [K230_cmd] hands it, and the two
    sample handlers inside an exchange. *)

Module ServoParams.
Import Parsers.

Lemma transmit_app (a b : list Z) (u : uart) :
  transmit (a ++ b) u = transmit b (transmit a u).
Proof. unfold transmit. apply fold_left_app. Qed.

Lemma transmit_one (b : Z) (u : uart) :
  DL_UART_Main_transmitData b u = transmit [b] u.
Proof. reflexivity. Qed.

(** The digits [send_decimal] sends spell the angle. *)
Lemma send_decimal_digits (angle : Z) (u : uart) :
  0 <= angle < 256 ->
  exists digits,
    send_decimal angle u = transmit digits u
    /\ decimal_value digits = angle
    /\ Forall (fun d => char "0" <= d <= char "9") digits.
Proof.
  intros Ha. unfold send_decimal. change (char "0") with 48. change (char "9") with 57.
  destruct (Z.leb_spec 100 angle) as [H100|H100]; [|destruct (Z.leb_spec 10 angle) as [H10|H10]].
  - exists [48 + angle / 100; 48 + (angle mod 100) / 10; 48 + angle mod 10].
    rewrite (Z.mod_small (48 + angle / 100) 256),
      (Z.mod_small (48 + (angle mod 100) / 10) 256),
      (Z.mod_small (48 + angle mod 10) 256) by (Z.div_mod_to_equations; lia).
    split; [reflexivity|]. split.
    + unfold decimal_value. cbn [fold_left]. change (char "0") with 48.
      Z.div_mod_to_equations. lia.
    + repeat constructor; Z.div_mod_to_equations; lia.
  - exists [48 + angle / 10; 48 + angle mod 10].
    rewrite (Z.mod_small (48 + angle / 10) 256),
      (Z.mod_small (48 + angle mod 10) 256) by (Z.div_mod_to_equations; lia).
    split; [reflexivity|]. split.
    + unfold decimal_value. cbn [fold_left]. change (char "0") with 48.
      Z.div_mod_to_equations. lia.
    + repeat constructor; Z.div_mod_to_equations; lia.
  - exists [48 + angle].
    rewrite (Z.mod_small (48 + angle) 256) by lia.
    split; [reflexivity|]. split.
    + unfold decimal_value. cbn [fold_left]. change (char "0") with 48. lia.
    + repeat constructor; lia.
Qed.

(** The ten reads take the first ten bytes. *)
Lemma receive_frame (frame tail : list Z) :
  length frame = 10%nat -> receive 10 (frame ++ tail) 0 = Some frame.
Proof.
  intros Hlen.
  do 10 (destruct frame as [|? frame]; [discriminate Hlen|]).
  destruct frame; [|discriminate Hlen]. reflexivity.
Qed.

Lemma bcc_frame (frame : list Z) :
  length frame = 10%nat ->
  fold_left (fun c i => Z.lxor c (byte_at frame i)) (seq 3 6) (byte_at frame 2)
  = bcc frame.
Proof.
  intros Hlen.
  do 10 (destruct frame as [|? frame]; [discriminate Hlen|]).
  destruct frame; [|discriminate Hlen]. reflexivity.
Qed.

(** What [K230_GetServoParams] does with a frame, check by check. *)
Lemma K230_GetServoParams_checks (frame tail : list Z) (u : uart) :
  length frame = 10%nat ->
  K230_GetServoParams (frame ++ tail) u =
  if negb (byte_at frame 0 =? 0xFF) || negb (byte_at frame 1 =? 0xFE)
  then Done 0 (transmit (chars "A" ++ chars "Error: Invalid Header" ++ [10]) u)
  else if negb (bcc frame =? byte_at frame 9)
  then Done 0 (transmit (chars "ABC" ++ chars "Error: Checksum Error" ++ [10]) u)
  else if (byte_at frame 2 >? 171) || (byte_at frame 3 >? 171)
  then Done 0 (transmit (chars "ABCD" ++ chars "Error: Angle Out of Range" ++ [10]) u)
  else Done 0 (transmit (chars " deg" ++ [10])
                 (send_decimal (byte_at frame 3)
                    (transmit (chars " deg" ++ [10] ++ chars "Arm: ")
                       (send_decimal (byte_at frame 2)
                          (transmit (chars "ABCDEBase: F") u))))).
Proof.
  intros Hlen. unfold K230_GetServoParams.
  rewrite receive_frame by exact Hlen. rewrite bcc_frame by exact Hlen.
  destruct (negb (byte_at frame 0 =? 255) || negb (byte_at frame 1 =? 254)); [reflexivity|].
  destruct (negb (bcc frame =? byte_at frame 9)); [reflexivity|].
  destruct ((byte_at frame 2 >? 171) || (byte_at frame 3 >? 171)); reflexivity.
Qed.

Lemma send_decimal_log (angle : Z) (u : uart) :
  exists digits, send_decimal angle u = transmit digits u.
Proof.
  unfold send_decimal.
  destruct (100 <=? angle); [|destruct (10 <=? angle)]; eexists;
    rewrite ?transmit_one, <- ?transmit_app; reflexivity.
Qed.

Lemma transmit_text (a b : list Z) (u : uart) :
  Done 0 (transmit a u) = Done 0 (transmit b u) -> a = b.
Proof.
  rewrite !transmit_log. intros Heq. injection Heq as Heq.
  apply app_inv_head in Heq. exact Heq.
Qed.

(** The frames that get the checksum error. *)
Lemma checksum_error_iff (frame tail : list Z) (u : uart) :
  length frame = 10%nat ->
  K230_GetServoParams (frame ++ tail) u
  = Done 0 (transmit (chars "ABC" ++ chars "Error: Checksum Error" ++ [10]) u)
  <-> byte_at frame 0 = 0xFF /\ byte_at frame 1 = 0xFE
      /\ bcc frame <> byte_at frame 9.
Proof.
  intros Hlen. rewrite (K230_GetServoParams_checks frame tail u Hlen).
  destruct (Z.eqb_spec (byte_at frame 0) 255) as [H0|H0];
    [destruct (Z.eqb_spec (byte_at frame 1) 254) as [H1|H1]|]; cbn [negb orb].
  - destruct (Z.eqb_spec (bcc frame) (byte_at frame 9)) as [Hc|Hc]; cbn [negb].
    + split; [|intros (_ & _ & Hn); contradiction].
      intros Heq. exfalso.
      destruct ((byte_at frame 2 >? 171) || (byte_at frame 3 >? 171)).
      * apply transmit_text in Heq. discriminate Heq.
      * destruct (send_decimal_log (byte_at frame 2) (transmit (chars "ABCDEBase: F") u))
          as (d1 & Hd1).
        rewrite Hd1 in Heq. rewrite <- !transmit_app in Heq.
        match type of Heq with
        | context [send_decimal ?a ?v] =>
            destruct (send_decimal_log a v) as (d2 & Hd2); rewrite Hd2 in Heq
        end.
        rewrite <- !transmit_app in Heq.
        apply transmit_text in Heq. rewrite <- !app_assoc in Heq. discriminate Heq.
    + split; [intros _; auto|reflexivity].
  - split; [|intros (_ & Hn & _); contradiction].
    intros Heq. apply transmit_text in Heq. discriminate Heq.
  - split; [|intros (Hn & _); contradiction].
    intros Heq. apply transmit_text in Heq. discriminate Heq.
Qed.

Lemma lxor_cancel_r (a b x : Z) : Z.lxor a x = Z.lxor b x -> a = b.
Proof.
  intros Heq.
  assert (Ha : Z.lxor (Z.lxor a x) x = a)
    by (rewrite Z.lxor_assoc, Z.lxor_nilpotent; apply Z.lxor_0_r).
  assert (Hb : Z.lxor (Z.lxor b x) x = b)
    by (rewrite Z.lxor_assoc, Z.lxor_nilpotent; apply Z.lxor_0_r).
  rewrite <- Ha, <- Hb, Heq. reflexivity.
Qed.

Lemma lxor_cancel_l (a b x : Z) : Z.lxor x a = Z.lxor x b -> a = b.
Proof. rewrite !(Z.lxor_comm x). apply lxor_cancel_r. Qed.

(** [K230_GetServoParams], verdict by verdict: the header is checked first,
    then the exclusive-or of bytes 2 to 8 against byte 9, then the two
    angles against 171; the first check that fails decides the message, and
    a frame that passes all three is answered with its two angles in
    decimal.  The function returns 0 and leaves the receive queue alone in
    every case. *)
Theorem K230_GetServoParams_verdict (frame tail : list Z) (u : uart) :
  length frame = 10%nat -> Forall is_byte frame ->
  let header := byte_at frame 0 = 0xFF /\ byte_at frame 1 = 0xFE in
  let checked := bcc frame = byte_at frame 9 in
  let in_range := byte_at frame 2 <= 171 /\ byte_at frame 3 <= 171 in
  let says text :=
    K230_GetServoParams (frame ++ tail) u
    = Done 0 {| rx_queue := rx_queue u; tx_log := tx_log u ++ text |} in
  (~ header -> says (chars "A" ++ chars "Error: Invalid Header" ++ [10]))
  /\ (header -> ~ checked ->
      says (chars "ABC" ++ chars "Error: Checksum Error" ++ [10]))
  /\ (header -> checked -> ~ in_range ->
      says (chars "ABCD" ++ chars "Error: Angle Out of Range" ++ [10]))
  /\ (header -> checked -> in_range ->
      exists base arm,
        says (chars "ABCDEBase: F" ++ base ++ chars " deg" ++ [10]
              ++ chars "Arm: " ++ arm ++ chars " deg" ++ [10])
        /\ decimal_value base = byte_at frame 2
        /\ decimal_value arm = byte_at frame 3
        /\ Forall (fun d => char "0" <= d <= char "9") (base ++ arm)).
Proof.
  intros Hlen Hbytes header checked in_range says0.
  assert (Hb : forall i, 0 <= byte_at frame i < 256).
  { intros i. unfold byte_at. destruct (frame !! i) as [b|] eqn:Eb; cbn; [|lia].
    exact (Forall_lookup_1 _ _ _ _ Hbytes Eb). }
  unfold says0. rewrite (K230_GetServoParams_checks frame tail u Hlen).
  subst header checked in_range. repeat split.
  - intros Hh.
    destruct (Z.eqb_spec (byte_at frame 0) 255), (Z.eqb_spec (byte_at frame 1) 254);
      cbn [negb orb]; rewrite ?transmit_log; try reflexivity.
    exfalso. apply Hh. split; assumption.
  - intros [-> ->] Hc. cbn [Z.eqb Pos.eqb negb orb].
    destruct (Z.eqb_spec (bcc frame) (byte_at frame 9)); [contradiction|].
    cbn [negb]. rewrite transmit_log. reflexivity.
  - intros [-> ->] -> Hr. cbn [Z.eqb Pos.eqb negb orb]. rewrite Z.eqb_refl. cbn [negb].
    rewrite !Z.gtb_ltb.
    destruct (Z.ltb_spec 171 (byte_at frame 2)), (Z.ltb_spec 171 (byte_at frame 3));
      cbn [orb]; rewrite ?transmit_log; try reflexivity.
    exfalso. apply Hr. lia.
  - intros [-> ->] -> [Hr2 Hr3]. cbn [Z.eqb Pos.eqb negb orb]. rewrite Z.eqb_refl. cbn [negb].
    rewrite !Z.gtb_ltb.
    replace (171 <? byte_at frame 2) with false by (symmetry; apply Z.ltb_ge; exact Hr2).
    replace (171 <? byte_at frame 3) with false by (symmetry; apply Z.ltb_ge; exact Hr3).
    cbn [orb].
    destruct (send_decimal_digits (byte_at frame 2) (transmit (chars "ABCDEBase: F") u)
                (Hb 2%nat)) as (d1 & -> & Hv1 & Hd1).
    rewrite <- !transmit_app.
    match goal with
    | |- context [send_decimal ?a ?v] =>
        destruct (send_decimal_digits a v (Hb 3%nat)) as (d2 & -> & Hv2 & Hd2)
    end.
    rewrite <- !transmit_app. exists d1, d2. rewrite transmit_log.
    split; [rewrite <- !app_assoc; reflexivity|].
    split; [exact Hv1|]. split; [exact Hv2|].
    apply Forall_app. split; assumption.
Qed.

Lemma K230_GetServoParams_verdict_witness :
  let frame := [0xFF; 0xFE; 90; 45; 0; 0; 0; 0; 0; 119] in
  let u := {| rx_queue := [1]; tx_log := [] |} in
  let header := byte_at frame 0 = 0xFF /\ byte_at frame 1 = 0xFE in
  let checked := bcc frame = byte_at frame 9 in
  let in_range := byte_at frame 2 <= 171 /\ byte_at frame 3 <= 171 in
  let says text :=
    K230_GetServoParams (frame ++ [END1; END2]) u
    = Done 0 {| rx_queue := rx_queue u; tx_log := tx_log u ++ text |} in
  (~ header -> says (chars "A" ++ chars "Error: Invalid Header" ++ [10]))
  /\ (header -> ~ checked ->
      says (chars "ABC" ++ chars "Error: Checksum Error" ++ [10]))
  /\ (header -> checked -> ~ in_range ->
      says (chars "ABCD" ++ chars "Error: Angle Out of Range" ++ [10]))
  /\ (header -> checked -> in_range ->
      exists base arm,
        says (chars "ABCDEBase: F" ++ base ++ chars " deg" ++ [10]
              ++ chars "Arm: " ++ arm ++ chars " deg" ++ [10])
        /\ decimal_value base = byte_at frame 2
        /\ decimal_value arm = byte_at frame 3
        /\ Forall (fun d => char "0" <= d <= char "9") (base ++ arm)).
Proof.
  apply (K230_GetServoParams_verdict [0xFF; 0xFE; 90; 45; 0; 0; 0; 0; 0; 119]
           [END1; END2] {| rx_queue := [1]; tx_log := [] |});
    [reflexivity|repeat constructor; unfold is_byte; lia].
Defined.

(** One changed byte among the seven the checksum covers changes it. *)
Lemma bcc_changes (frame : list Z) (i : nat) (c : Z) :
  length frame = 10%nat -> (2 <= i <= 8)%nat -> c <> byte_at frame i ->
  bcc (<[i := c]> frame) <> bcc frame.
Proof.
  intros Hlen Hi Hc Heq.
  do 10 (destruct frame as [|? frame]; [discriminate Hlen|]).
  destruct frame; [|discriminate Hlen].
  assert (Hcase : (i = 2 \/ i = 3 \/ i = 4 \/ i = 5 \/ i = 6 \/ i = 7 \/ i = 8)%nat) by lia.
  unfold bcc, byte_at in *.
  destruct Hcase as [->|[->|[->|[->|[->|[->| ->]]]]]];
    cbn [list_insert insert drop take fold_left lookup list_lookup default id from_option] in *;
    apply Hc; repeat apply lxor_cancel_r in Heq;
    first [apply lxor_cancel_l in Heq; exact Heq|exact Heq].
Qed.

(** A single wrong byte in the checked part of a frame that passes the
    checksum, the checksum byte included, is always found: the answer is
    the checksum error, whatever the byte and its new value. *)
Theorem K230_GetServoParams_detects_one_byte (frame tail : list Z) (u : uart)
    (i : nat) (c : Z) :
  length frame = 10%nat ->
  byte_at frame 0 = 0xFF -> byte_at frame 1 = 0xFE ->
  bcc frame = byte_at frame 9 ->
  (2 <= i <= 9)%nat -> c <> byte_at frame i ->
  K230_GetServoParams (<[i := c]> frame ++ tail) u
  = Done 0 {| rx_queue := rx_queue u;
              tx_log := tx_log u ++ chars "ABC" ++ chars "Error: Checksum Error"
                        ++ [10] |}.
Proof.
  intros Hlen H0 H1 Hsum Hi Hc.
  rewrite <- transmit_log.
  apply checksum_error_iff; [rewrite length_insert; exact Hlen|].
  assert (Hkeep : forall j, j <> i -> byte_at (<[i := c]> frame) j = byte_at frame j).
  { intros j Hj. unfold byte_at. rewrite list_lookup_insert_ne by lia. reflexivity. }
  rewrite !Hkeep by lia. split; [exact H0|]. split; [exact H1|].
  destruct (Nat.eq_dec i 9%nat) as [->|Hne].
  - assert (Hb : bcc (<[9%nat := c]> frame) = bcc frame).
    { unfold bcc. f_equal. rewrite drop_insert_ge by lia. rewrite take_insert_ge by lia.
      reflexivity. }
    rewrite Hb, Hsum. unfold byte_at at 2.
    rewrite list_lookup_insert_eq by lia. cbn. intros E. apply Hc. symmetry. exact E.
  - rewrite Hkeep by lia. rewrite <- Hsum. apply bcc_changes; [exact Hlen|lia|exact Hc].
Qed.

Lemma K230_GetServoParams_detects_one_byte_witness :
  K230_GetServoParams (<[3%nat := 44]> [0xFF; 0xFE; 90; 45; 0; 0; 0; 0; 0; 119] ++ [])
                      {| rx_queue := []; tx_log := [] |}
  = Done 0 {| rx_queue := rx_queue {| rx_queue := []; tx_log := [] |};
              tx_log := tx_log {| rx_queue := []; tx_log := [] |}
                        ++ chars "ABC" ++ chars "Error: Checksum Error" ++ [10] |}.
Proof.
  apply (K230_GetServoParams_detects_one_byte
           [0xFF; 0xFE; 90; 45; 0; 0; 0; 0; 0; 119] []
           {| rx_queue := []; tx_log := [] |} 3 44);
    try reflexivity; [lia|discriminate].
Defined.

Lemma bcc_permutation (l l' : list Z) :
  l ≡ₚ l' -> forall a, fold_left Z.lxor l a = fold_left Z.lxor l' a.
Proof.
  induction 1 as [|x l l' _ IH|x y l|l l' l'' _ IH1 _ IH2]; intros a; cbn [fold_left].
  - reflexivity.
  - apply IH.
  - f_equal. rewrite !Z.lxor_assoc. f_equal. apply Z.lxor_comm.
  - rewrite IH1. apply IH2.
Qed.

(** The checksum does not see the order of the bytes it covers: two frames
    with the same header and checksum byte whose bytes 2 to 8 are a
    rearrangement of each other, the two angles exchanged for one, get the
    checksum error together or not at all. *)
Theorem K230_GetServoParams_blind_to_order (frame frame' tail tail' : list Z)
    (u : uart) :
  length frame = 10%nat -> length frame' = 10%nat ->
  byte_at frame 0 = byte_at frame' 0 -> byte_at frame 1 = byte_at frame' 1 ->
  byte_at frame 9 = byte_at frame' 9 ->
  take 7 (drop 2 frame) ≡ₚ take 7 (drop 2 frame') ->
  let error :=
    Done 0 {| rx_queue := rx_queue u;
              tx_log := tx_log u ++ chars "ABC" ++ chars "Error: Checksum Error"
                        ++ [10] |} in
  K230_GetServoParams (frame ++ tail) u = error
  <-> K230_GetServoParams (frame' ++ tail') u = error.
Proof.
  intros Hlen Hlen' H0 H1 H9 Hperm error. subst error.
  rewrite <- transmit_log. rewrite !checksum_error_iff by assumption.
  assert (Hb : bcc frame = bcc frame') by (unfold bcc; apply bcc_permutation; exact Hperm).
  rewrite H0, H1, H9, Hb. reflexivity.
Qed.

Lemma K230_GetServoParams_blind_to_order_witness :
  let u := {| rx_queue := []; tx_log := [] |} in
  let error :=
    Done 0 {| rx_queue := rx_queue u;
              tx_log := tx_log u ++ chars "ABC" ++ chars "Error: Checksum Error"
                        ++ [10] |} in
  K230_GetServoParams ([0xFF; 0xFE; 90; 45; 0; 0; 0; 0; 0; 119] ++ []) u = error
  <-> K230_GetServoParams ([0xFF; 0xFE; 45; 90; 0; 0; 0; 0; 0; 119] ++ [1]) u = error.
Proof.
  apply (K230_GetServoParams_blind_to_order
           [0xFF; 0xFE; 90; 45; 0; 0; 0; 0; 0; 119]
           [0xFF; 0xFE; 45; 90; 0; 0; 0; 0; 0; 119] [] [1]
           {| rx_queue := []; tx_log := [] |}); try reflexivity.
  cbn [take drop]. apply perm_swap.
Defined.

(** *** The handlers inside [K230_cmd] *)

Section Handlers.
Context {H : Type}.
Variable func : handler H.

(** [K230_cmd] with [K230_GetServoParams] for handler: the exchange is one
    segment long, whatever the frame.  The command goes out, the handler
    answers on the first ten bytes of the payload, the stop command follows,
    and the bytes after the segment stay queued. *)
Theorem K230_cmd_with_K230_GetServoParams (fuel : nat) (cmd ack : Z)
    (payload rest data log : list Z) (h : H) :
  implements func K230_GetServoParams ->
  segment_ok (ack, payload) -> length data = 128%nat ->
  (10 <= length payload)%nat ->
  exists report,
    K230_GetServoParams (take 10 payload)
      {| rx_queue := rest; tx_log := log ++ [cmd] |}
    = Done 0 {| rx_queue := rest; tx_log := log ++ [cmd] ++ report |}
    /\ K230_cmd (S fuel) cmd func data
         {| rx_queue := wire_segment (ack, payload) ++ rest; tx_log := log |} h
       = Done h {| rx_queue := rest;
                   tx_log := log ++ [cmd] ++ report ++ [STOP_CMD] |}.
Proof.
  intros Himp Hseg Hdata Hlen.
  set (u := {| rx_queue := rest; tx_log := log ++ [cmd] |}).
  assert (Hframe : length (take 10 payload) = 10%nat) by (rewrite length_take; lia).
  assert (Hrep : forall tail, exists report,
             K230_GetServoParams (take 10 payload ++ tail) u
             = Done 0 {| rx_queue := rest; tx_log := log ++ [cmd] ++ report |}).
  { intros tail. rewrite (K230_GetServoParams_checks _ tail u Hframe).
    destruct (negb (byte_at (take 10 payload) 0 =? 255)
              || negb (byte_at (take 10 payload) 1 =? 254));
      [rewrite transmit_log; cbn [rx_queue tx_log u]; rewrite <- app_assoc; eauto|].
    destruct (negb (bcc (take 10 payload) =? byte_at (take 10 payload) 9));
      [rewrite transmit_log; cbn [rx_queue tx_log u]; rewrite <- app_assoc; eauto|].
    destruct ((byte_at (take 10 payload) 2 >? 171) || (byte_at (take 10 payload) 3 >? 171));
      [rewrite transmit_log; cbn [rx_queue tx_log u]; rewrite <- app_assoc; eauto|].
    destruct (send_decimal_log (byte_at (take 10 payload) 2)
                (transmit (chars "ABCDEBase: F") u)) as (d1 & ->).
    rewrite <- !transmit_app.
    match goal with
    | |- context [send_decimal ?a ?v] =>
        destruct (send_decimal_log a v) as (d2 & ->)
    end.
    rewrite <- !transmit_app, transmit_log. cbn [rx_queue tx_log u].
    rewrite <- app_assoc. eauto. }
  assert (Hsame : forall tail tail' report,
             K230_GetServoParams (take 10 payload ++ tail) u
             = Done 0 {| rx_queue := rest; tx_log := log ++ [cmd] ++ report |} ->
             K230_GetServoParams (take 10 payload ++ tail') u
             = Done 0 {| rx_queue := rest; tx_log := log ++ [cmd] ++ report |}).
  { intros tail tail' report.
    rewrite (K230_GetServoParams_checks _ tail u Hframe),
      (K230_GetServoParams_checks _ tail' u Hframe). exact (fun E => E). }
  destruct (Hrep []) as (report & Hreport). exists report.
  split; [rewrite app_nil_r in Hreport; exact Hreport|].
  unfold K230_cmd, DL_UART_Main_transmitData. cbn [rx_queue tx_log].
  rewrite Exchange.loop_iteration by assumption. cbn [snd].
  assert (Hstored : stored payload data
                    = take 10 payload
                      ++ (drop 10 payload ++ [END1; END2]
                          ++ drop (length payload + 2) data)).
  { unfold stored.
    rewrite (app_assoc (take 10 payload) (drop 10 payload)), take_drop. reflexivity. }
  rewrite Hstored.
  rewrite (Himp _ _ h _ _ (Hsame [] _ report Hreport)).
  cbn [flag env io Z.eqb K230_cmd_stop]. unfold DL_UART_Main_transmitData.
  cbn [rx_queue tx_log]. rewrite <- !app_assoc. reflexivity.
Qed.

(** [K230_cmd] with [nod] for handler: after the segment [nod] takes one
    more byte from the queue, answers an ['E'] with an ['A'], and the
    exchange ends with the stop command. *)
Theorem K230_cmd_with_nod (fuel : nat) (cmd b : Z) (seg : Z * list Z)
    (rest data log : list Z) (h : H) :
  implements func nod ->
  segment_ok seg -> length data = 128%nat ->
  K230_cmd (S fuel) cmd func data
    {| rx_queue := wire_segment seg ++ b :: rest; tx_log := log |} h
  = Done h {| rx_queue := rest;
              tx_log := log ++ [cmd]
                        ++ (if b =? char "E" then [char "A"] else [])
                        ++ [STOP_CMD] |}.
Proof.
  intros Himp Hseg Hdata.
  unfold K230_cmd, DL_UART_Main_transmitData. cbn [rx_queue tx_log].
  rewrite Exchange.loop_iteration by assumption.
  assert (Hnod : nod (stored (snd seg) data)
                   {| rx_queue := b :: rest; tx_log := log ++ [cmd] |}
                 = Done 0 (if b =? char "E"
                           then {| rx_queue := rest;
                                   tx_log := (log ++ [cmd]) ++ [char "A"] |}
                           else {| rx_queue := rest; tx_log := log ++ [cmd] |}))
    by (unfold nod; cbn [rx_queue tx_log]; destruct (b =? char "E"); reflexivity).
  rewrite (Himp _ _ h _ _ Hnod).
  cbn [flag env io Z.eqb K230_cmd_stop]. unfold DL_UART_Main_transmitData.
  destruct (b =? char "E"); cbn [rx_queue tx_log]; rewrite <- ?app_assoc; reflexivity.
Qed.
End Handlers.

Lemma returning_implements {H : Type} (f : list Z -> uart -> outcome Z) :
  implements (returning (H := H) f) f.
Proof. intros data u h r u' Hf. unfold returning. rewrite Hf. reflexivity. Qed.

Lemma K230_cmd_with_K230_GetServoParams_witness :
  let payload := [0xFF; 0xFE; 90; 45; 0; 0; 0; 0; 0; 119; 7] in
  exists report,
    K230_GetServoParams (take 10 payload)
      {| rx_queue := [0x99]; tx_log := [] ++ [0x20] |}
    = Done 0 {| rx_queue := [0x99]; tx_log := [] ++ [0x20] ++ report |}
    /\ K230_cmd 1 0x20 (returning (H := unit) K230_GetServoParams) (replicate 128 0)
         {| rx_queue := wire_segment (0x06, payload) ++ [0x99]; tx_log := [] |} tt
       = Done tt {| rx_queue := [0x99];
                    tx_log := [] ++ [0x20] ++ report ++ [STOP_CMD] |}.
Proof.
  apply (K230_cmd_with_K230_GetServoParams (returning (H := unit) K230_GetServoParams)
           0 0x20 0x06 [0xFF; 0xFE; 90; 45; 0; 0; 0; 0; 0; 119; 7] [0x99]
           (replicate 128 0) [] tt).
  - apply returning_implements.
  - split; [reflexivity|cbn; lia].
  - reflexivity.
  - cbn; lia.
Defined.

Lemma K230_cmd_with_nod_witness :
  K230_cmd 1 0x20 (returning (H := unit) nod) (replicate 128 0)
    {| rx_queue := wire_segment (0x06, [0x11]) ++ char "E" :: [0x99]; tx_log := [] |} tt
  = Done tt {| rx_queue := [0x99];
               tx_log := [] ++ [0x20]
                         ++ (if char "E" =? char "E" then [char "A"] else [])
                         ++ [STOP_CMD] |}.
Proof.
  apply (K230_cmd_with_nod (returning (H := unit) nod) 0 0x20 (char "E")
           (0x06, [0x11]) [0x99] (replicate 128 0) [] tt).
  - apply returning_implements.
  - split; [reflexivity|cbn; lia].
  - reflexivity.
Defined.

End ServoParams.

(** ** The format is kept

    Sums, differences, products and quotients of numbers of the format are
    numbers of the format, and where a NaN can come from. *)

Module FormatKept.
Import Float32 Float32Order Rounding Servo.

(** What [finish] returns on a mantissa of the grid is a value of the
    format, and no NaN. *)
Lemma finish_valid (s : bool) (m e : Z) :
  0 <= m ->
  (2 ^ 23 <= m < 2 ^ 24 /\ -149 <= e) \/ (m <= 2 ^ 23 /\ e = -149) ->
  valid (finish s m e) = true /\ is_nan (finish s m e) = false.
Proof.
  intros Hm Hg. destruct m as [|p|p]; [split; reflexivity| |lia].
  cbn [finish]. destruct (Z.leb_spec e (emax - prec)) as [He|He]; [|split; reflexivity].
  split; [|reflexivity].
  unfold valid, valid_binary, bounded, canonical_mantissa.
  apply andb_true_iff. split; [|apply Z.leb_le; exact He].
  apply Z.eqb_eq. change (SpecFloat.fexp prec emax ?x) with (fexp x). rewrite fexp_eq.
  pose proof (digits2_pos_bounds p) as [Hlo Hhi].
  destruct Hg as [[Hn He']|[Hs ->]].
  - rewrite (digits2_pos_unique p 24) by lia. lia.
  - assert (Zpos (digits2_pos p) <= 24); [|lia].
    destruct (Z.le_gt_cases (Zpos (digits2_pos p)) 24) as [|Hgt]; [assumption|].
    assert (2 ^ 24 <= 2 ^ (Zpos (digits2_pos p) - 1)) by (apply Z.pow_le_mono_r; lia).
    lia.
Qed.

Lemma located_some (mx ex : Z) (lx : location) :
  exists v, located v (shr_record_of_loc mx lx) ex.
Proof.
  destruct lx as [|c].
  - exists (val mx ex). apply located_exact.
  - exists (val mx ex + pow2 ex / 2)%R. unfold located.
    rewrite shr_m_of_loc, loc_of_shr_record_of_loc, val_succ.
    pose proof (pow2_pos ex). split; [lra|]. split; [discriminate|intros E; lra].
Qed.

(** Rounding a mantissa with digits enough gives a value of the format. *)
Lemma round_aux_valid (s : bool) (mx ex : Z) (lx : location) :
  0 <= mx -> ex <= fexp (Zdigits2 mx + ex) ->
  valid (binary_round_aux prec emax s mx ex lx) = true
  /\ is_nan (binary_round_aux prec emax s mx ex lx) = false.
Proof.
  intros Hmx Hn. destruct (located_some mx ex lx) as [v Hv].
  destruct (round_aux_faithful s mx ex lx v Hmx Hn Hv)
    as (q & e & m' & e' & _ & _ & -> & _ & Hm' & Hcan).
  apply finish_valid; assumption.
Qed.

Lemma binary_round_valid (s : bool) (m : positive) (e : Z) :
  valid (binary_round prec emax s m e) = true
  /\ is_nan (binary_round prec emax s m e) = false.
Proof.
  unfold binary_round. fold (fexp (Zpos (digits2_pos m) + e)).
  pose proof (shl_align_spec m e (fexp (Zpos (digits2_pos m) + e))) as Hs.
  destruct (shl_align m e (fexp (Zpos (digits2_pos m) + e))) as [mz ez].
  destruct Hs as (Hez & Hmz & Hdz).
  apply round_aux_valid; [lia|]. rewrite Zdigits2_pos, Hdz. lia.
Qed.

Lemma binary_normalize_valid (m e : Z) (s : bool) :
  valid (binary_normalize prec emax m e s) = true
  /\ is_nan (binary_normalize prec emax m e s) = false.
Proof.
  destruct m as [|p|p]; cbn [binary_normalize];
    [split; reflexivity|apply binary_round_valid|apply binary_round_valid].
Qed.

(** The four operations keep the format. *)
Lemma add_valid (x y : float) :
  valid x = true -> valid y = true -> valid (add x y) = true.
Proof.
  intros Hx Hy. unfold add.
  destruct x as [sx|sx| |sx mx ex], y as [sy|sy| |sy my ey]; cbn [SFadd];
    try reflexivity; try assumption;
    try (destruct sx, sy; reflexivity).
  apply binary_normalize_valid.
Qed.

Lemma sub_valid (x y : float) :
  valid x = true -> valid y = true -> valid (sub x y) = true.
Proof.
  intros Hx Hy. unfold sub.
  destruct x as [sx|sx| |sx mx ex], y as [sy|sy| |sy my ey]; cbn [SFsub];
    try reflexivity; try assumption;
    try (destruct sx, sy; reflexivity).
  apply binary_normalize_valid.
Qed.

Lemma digits_mul (mx my : positive) :
  Zpos (digits2_pos mx) + Zpos (digits2_pos my) - 1
  <= Zpos (digits2_pos (mx * my)).
Proof.
  pose proof (digits2_pos_bounds mx) as [Hx _].
  pose proof (digits2_pos_bounds my) as [Hy _].
  pose proof (digits2_pos_bounds (mx * my)) as [_ Hxy].
  set (dx := Zpos (digits2_pos mx)) in *. set (dy := Zpos (digits2_pos my)) in *.
  set (d := Zpos (digits2_pos (mx * my))) in *.
  destruct (Z.le_gt_cases (dx + dy - 1) d) as [|Hgt]; [assumption|].
  assert (H1 : 2 ^ d <= 2 ^ (dx + dy - 2)) by (apply Z.pow_le_mono_r; lia).
  assert (H2 : 2 ^ (dx + dy - 2) = 2 ^ (dx - 1) * 2 ^ (dy - 1))
    by (rewrite <- Z.pow_add_r by (unfold dx, dy; lia); f_equal; lia).
  rewrite Pos2Z.inj_mul in Hxy.
  assert (0 < 2 ^ (dx - 1)) by (apply Z.pow_pos_nonneg; unfold dx; lia).
  assert (0 < 2 ^ (dy - 1)) by (apply Z.pow_pos_nonneg; unfold dy; lia).
  nia.
Qed.

Lemma mul_valid (x y : float) :
  valid x = true -> valid y = true -> valid (mul x y) = true.
Proof.
  intros Hx Hy. unfold mul.
  destruct x as [sx|sx| |sx mx ex], y as [sy|sy| |sy my ey]; cbn [SFmul];
    try reflexivity.
  apply round_aux_valid; [lia|].
  destruct (Mapper.valid_exponent _ _ _ Hx) as [Hcx Hex].
  destruct (Mapper.valid_exponent _ _ _ Hy) as [Hcy Hey].
  change (SpecFloat.fexp prec emax ?x) with (fexp x) in Hcx, Hcy.
  rewrite fexp_eq in Hcx, Hcy. rewrite Zdigits2_pos, fexp_eq.
  pose proof (digits_mul mx my).
  pose proof (digits2_pos_bounds mx) as [_ Hbx].
  pose proof (digits2_pos_bounds my) as [_ Hby].
  assert (0 < Zpos (digits2_pos mx)) by lia. assert (0 < Zpos (digits2_pos my)) by lia.
  lia.
Qed.

Lemma div_valid (x y : float) :
  valid x = true -> valid y = true -> valid (div x y) = true.
Proof.
  intros Hx Hy. unfold div.
  destruct x as [sx|sx| |sx mx ex], y as [sy|sy| |sy my ey]; cbn [SFdiv];
    try reflexivity.
  destruct (div_core_located mx my ex ey) as (q & e & l & -> & _ & Hq & Hdig & _).
  apply round_aux_valid; assumption.
Qed.

(** Where no NaN comes from: a finite number and a number, whatever the
    operation, except the quotient by zero. *)
Lemma add_number (x y : float) :
  is_finite x = true -> is_nan y = false -> is_nan (add x y) = false.
Proof.
  intros Hx Hy. unfold add.
  destruct x as [sx|sx| |sx mx ex]; try discriminate Hx;
    destruct y as [sy|sy| |sy my ey]; try discriminate Hy; cbn [SFadd];
    try reflexivity; try (destruct sx, sy; reflexivity).
  apply binary_normalize_valid.
Qed.

Lemma sub_number (x y : float) :
  is_nan x = false -> is_finite y = true -> is_nan (sub x y) = false.
Proof.
  intros Hx Hy. unfold sub.
  destruct y as [sy|sy| |sy my ey]; try discriminate Hy;
    destruct x as [sx|sx| |sx mx ex]; try discriminate Hx; cbn [SFsub];
    try reflexivity; try (destruct sx, sy; reflexivity).
  apply binary_normalize_valid.
Qed.

Lemma mul_number (x : float) (s : bool) (m : positive) (e : Z) :
  valid x = true -> valid (S754_finite s m e) = true ->
  is_nan x = false -> is_nan (mul x (S754_finite s m e)) = false.
Proof.
  intros Hvx Hvy Hx.
  destruct x as [sx|sx| |sx mx ex]; try discriminate Hx; try reflexivity.
  unfold mul. cbn [SFmul].
  apply round_aux_valid; [lia|].
  destruct (Mapper.valid_exponent _ _ _ Hvx) as [Hcx Hex].
  destruct (Mapper.valid_exponent _ _ _ Hvy) as [Hcy Hey].
  change (SpecFloat.fexp prec emax ?x) with (fexp x) in Hcx, Hcy.
  rewrite fexp_eq in Hcx, Hcy. rewrite Zdigits2_pos, fexp_eq.
  pose proof (digits_mul mx m).
  assert (0 < Zpos (digits2_pos mx)) by lia. assert (0 < Zpos (digits2_pos m)) by lia.
  lia.
Qed.

Lemma div_number (x : float) (s : bool) (m : positive) (e : Z) :
  is_nan x = false -> is_nan (div x (S754_finite s m e)) = false.
Proof.
  intros Hx. unfold div.
  destruct x as [sx|sx| |sx mx ex]; try discriminate Hx; cbn [SFdiv]; try reflexivity.
  destruct (div_core_located mx m ex e) as (q & e' & l & -> & _ & Hq & Hdig & _).
  apply round_aux_valid; assumption.
Qed.

End FormatKept.

(** ** The tracking loop

    [Map_Coordinate_To_Angle], runs of [PID_Calculate] and
    [Update_Servo_Position]. *)

Module Tracking.
Import Float32 Float32Order Rounding Servo FormatKept.
Local Open Scope f32_scope.

(** A number between two finite ones is finite. *)
Lemma within_finite (lo hi x : float) :
  is_finite lo = true -> is_finite hi = true -> within lo hi x = true ->
  is_finite x = true.
Proof.
  unfold within, leb, SFleb. intros Hlo Hhi [H1 H2]%andb_true_iff.
  destruct x as [s|s| |s m e]; try reflexivity.
  - destruct s.
    + destruct lo as [?|?| |[] ? ?]; try discriminate Hlo; discriminate H1.
    + destruct hi as [?|?| |[] ? ?]; try discriminate Hhi; discriminate H2.
  - destruct lo as [?|?| |? ? ?]; discriminate H1.
Qed.

(** The two comparisons of [Map_Coordinate_To_Angle], lower bound first. *)
Lemma bounded_below_above (x lo hi : float) :
  leb lo hi = true ->
  let y := if x <? lo then lo else x in
  let z := if y >? hi then hi else y in
  (is_nan x = false -> within lo hi z = true)
  /\ (is_nan x = true -> z = x).
Proof.
  intros Hb y z. destruct (leb_not_nan _ _ Hb) as [Hlo Hhi]. subst y z. split.
  - intros Hx. unfold within. destruct (x <? lo) eqn:Hlt.
    + rewrite (leb_ltb_false _ _ Hb). rewrite Hb, leb_refl by exact Hlo. reflexivity.
    + destruct (x >? hi) eqn:Hgt.
      * rewrite Hb, leb_refl by exact Hhi. reflexivity.
      * rewrite (ltb_false_leb x lo), (ltb_false_leb hi x) by assumption. reflexivity.
  - intros Hx. destruct x; try discriminate Hx.
    replace (S754_nan <? lo) with false by (destruct lo; reflexivity).
    replace (S754_nan >? hi) with false by (destruct hi; reflexivity).
    reflexivity.
Qed.

(** [Map_Coordinate_To_Angle] with ordered angle bounds: the result lies
    within the bounds, whatever the coordinate range, a range of width zero
    included, unless the affine map gives a NaN, which is then returned. *)
Theorem Map_Coordinate_To_Angle_within
    (coordinate min_coord max_coord min_angle max_angle : float) :
  leb min_angle max_angle = true ->
  let raw := min_angle
             + (coordinate - min_coord) * (max_angle - min_angle)
               / (max_coord - min_coord) in
  let angle := Map_Coordinate_To_Angle coordinate min_coord max_coord
                                       min_angle max_angle in
  (is_nan raw = false -> within min_angle max_angle angle = true)
  /\ (is_nan raw = true -> is_nan angle = true).
Proof.
  intros Hb raw angle.
  destruct (bounded_below_above raw min_angle max_angle Hb) as [H1 H2].
  split; [exact H1|]. intros Hn. unfold angle, Map_Coordinate_To_Angle. fold raw.
  cbv zeta in H2. rewrite (H2 Hn). exact Hn.
Qed.

Lemma Map_Coordinate_To_Angle_within_witness :
  let raw := SERVO_X_MIN_ANGLE
             + (of_Z 700 - of_Z 5) * (SERVO_X_MAX_ANGLE - SERVO_X_MIN_ANGLE)
               / (of_Z 5 - of_Z 5) in
  let angle := Map_Coordinate_To_Angle (of_Z 700) (of_Z 5) (of_Z 5)
                                       SERVO_X_MIN_ANGLE SERVO_X_MAX_ANGLE in
  (is_nan raw = false -> within SERVO_X_MIN_ANGLE SERVO_X_MAX_ANGLE angle = true)
  /\ (is_nan raw = true -> is_nan angle = true).
Proof.
  apply (Map_Coordinate_To_Angle_within (of_Z 700) (of_Z 5) (of_Z 5)
           SERVO_X_MIN_ANGLE SERVO_X_MAX_ANGLE). reflexivity.
Defined.

(** The raw angle of a screen coordinate is a number of the format. *)
Lemma screen_angle_number (coordinate lo hi : float) (size : Z) :
  valid coordinate = true -> is_nan coordinate = false ->
  valid lo = true -> is_finite lo = true ->
  (exists s m e, hi - lo = S754_finite s m e /\ valid (S754_finite s m e) = true) ->
  (exists s m e, of_Z size - of_Z 0 = S754_finite s m e
                 /\ valid (S754_finite s m e) = true) ->
  let raw := lo + (coordinate - of_Z 0) * (hi - lo) / (of_Z size - of_Z 0) in
  valid raw = true /\ is_nan raw = false.
Proof.
  intros Hv Hn Hvlo Hflo (s1 & m1 & e1 & -> & Hv1) (s2 & m2 & e2 & -> & Hv2) raw.
  assert (Hs : valid (coordinate - of_Z 0) = true /\ is_nan (coordinate - of_Z 0) = false).
  { split; [apply sub_valid; [exact Hv|reflexivity]|apply sub_number; [exact Hn|reflexivity]]. }
  destruct Hs as [Hsv Hsn].
  assert (Hm : valid ((coordinate - of_Z 0) * S754_finite s1 m1 e1) = true
               /\ is_nan ((coordinate - of_Z 0) * S754_finite s1 m1 e1) = false).
  { split; [apply mul_valid; assumption|apply mul_number; assumption]. }
  destruct Hm as [Hmv Hmn].
  subst raw. split.
  - apply add_valid; [exact Hvlo|]. apply div_valid; assumption.
  - apply add_number; [exact Hflo|]. apply div_number. exact Hmn.
Qed.

(** The map of a coordinate from a range that starts at zero: with finite
    ordered angle bounds the angle is a finite number within them. *)
Lemma screen_angle_within (coordinate lo hi : float) (size : Z) :
  valid coordinate = true -> is_nan coordinate = false ->
  valid lo = true -> is_finite lo = true ->
  valid hi = true -> is_finite hi = true -> leb lo hi = true ->
  (exists s m e, hi - lo = S754_finite s m e
                 /\ valid (S754_finite s m e) = true) ->
  (exists s m e, of_Z size - of_Z 0 = S754_finite s m e
                 /\ valid (S754_finite s m e) = true) ->
  let a := Map_Coordinate_To_Angle coordinate (of_Z 0) (of_Z size) lo hi in
  valid a = true /\ is_finite a = true /\ within lo hi a = true.
Proof.
  intros Hv Hn Hvlo Hflo Hvhi Hfhi Hb Hspan Hsize a.
  destruct (screen_angle_number coordinate lo hi size Hv Hn Hvlo Hflo Hspan Hsize)
    as [Hrv Hrn].
  destruct (bounded_below_above
              (lo + (coordinate - of_Z 0) * (hi - lo) / (of_Z size - of_Z 0))
              lo hi Hb) as [Hw _].
  specialize (Hw Hrn). cbv zeta in Hw.
  assert (Ha : within lo hi a = true) by exact Hw.
  split; [|split; [exact (within_finite _ _ _ Hflo Hfhi Ha)|exact Ha]].
  unfold a, Map_Coordinate_To_Angle.
  repeat match goal with |- context [if ?c then _ else _] => destruct c end;
    assumption.
Qed.

Lemma screen_angle_x (coordinate : float) :
  valid coordinate = true -> is_nan coordinate = false ->
  let ax := Map_Coordinate_To_Angle coordinate (of_Z 0) (of_Z 640)
                                    SERVO_X_MIN_ANGLE SERVO_X_MAX_ANGLE in
  valid ax = true /\ is_finite ax = true
  /\ within SERVO_X_MIN_ANGLE SERVO_X_MAX_ANGLE ax = true.
Proof.
  intros Hv Hn. apply screen_angle_within; try assumption; try reflexivity;
    vm_compute; eauto.
Qed.

Lemma screen_angle_y (coordinate : float) :
  valid coordinate = true -> is_nan coordinate = false ->
  let ay := Map_Coordinate_To_Angle coordinate (of_Z 0) (of_Z 480)
                                    SERVO_Y_MIN_ANGLE SERVO_Y_MAX_ANGLE in
  valid ay = true /\ is_finite ay = true
  /\ within SERVO_Y_MIN_ANGLE SERVO_Y_MAX_ANGLE ay = true.
Proof.
  intros Hv Hn. apply screen_angle_within; try assumption; try reflexivity;
    vm_compute; eauto.
Qed.

(** Both maps of [Update_Servo_Position]: for every coordinate that is not a
    NaN, the infinities included, the angle is a finite number within the
    axis range, -50.4 to 50.4 for X and -16.5 to 16.5 for Y. *)
Theorem Map_Coordinate_To_Angle_screen (coordinate : float) :
  valid coordinate = true -> is_nan coordinate = false ->
  let ax := Map_Coordinate_To_Angle coordinate (of_Z 0) (of_Z 640)
                                    SERVO_X_MIN_ANGLE SERVO_X_MAX_ANGLE in
  let ay := Map_Coordinate_To_Angle coordinate (of_Z 0) (of_Z 480)
                                    SERVO_Y_MIN_ANGLE SERVO_Y_MAX_ANGLE in
  (valid ax = true /\ is_finite ax = true
   /\ within SERVO_X_MIN_ANGLE SERVO_X_MAX_ANGLE ax = true)
  /\ (valid ay = true /\ is_finite ay = true
      /\ within SERVO_Y_MIN_ANGLE SERVO_Y_MAX_ANGLE ay = true).
Proof.
  intros Hv Hn ax ay. split.
  - exact (screen_angle_x coordinate Hv Hn).
  - exact (screen_angle_y coordinate Hv Hn).
Qed.

Lemma Map_Coordinate_To_Angle_screen_witness :
  let ax := Map_Coordinate_To_Angle infinity (of_Z 0) (of_Z 640)
                                    SERVO_X_MIN_ANGLE SERVO_X_MAX_ANGLE in
  let ay := Map_Coordinate_To_Angle infinity (of_Z 0) (of_Z 480)
                                    SERVO_Y_MIN_ANGLE SERVO_Y_MAX_ANGLE in
  (valid ax = true /\ is_finite ax = true
   /\ within SERVO_X_MIN_ANGLE SERVO_X_MAX_ANGLE ax = true)
  /\ (valid ay = true /\ is_finite ay = true
      /\ within SERVO_Y_MIN_ANGLE SERVO_Y_MAX_ANGLE ay = true).
Proof. apply (Map_Coordinate_To_Angle_screen infinity); reflexivity. Defined.

(** [PID_Calculate] keeps the fields of the controller in the format. *)
Lemma clamp_valid (x lo hi : float) :
  valid x = true -> valid lo = true -> valid hi = true ->
  valid (clamp x lo hi) = true.
Proof.
  intros Hx Hlo Hhi. unfold clamp.
  destruct (x >? hi); [destruct (hi <? lo)|destruct (x <? lo)]; assumption.
Qed.

Lemma PID_Calculate_valid (pid : PID_Controller) (target current : float) :
  PID_valid pid -> valid target = true -> valid current = true ->
  PID_valid (fst (PID_Calculate pid target current))
  /\ valid (snd (PID_Calculate pid target current)) = true.
Proof.
  intros (Hkp & Hki & Hkd & He & Hel & Hi & Ho & Hmax & Hmin) Ht Hc.
  rewrite PID.PID_Calculate_step. unfold PID_step, PID_valid.
  cbn [fst snd Kp Ki Kd error error_last integral output output_max output_min].
  assert (Hev : valid (target - current) = true) by (apply sub_valid; assumption).
  assert (Hiv : valid (clamp (integral pid + (target - current))
                             (output_min pid) (output_max pid)) = true)
    by (apply clamp_valid; [apply add_valid|..]; assumption).
  assert (Hov : valid (clamp (Kp pid * (target - current)
                              + Ki pid * clamp (integral pid + (target - current))
                                               (output_min pid) (output_max pid)
                              + Kd pid * (target - current - error_last pid))
                             (output_min pid) (output_max pid)) = true).
  { apply clamp_valid; [|assumption|assumption].
    repeat first [apply add_valid|apply mul_valid|apply sub_valid]; assumption. }
  repeat split; assumption.
Qed.

(** The anti-windup over a run.  From [PID_Init] on, with ordered finite
    bounds, and through any series of ticks whose error [target - current]
    is not a NaN, the integral stays within the bounds; the output is
    within them too unless the weighted sum of the last tick is a NaN.
    Neither the gains nor the bounds change. *)
Theorem PID_run_integral_bounded (kp ki kd lo hi : float)
    (inputs : list (float * float)) :
  leb lo hi = true -> is_finite lo = true -> is_finite hi = true ->
  Forall (fun tc => is_nan (fst tc - snd tc) = false) inputs ->
  inputs <> [] ->
  let pid := PID_run inputs (PID_Init kp ki kd lo hi) in
  within lo hi (integral pid) = true
  /\ (is_nan (output pid) = true \/ within lo hi (output pid) = true)
  /\ (Kp pid, Ki pid, Kd pid, output_min pid, output_max pid)
     = (kp, ki, kd, lo, hi).
Proof.
  intros Hb Hflo Hfhi Hin Hne pid. subst pid.
  set (settled := fun pid : PID_Controller =>
         (Kp pid, Ki pid, Kd pid, output_min pid, output_max pid)
         = (kp, ki, kd, lo, hi)).
  assert (Hstep : forall pid target current,
            settled pid -> is_finite (integral pid) = true ->
            is_nan (target - current) = false ->
            let pid' := fst (PID_Calculate pid target current) in
            settled pid' /\ within lo hi (integral pid') = true
            /\ (is_nan (output pid') = true \/ within lo hi (output pid') = true)).
  { intros pid target current Hset Hfin He pid'. subst pid'.
    unfold settled in *. injection Hset as Hkp Hki Hkd Hmin Hmax.
    rewrite PID.PID_Calculate_step. unfold PID_step.
    cbn [fst Kp Ki Kd error error_last integral output output_max output_min].
    rewrite Hkp, Hki, Hkd, Hmin, Hmax. split; [reflexivity|]. split.
    - apply PID.clamp_within; [exact Hb|]. apply add_number; assumption.
    - match goal with |- context [clamp ?x lo hi] => destruct (is_nan x) eqn:Hx end.
      + left.
        match goal with
        | |- is_nan (clamp ?x lo hi) = true => destruct x; try discriminate Hx
        end.
        unfold clamp.
        replace (S754_nan >? hi) with false by (destruct hi; reflexivity).
        replace (S754_nan <? lo) with false by (destruct lo; reflexivity).
        reflexivity.
      + right. apply PID.clamp_within; assumption. }
  enough (Hrun : forall pid,
            settled pid -> is_finite (integral pid) = true -> inputs <> [] ->
            within lo hi (integral (PID_run inputs pid)) = true
            /\ (is_nan (output (PID_run inputs pid)) = true
                \/ within lo hi (output (PID_run inputs pid)) = true)
            /\ settled (PID_run inputs pid))
    by (apply Hrun; [reflexivity|reflexivity|exact Hne]).
  clear Hne. induction Hin as [|[target current] inputs He _ IH]; intros pid Hset Hfin Hne;
    [contradiction Hne; reflexivity|].
  cbn [PID_run]. cbn [fst snd] in He.
  destruct (Hstep pid target current Hset Hfin He) as (Hset' & Hi' & Ho').
  destruct inputs as [|next inputs].
  - cbn [PID_run]. repeat split; assumption.
  - apply IH; [exact Hset'| |discriminate].
    exact (within_finite _ _ _ Hflo Hfhi Hi').
Qed.

Lemma PID_run_integral_bounded_witness :
  let inputs := [(of_Z 320, of_Z 200); (of_Z 320, infinity)] in
  let pid := PID_run inputs (PID_Init (of_Z 1) (of_Z 1) (of_Z 1) (of_Z (-10)) (of_Z 10)) in
  within (of_Z (-10)) (of_Z 10) (integral pid) = true
  /\ (is_nan (output pid) = true \/ within (of_Z (-10)) (of_Z 10) (output pid) = true)
  /\ (Kp pid, Ki pid, Kd pid, output_min pid, output_max pid)
     = (of_Z 1, of_Z 1, of_Z 1, of_Z (-10), of_Z 10).
Proof.
  apply (PID_run_integral_bounded (of_Z 1) (of_Z 1) (of_Z 1) (of_Z (-10)) (of_Z 10)
           [(of_Z 320, of_Z 200); (of_Z 320, infinity)]);
    try reflexivity; [repeat constructor|discriminate].
Defined.

(** [Set_Servo_Angle] on each axis, field by field. *)
Lemma Set_Servo_Angle_fields (wild : float -> Z) (angle : float) (s : servo_state) :
  let raw1 := Angle_To_PWM wild angle SERVO1_MIN_ANGLE SERVO1_MAX_ANGLE in
  let raw2 := Angle_To_PWM wild angle SERVO2_MIN_ANGLE SERVO2_MAX_ANGLE in
  Set_Servo_Angle wild 1 angle s
  = {| Servo_Target1 := limited raw1;
       Servo_Target2 := limited (Servo_Target2 s);
       TIMA1_CC_0 := raw1; TIMA1_CC_1 := TIMA1_CC_1 s;
       timer_writes := timer_writes s ++ [(0, raw1)%Z] |}
  /\ Set_Servo_Angle wild 2 angle s
     = {| Servo_Target1 := limited (Servo_Target1 s);
          Servo_Target2 := limited raw2;
          TIMA1_CC_0 := TIMA1_CC_0 s; TIMA1_CC_1 := raw2;
          timer_writes := timer_writes s ++ [(1, raw2)%Z] |}.
Proof.
  cbv zeta. unfold Set_Servo_Angle. rewrite !ServoSafety.Servo_Limitation_fields.
  split; reflexivity.
Qed.

(** One call of [Update_Servo_Position], for coordinates that are not NaN
    and controllers whose outputs at them are not NaN: it writes two duties
    to the timer, channel 0 first, both within [24, 96], and leaves the
    controllers in the format. *)
Lemma Update_Servo_Position_writes (wild : float -> Z)
    (target_x target_y : float) (t : tracker) :
  valid target_x = true -> valid target_y = true ->
  is_nan target_x = false -> is_nan target_y = false ->
  PID_valid (pid_x t) -> PID_valid (pid_y t) ->
  is_nan (snd (PID_Calculate (pid_x t) (of_Z SCREEN_CENTER_X) target_x)) = false ->
  is_nan (snd (PID_Calculate (pid_y t) (of_Z SCREEN_CENTER_Y) target_y)) = false ->
  let t' := Update_Servo_Position wild target_x target_y t in
  (exists duty_x duty_y,
     duty_safe duty_x /\ duty_safe duty_y
     /\ timer_writes (servos t')
        = timer_writes (servos t) ++ [(0, duty_x)%Z; (1, duty_y)%Z]
     /\ TIMA1_CC_0 (servos t') = duty_x /\ TIMA1_CC_1 (servos t') = duty_y)
  /\ pid_x t' = fst (PID_Calculate (pid_x t) (of_Z SCREEN_CENTER_X) target_x)
  /\ pid_y t' = fst (PID_Calculate (pid_y t) (of_Z SCREEN_CENTER_Y) target_y)
  /\ PID_valid (pid_x t') /\ PID_valid (pid_y t').
Proof.
  intros Hvx Hvy Hnx Hny Hpx Hpy Hox Hoy t'.
  destruct (PID_Calculate_valid (pid_x t) (of_Z SCREEN_CENTER_X) target_x Hpx eq_refl Hvx)
    as [Hpx' Hovx].
  destruct (PID_Calculate_valid (pid_y t) (of_Z SCREEN_CENTER_Y) target_y Hpy eq_refl Hvy)
    as [Hpy' Hovy].
  destruct (screen_angle_x target_x Hvx Hnx) as (Hax & Hfx & _).
  destruct (screen_angle_y target_y Hvy Hny) as (Hay & Hfy & _).
  set (new_angle_x := Map_Coordinate_To_Angle target_x (of_Z 0) (of_Z 640)
                        SERVO_X_MIN_ANGLE SERVO_X_MAX_ANGLE
                      + snd (PID_Calculate (pid_x t) (of_Z SCREEN_CENTER_X) target_x)).
  set (new_angle_y := Map_Coordinate_To_Angle target_y (of_Z 0) (of_Z 480)
                        SERVO_Y_MIN_ANGLE SERVO_Y_MAX_ANGLE
                      + snd (PID_Calculate (pid_y t) (of_Z SCREEN_CENTER_Y) target_y)).
  assert (Hnvx : valid new_angle_x = true) by (apply add_valid; assumption).
  assert (Hnvy : valid new_angle_y = true) by (apply add_valid; assumption).
  assert (Hnnx : is_nan new_angle_x = false) by (apply add_number; assumption).
  assert (Hnny : is_nan new_angle_y = false) by (apply add_number; assumption).
  pose proof (DutyRange.Angle_To_PWM_servo1 wild new_angle_x Hnvx Hnnx) as Hdx.
  pose proof (DutyRange.Angle_To_PWM_servo2 wild new_angle_y Hnvy Hnny) as Hdy.
  subst t'. unfold Update_Servo_Position. cbn [pid_x pid_y servos].
  fold new_angle_x new_angle_y.
  destruct (Set_Servo_Angle_fields wild new_angle_x (servos t)) as [-> _].
  destruct (Set_Servo_Angle_fields wild new_angle_y
              {| Servo_Target1 :=
                   limited (Angle_To_PWM wild new_angle_x SERVO1_MIN_ANGLE SERVO1_MAX_ANGLE);
                 Servo_Target2 := limited (Servo_Target2 (servos t));
                 TIMA1_CC_0 := Angle_To_PWM wild new_angle_x SERVO1_MIN_ANGLE SERVO1_MAX_ANGLE;
                 TIMA1_CC_1 := TIMA1_CC_1 (servos t);
                 timer_writes := timer_writes (servos t)
                                 ++ [(0, Angle_To_PWM wild new_angle_x
                                           SERVO1_MIN_ANGLE SERVO1_MAX_ANGLE)%Z] |})
    as [_ ->].
  cbn [timer_writes TIMA1_CC_0 TIMA1_CC_1].
  split; [|split; [reflexivity|split; [reflexivity|split; [exact Hpx'|exact Hpy']]]].
  eexists _, _. split; [exact Hdx|]. split; [exact Hdy|].
  split; [rewrite <- app_assoc; reflexivity|]. split; reflexivity.
Qed.

(** *** Magnitudes

    What keeps the weighted sum of [PID_Calculate] finite: bounds on the
    exponents of sums, differences and products. *)

Local Open Scope R_scope.

(** Rounding a value of magnitude at most [(2^24 - 1) * 2^k] gives a finite
    number with exponent at most [k]. *)
Lemma round_aux_small (s : bool) (mx ex : Z) (lx : location) (v : R) (k : Z) :
  (0 <= mx)%Z -> (ex <= fexp (Zdigits2 mx + ex))%Z ->
  located v (shr_record_of_loc mx lx) ex ->
  (-149 <= k <= 104)%Z -> v <= val (2 ^ 24 - 1) k ->
  small k (binary_round_aux prec emax s mx ex lx) = true.
Proof.
  intros Hmx Hn Hloc Hk Hv.
  destruct (round_aux_faithful s mx ex lx v Hmx Hn Hloc)
    as (q & e & m' & e' & Hg & [Hq1 Hq2] & -> & Hval & Hm' & Hcan).
  destruct (grid_gap q e (2 ^ 24 - 1) k Hg ltac:(lia) ltac:(lia)) as [HgU _].
  assert (Hb : val m' e' <= val (2 ^ 24 - 1) k).
  { destruct Hval as [->|[-> Hlt]]; [lra|]. apply HgU. lra. }
  assert (He : (e' <= k)%Z).
  { destruct Hcan as [[[Hn' _] _]|[_ ->]]; [|lia].
    assert (H1 : pow2 (23 + e') <= val m' e').
    { rewrite pow2_add, (pow2_IZR 23) by lia. apply val_le. exact Hn'. }
    assert (H2 : val (2 ^ 24 - 1) k < pow2 (24 + k)).
    { rewrite pow2_add, (pow2_IZR 24) by lia. unfold val.
      apply Rmult_lt_compat_r; [apply pow2_pos|]. apply IZR_lt. lia. }
    assert (H3 : pow2 (23 + e') < pow2 (24 + k)) by lra.
    apply pow2_lt_inv in H3. lia. }
  destruct m' as [|p|p]; [reflexivity| |lia].
  cbn [finish]. replace (e' <=? emax - prec)%Z with true
    by (symmetry; apply Z.leb_le; unfold emax, prec; lia).
  cbn [small]. apply Z.leb_le. exact He.
Qed.

Lemma binary_round_small (s : bool) (m : positive) (e k : Z) :
  (-149 <= k <= 104)%Z -> val (Zpos m) e <= val (2 ^ 24 - 1) k ->
  small k (binary_round prec emax s m e) = true.
Proof.
  intros Hk Hv. unfold binary_round.
  fold (fexp (Zpos (digits2_pos m) + e)).
  pose proof (shl_align_spec m e (fexp (Zpos (digits2_pos m) + e))) as Hs.
  destruct (shl_align m e (fexp (Zpos (digits2_pos m) + e))) as [mz ez].
  destruct Hs as (Hez & Hmz & Hdz).
  assert (Hval : val (Zpos mz) ez = val (Zpos m) e).
  { rewrite Hmz, val_shift by lia. f_equal. lia. }
  apply (round_aux_small _ _ _ _ (val (Zpos m) e)); try assumption; [lia| |].
  - rewrite Zdigits2_pos, Hdz. lia.
  - rewrite <- Hval. apply located_exact.
Qed.

Lemma val_exponent_le (m e k : Z) : (0 <= m)%Z -> (e <= k)%Z -> val m e <= val m k.
Proof.
  intros Hm He. unfold val. apply Rmult_le_compat_l; [apply IZR_le; exact Hm|].
  apply pow2_le. exact He.
Qed.

(** The magnitude of a small number of the format. *)
Lemma small_val (s : bool) (m : positive) (e k : Z) :
  valid (S754_finite s m e) = true -> small k (S754_finite s m e) = true ->
  val (Zpos m) e <= val (2 ^ 24 - 1) k /\ (-149 <= e <= k)%Z.
Proof.
  intros Hv Hs. cbn [small] in Hs. apply Z.leb_le in Hs.
  destruct (DutyRange.valid_grid _ _ _ Hv) as [Hg _].
  assert (Hm : (Zpos m <= 2 ^ 24 - 1)%Z /\ (-149 <= e)%Z)
    by (destruct Hg as [[? ?]|[? ?]]; lia).
  split; [|lia].
  apply Rle_trans with (val (2 ^ 24 - 1) e); [apply val_le; lia|].
  apply val_exponent_le; lia.
Qed.

Lemma binary_normalize_small (z ez k : Z) (s : bool) :
  (-149 <= k <= 104)%Z -> val (Z.abs z) ez <= val (2 ^ 24 - 1) k ->
  small k (binary_normalize prec emax z ez s) = true.
Proof.
  intros Hk Hv. destruct z as [|p|p]; cbn [binary_normalize]; [reflexivity| |];
    apply binary_round_small; assumption.
Qed.

Lemma val_abs_add (a b e : Z) :
  val (Z.abs (a + b)) e <= val (Z.abs a) e + val (Z.abs b) e.
Proof.
  rewrite <- val_add. apply val_le. lia.
Qed.

(** Sums and differences of small numbers. *)
Lemma add_sub_small (x y : float) (k : Z) :
  valid x = true -> valid y = true ->
  small k x = true -> small k y = true -> (k < 104)%Z ->
  small (k + 1) (add x y) = true /\ small (k + 1) (sub x y) = true.
Proof.
  intros Hvx Hvy Hsx Hsy Hk.
  assert (Hmono : forall z, small k z = true -> small (k + 1) z = true).
  { intros [?|?| |? ? e]; cbn [small]; try (intros H; exact H).
    intros H. apply Z.leb_le in H. apply Z.leb_le. lia. }
  assert (Hneg : forall s m e, small k (S754_finite s m e) = true ->
                               small (k + 1) (S754_finite (negb s) m e) = true).
  { intros s m e H. apply (Hmono (S754_finite (negb s) m e)). exact H. }
  destruct x as [sx|sx| |sx mx ex]; try discriminate Hsx;
    destruct y as [sy|sy| |sy my ey]; try discriminate Hsy.
  - split; unfold add, sub; cbn [SFadd SFsub]; destruct sx, sy; reflexivity.
  - split; unfold add, sub; cbn [SFadd SFsub]; [apply (Hmono _ Hsy)|apply Hneg; exact Hsy].
  - split; unfold add, sub; cbn [SFadd SFsub]; apply (Hmono _ Hsx).
  - destruct (small_val _ _ _ _ Hvx Hsx) as [Hx Hex].
    destruct (small_val _ _ _ _ Hvy Hsy) as [Hy Hey].
    assert (Hsum : val (Zpos mx) ex + val (Zpos my) ey <= val (2 ^ 24 - 1) (k + 1)).
    { unfold val in *. rewrite pow2_add, pow2_1. lra. }
    assert (Hax : forall sx0, val (Z.abs (cond_Zopp sx0 (Zpos (fst (shl_align mx ex (Z.min ex ey))))))
                                 (Z.min ex ey) = val (Zpos mx) ex).
    { intros s0. rewrite <- (DutyRange.aligned_val mx ex (Z.min ex ey)) by lia.
      f_equal. destruct s0; cbn [cond_Zopp]; lia. }
    assert (Hay : forall sy0, val (Z.abs (cond_Zopp sy0 (Zpos (fst (shl_align my ey (Z.min ex ey))))))
                                 (Z.min ex ey) = val (Zpos my) ey).
    { intros s0. rewrite <- (DutyRange.aligned_val my ey (Z.min ex ey)) by lia.
      f_equal. destruct s0; cbn [cond_Zopp]; lia. }
    split; unfold add, sub; cbn [SFadd SFsub]; apply binary_normalize_small; try lia.
    + eapply Rle_trans; [apply val_abs_add|]. rewrite Hax, Hay. exact Hsum.
    + unfold Z.sub. eapply Rle_trans; [apply val_abs_add|].
      rewrite Z.abs_opp, Hax, Hay. exact Hsum.
Qed.

(** Products of small numbers. *)
Lemma mul_small (x y : float) (a b : Z) :
  valid x = true -> valid y = true ->
  small a x = true -> small b y = true -> (-149 <= a + b + 24 <= 104)%Z ->
  small (a + b + 24) (mul x y) = true.
Proof.
  intros Hvx Hvy Hsx Hsy Hk.
  destruct x as [sx|sx| |sx mx ex]; try discriminate Hsx;
    destruct y as [sy|sy| |sy my ey]; try discriminate Hsy; try reflexivity.
  destruct (small_val _ _ _ _ Hvx Hsx) as [Hx Hex].
  destruct (small_val _ _ _ _ Hvy Hsy) as [Hy Hey].
  unfold mul. cbn [SFmul].
  apply (round_aux_small _ _ _ _ (val (Zpos (mx * my)) (ex + ey))); [lia| | |lia|].
  - destruct (Mapper.valid_exponent _ _ _ Hvx) as [Hcx _].
    destruct (Mapper.valid_exponent _ _ _ Hvy) as [Hcy _].
    change (SpecFloat.fexp prec emax ?x) with (fexp x) in Hcx, Hcy.
    rewrite fexp_eq in Hcx, Hcy. rewrite Zdigits2_pos, fexp_eq.
    pose proof (digits_mul mx my).
    assert (0 < Zpos (digits2_pos mx))%Z by lia. assert (0 < Zpos (digits2_pos my))%Z by lia.
    lia.
  - apply located_exact.
  - assert (Hprod : val (Zpos (mx * my)) (ex + ey) = val (Zpos mx) ex * val (Zpos my) ey).
    { unfold val. rewrite Pos2Z.inj_mul, mult_IZR, pow2_add. ring. }
    rewrite Hprod.
    pose proof (val_pos mx ex). pose proof (val_pos my ey).
    apply Rle_trans with (val (2 ^ 24 - 1) a * val (2 ^ 24 - 1) b);
      [apply Rmult_le_compat; lra|].
    unfold val. rewrite !pow2_add. rewrite (pow2_IZR 24) by lia.
    pose proof (pow2_pos a). pose proof (pow2_pos b).
    assert (Hc : IZR (2 ^ 24 - 1) <= IZR (2 ^ 24)) by (apply IZR_le; lia).
    assert (0 <= IZR (2 ^ 24 - 1)) by (apply IZR_le; lia).
    assert (0 < pow2 a * pow2 b) by (apply Rmult_lt_0_compat; assumption).
    replace (IZR (2 ^ 24 - 1) * pow2 a * (IZR (2 ^ 24 - 1) * pow2 b))
      with (IZR (2 ^ 24 - 1) * (IZR (2 ^ 24 - 1) * (pow2 a * pow2 b))) by ring.
    replace (IZR (2 ^ 24 - 1) * (pow2 a * pow2 b * IZR (2 ^ 24)))
      with (IZR (2 ^ 24 - 1) * (IZR (2 ^ 24) * (pow2 a * pow2 b))) by ring.
    apply Rmult_le_compat_l; [assumption|].
    apply Rmult_le_compat_r; lra.
Qed.

Lemma small_finite (k : Z) (x : float) : small k x = true -> is_finite x = true.
Proof. destruct x; cbn; congruence. Qed.

Local Close Scope R_scope.
Local Open Scope f32_scope.

Lemma add_number_r (x y : float) :
  is_nan x = false -> is_finite y = true -> is_nan (add x y) = false.
Proof.
  intros Hx Hy. unfold add.
  destruct y as [sy|sy| |sy my ey]; try discriminate Hy;
    destruct x as [sx|sx| |sx mx ex]; try discriminate Hx; cbn [SFadd];
    try reflexivity; try (destruct sx, sy; reflexivity).
  apply binary_normalize_valid.
Qed.

Lemma finite_number (x : float) : is_finite x = true -> is_nan x = false.
Proof. destruct x; cbn; congruence. Qed.

Lemma mul_finite (x y : float) :
  valid x = true -> valid y = true -> is_finite x = true -> is_finite y = true ->
  is_nan (mul x y) = false.
Proof.
  intros Hvx Hvy Hx Hy.
  destruct y as [sy|sy| |sy my ey]; try discriminate Hy.
  - destruct x as [sx|sx| |sx mx ex]; try discriminate Hx; reflexivity.
  - apply mul_number; [assumption|assumption|apply finite_number; exact Hx].
Qed.

(** 16-bit pixel counts are coordinates. *)
Lemma pixel_of_Z (n : Z) : (0 <= n <= 65535)%Z -> pixel (of_Z n) = true.
Proof.
  intros Hn. unfold pixel, of_Z, make. apply andb_true_iff. split.
  - apply binary_normalize_valid.
  - apply binary_normalize_small; [lia|].
    apply Rle_trans with (val (65535 * 2 ^ 8) (-8)).
    + rewrite (val_shift 65535 (-8) 8) by lia.
      change (-8 + 8)%Z with 0%Z. apply val_le. lia.
    + apply val_le. lia.
Qed.

(** One tick of a sound controller on coordinates: the controller stays
    sound and the output is a finite number. *)
Lemma PID_Calculate_sound (pid : PID_Controller) (target current : float) :
  PID_sound pid -> pixel target = true -> pixel current = true ->
  PID_sound (fst (PID_Calculate pid target current))
  /\ valid (snd (PID_Calculate pid target current)) = true
  /\ is_nan (snd (PID_Calculate pid target current)) = false
  /\ within (output_min pid) (output_max pid)
            (snd (PID_Calculate pid target current)) = true
  /\ within (output_min pid) (output_max pid)
            (integral (fst (PID_Calculate pid target current))) = true.
Proof.
  intros (Hval & Hb & Hflo & Hfhi & Hfi & Hfki & Hkp & Hkd & Hel)
         [Hvt Hst]%andb_true_iff [Hvc Hsc]%andb_true_iff.
  destruct (PID_Calculate_valid pid target current Hval Hvt Hvc) as [Hval' Hvo].
  pose proof Hval as (Hvkp & Hvki & Hvkd & _ & Hvel & Hvi & _ & Hvmax & Hvmin).
  revert Hval' Hvo. rewrite PID.PID_Calculate_step. unfold PID_step, PID_sound.
  cbn [fst snd Kp Ki Kd error error_last integral output output_max output_min].
  set (e := target - current).
  set (i' := clamp (integral pid + e) (output_min pid) (output_max pid)).
  set (raw := Kp pid * e + Ki pid * i' + Kd pid * (e - error_last pid)).
  intros Hval' Hvo.
  assert (Hve : valid e = true) by (apply sub_valid; assumption).
  assert (Hse : small (-7) e = true)
    by (apply (add_sub_small target current (-8)); [assumption..|lia]).
  assert (Hwi : within (output_min pid) (output_max pid) i' = true).
  { apply PID.clamp_within; [exact Hb|]. apply add_number; [exact Hfi|].
    apply finite_number. exact (small_finite _ _ Hse). }
  assert (Hfi' : is_finite i' = true) by exact (within_finite _ _ _ Hflo Hfhi Hwi).
  assert (Hvi' : valid i' = true)
    by (apply clamp_valid; [apply add_valid|..]; assumption).
  assert (Hraw : is_nan raw = false).
  { apply add_number_r.
    - apply add_number.
      + apply (small_finite (86 + -7 + 24)). apply mul_small; [assumption..|lia].
      + apply mul_finite; assumption.
    - apply (small_finite (86 + -6 + 24)). apply mul_small; try assumption; [| |lia].
      + apply sub_valid; assumption.
      + apply (add_sub_small e (error_last pid) (-7)); [assumption..|lia]. }
  assert (Hwo : within (output_min pid) (output_max pid)
                       (clamp raw (output_min pid) (output_max pid)) = true)
    by (apply PID.clamp_within; assumption).
  split; [|split; [exact Hvo|split; [|split; [exact Hwo|exact Hwi]]]].
  - split; [exact Hval'|]. repeat (split; [assumption|]). exact Hse.
  - apply finite_number. exact (within_finite _ _ _ Hflo Hfhi Hwo).
Qed.

(** [PID_Calculate] on pixel coordinates never gives a NaN.  With a sound
    controller (fields of the format, ordered finite bounds, a finite
    integral, moderate gains and last error) and target and measurement of
    magnitude below 2^16, the output and the integral lie within the
    bounds, and the controller is sound again, so that this holds for the
    next tick as well. *)
Theorem PID_Calculate_on_pixels (pid : PID_Controller) (target current : float) :
  PID_sound pid -> pixel target = true -> pixel current = true ->
  let pid' := fst (PID_Calculate pid target current) in
  let out := snd (PID_Calculate pid target current) in
  within (output_min pid) (output_max pid) out = true
  /\ within (output_min pid) (output_max pid) (integral pid') = true
  /\ is_finite out = true /\ output pid' = out
  /\ PID_sound pid'.
Proof.
  intros Hs Ht Hc pid' out.
  destruct (PID_Calculate_sound pid target current Hs Ht Hc)
    as (Hs' & _ & _ & Hwo & Hwi).
  destruct Hs as (_ & _ & Hflo & Hfhi & _).
  split; [exact Hwo|]. split; [exact Hwi|].
  split; [exact (within_finite _ _ _ Hflo Hfhi Hwo)|].
  split; [|exact Hs'].
  subst pid' out. rewrite PID.PID_Calculate_step. reflexivity.
Qed.

Lemma PID_Calculate_on_pixels_witness :
  let pid' := fst (PID_Calculate tuned (of_Z SCREEN_CENTER_X) (of_Z 65535)) in
  let out := snd (PID_Calculate tuned (of_Z SCREEN_CENTER_X) (of_Z 65535)) in
  within (output_min tuned) (output_max tuned) out = true
  /\ within (output_min tuned) (output_max tuned) (integral pid') = true
  /\ is_finite out = true /\ output pid' = out
  /\ PID_sound pid'.
Proof.
  apply (PID_Calculate_on_pixels tuned (of_Z SCREEN_CENTER_X) (of_Z 65535));
    [repeat split; reflexivity|reflexivity|reflexivity].
Defined.

Lemma pixel_number (x : float) :
  pixel x = true -> valid x = true /\ is_nan x = false.
Proof.
  intros [Hv Hs]%andb_true_iff. split; [exact Hv|].
  apply finite_number. exact (small_finite _ _ Hs).
Qed.

(** The tracking loop.  From sound controllers (as [PID_Init] gives with
    moderate gains and ordered finite bounds) and through any series of
    coordinates of magnitude below 2^16, every call of
    [Update_Servo_Position] writes two duties to the timer, channel 0 then
    channel 1, and every duty written lies within [24, 96]; the controllers
    stay sound. *)
Theorem Update_run_duty_safe (wild : float -> Z)
    (targets : list (float * float)) (t : tracker) :
  Forall (fun p => pixel (fst p) = true /\ pixel (snd p) = true) targets ->
  PID_sound (pid_x t) -> PID_sound (pid_y t) ->
  let t' := Update_run wild targets t in
  (exists duties,
     timer_writes (servos t') = timer_writes (servos t) ++ duties
     /\ map fst duties = concat (map (fun _ => [0; 1]%Z) targets)
     /\ Forall (fun w => duty_safe (snd w)) duties)
  /\ PID_sound (pid_x t') /\ PID_sound (pid_y t').
Proof.
  intros Hin. revert t.
  induction Hin as [|[target_x target_y] targets [Hx Hy] _ IH]; intros t Hpx Hpy.
  - cbn [Update_run]. split; [|split; assumption].
    exists []. rewrite app_nil_r. repeat split. constructor.
  - cbn [fst snd] in Hx, Hy. cbn [Update_run].
    destruct (pixel_number _ Hx) as [Hvx Hnx].
    destruct (pixel_number _ Hy) as [Hvy Hny].
    destruct (PID_Calculate_sound (pid_x t) (of_Z SCREEN_CENTER_X) target_x Hpx
                (pixel_of_Z SCREEN_CENTER_X ltac:(unfold SCREEN_CENTER_X; lia)) Hx)
      as (Hsx & _ & Hox & _).
    destruct (PID_Calculate_sound (pid_y t) (of_Z SCREEN_CENTER_Y) target_y Hpy
                (pixel_of_Z SCREEN_CENTER_Y ltac:(unfold SCREEN_CENTER_Y; lia)) Hy)
      as (Hsy & _ & Hoy & _).
    destruct (Update_Servo_Position_writes wild target_x target_y t Hvx Hvy Hnx Hny
                (proj1 Hpx) (proj1 Hpy) Hox Hoy)
      as ((duty_x & duty_y & Hdx & Hdy & Hw & _) & Hex & Hey & _).
    set (t1 := Update_Servo_Position wild target_x target_y t) in *.
    destruct (IH t1) as ((duties & Hws & Hch & Hsafe) & Hfx & Hfy).
    + rewrite Hex. exact Hsx.
    + rewrite Hey. exact Hsy.
    + split; [|split; assumption].
      exists ((0, duty_x)%Z :: (1, duty_y)%Z :: duties).
      split; [rewrite Hws, Hw, <- app_assoc; reflexivity|]. split.
      * cbn [map concat fst app]. rewrite Hch. reflexivity.
      * constructor; [exact Hdx|]. constructor; [exact Hdy|exact Hsafe].
Qed.

Lemma Update_run_duty_safe_witness :
  let t := {| pid_x := tuned; pid_y := tuned; servos := Servo_Init servo_reset |} in
  let t' := Update_run (fun _ => 0%Z) [(of_Z 200, of_Z 230); (of_Z 640, of_Z 0)] t in
  (exists duties,
     timer_writes (servos t') = timer_writes (servos t) ++ duties
     /\ map fst duties = concat (map (fun _ => [0; 1]%Z)
                                     [(of_Z 200, of_Z 230); (of_Z 640, of_Z 0)])
     /\ Forall (fun w => duty_safe (snd w)) duties)
  /\ PID_sound (pid_x t') /\ PID_sound (pid_y t').
Proof.
  apply (Update_run_duty_safe (fun _ => 0%Z)
           [(of_Z 200, of_Z 230); (of_Z 640, of_Z 0)]
           {| pid_x := tuned; pid_y := tuned; servos := Servo_Init servo_reset |}).
  - repeat constructor.
  - repeat split; reflexivity.
  - repeat split; reflexivity.
Defined.

End Tracking.
